(** * LRU-K replacer of BusTub: a shallow embedding and its properties

    Source: [src/buffer/lru_k_replacer.cpp] and
    [src/include/buffer/lru_k_replacer.h].

    The replacer keeps, for every tracked frame, a bounded history of access
    timestamps, and two [std::list]s of pointers to the tracked nodes: the
    frames with fewer than [k_] accesses ([fifo_list_]) and the frames with
    [k_] accesses ([lru_list_]).  Two hash maps remember, per frame, the
    [std::list] iterator of the frame's element in each list. *)

From stdpp Require Import base option list sorting gmap.
From Stdlib Require Import ZArith Lia.

Local Open Scope Z_scope.

#[local] Set Warnings "-clear-no-such-hyp".

(** ** Machine integers *)

Module SizeT.
(** [size_t] is a 64-bit unsigned integer: a [Z] in [0, 2^64), with the
    wrap-around of [++] and [--] written out. *)
Definition modulus : Z := 2 ^ 64.

Definition wrap (z : Z) : Z := z mod modulus.

Definition incr (z : Z) : Z := wrap (z + 1).

Definition decr (z : Z) : Z := wrap (z - 1).
End SizeT.

(** Modelled from the spec: the type [frame_id_t] is declared in
    [common/config.h], which is not among the sources; the spec calls it an
    "integer identifier".  It is taken as BusTub's signed 32-bit integer. *)
Definition is_frame_id (z : Z) : Prop := - 2 ^ 31 <= z < 2 ^ 31.

(** [static_cast<size_t>(frame_id)]: the value modulo [2^64]. *)
Definition static_cast_size_t (frame_id : Z) : Z := SizeT.wrap frame_id.

(** ** Outcomes of an operation

    An operation returns normally ([Ok]), aborts on a failed assertion
    ([Fatal]), or leaves the behaviour defined by C++ ([Undefined]): erasing
    through an invalidated or singular iterator, dereferencing a dangling
    pointer, [back()] on an empty list. *)
Inductive outcome (A : Type) : Type :=
| Ok (a : A)
| Fatal
| Undefined.
Arguments Ok {A} a.
Arguments Fatal {A}.
Arguments Undefined {A}.

Definition outcome_bind {A B : Type} (f : A → outcome B) (m : outcome A) : outcome B :=
  match m with
  | Ok a => f a
  | Fatal => Fatal
  | Undefined => Undefined
  end.

#[global] Instance outcome_ret : MRet outcome := @Ok.
#[global] Instance outcome_mbind : MBind outcome := @outcome_bind.

(** An [option] whose [None] stands for undefined behaviour. *)
Definition defined {A : Type} (o : option A) : outcome A :=
  match o with
  | Some a => Ok a
  | None => Undefined
  end.

(** Modelled from the spec: the macro [BUSTUB_ASSERT] is declared in
    [common/macros.h], which is not among the sources; a violated
    precondition "is a fatal contract error" that aborts the operation. *)
Definition BUSTUB_ASSERT (cond : bool) : outcome unit :=
  if cond then Ok tt else Fatal.

(** ** Data *)

Inductive AccessType : Type := Unknown | Lookup | Scan | Index.

(** [class LRUKNode]; [history] has the most recent timestamp in front. *)
Record LRUKNode : Type := mkLRUKNode {
  is_evictable : bool;
  history : list Z;
  fid : Z;
  node_k_ : Z
}.

(** [LRUKNode::LRUKNode(fid, k)]: not evictable, empty history. *)
Definition LRUKNode_new (frame_id k : Z) : LRUKNode :=
  {| is_evictable := false; history := []; fid := frame_id; node_k_ := k |}.

Definition set_is_evictable (b : bool) (n : LRUKNode) : LRUKNode :=
  {| is_evictable := b; history := history n; fid := fid n; node_k_ := node_k_ n |}.

Definition set_history (h : list Z) (n : LRUKNode) : LRUKNode :=
  {| is_evictable := is_evictable n; history := h; fid := fid n; node_k_ := node_k_ n |}.

(** A [std::list] iterator designates one list element.  Every element
    inserted into a list is a new allocation, so an element is identified by
    a number that was never used before, and an iterator is that number.  It
    is valid for a list exactly when the list still holds the element. *)
Definition iterator : Type := nat.

(** An element of a [std::list<LRUKNode*>]: its identity and the pointer it
    stores.  A pointer into [node_store_] is the key of the node it points
    to; it dangles when the key is absent.  (A node and the list element
    that points to it are always destroyed by the same call, see [wf]: a
    list never holds the element of an earlier node of the same key.) *)
Definition element : Type := iterator * Z.

Definition elem_iter (e : element) : iterator := e.1.

Definition elem_ptr (e : element) : Z := e.2.

(** [class LRUKReplacer] (the latch apart).  [next_iter_] is the allocator
    of list elements: the identity the next inserted element gets. *)
Record LRUKReplacer : Type := mkLRUKReplacer {
  lru_list_ : list element;
  fifo_list_ : list element;
  node_store_ : gmap Z LRUKNode;
  fid_to_lru_iter_ : gmap Z iterator;
  fid_to_fifo_iter_ : gmap Z iterator;
  current_timestamp_ : Z;
  curr_size_ : Z;
  replacer_size_ : Z;
  k_ : Z;
  next_iter_ : iterator
}.

(** [LRUKReplacer::LRUKReplacer(num_frames, k)]. *)
Definition LRUKReplacer_new (num_frames k : Z) : LRUKReplacer :=
  {| lru_list_ := []; fifo_list_ := []; node_store_ := ∅;
     fid_to_lru_iter_ := ∅; fid_to_fifo_iter_ := ∅;
     current_timestamp_ := 0; curr_size_ := 0;
     replacer_size_ := num_frames; k_ := k; next_iter_ := O |}.

(** ** List primitives *)

(** [l.erase(it)]: removes the element [it] designates; undefined when the
    list does not hold it. *)
Fixpoint list_erase (it : iterator) (l : list element) : option (list element) :=
  match l with
  | [] => None
  | e :: l' =>
      if decide (elem_iter e = it) then Some l'
      else cons e <$> list_erase it l'
  end.

(** [*p] for a pointer into [node_store_]. *)
Definition deref (store : gmap Z LRUKNode) (p : Z) : option LRUKNode := store !! p.

(** [m[frame_id]] read as an iterator to erase through: an absent key is
    value-initialised to a singular iterator, which no list holds. *)
Definition iter_at (m : gmap Z iterator) (frame_id : Z) : option iterator := m !! frame_id.

(** [h.back()]. *)
Definition back (h : list Z) : option Z := last h.

(** [while (h.size() > k) h.pop_back();] with one unit of fuel per element
    of [h]. *)
Fixpoint pop_back_while (fuel : nat) (k : Z) (h : list Z) : list Z :=
  match fuel with
  | O => h
  | S fuel' =>
      if Z.of_nat (length h) >? k
      then pop_back_while fuel' k (removelast h)
      else h
  end.

(** The loop of [Evict] over a list in reverse: the first element, from
    [rbegin()], whose node is evictable.  The argument is the list reversed. *)
Fixpoint first_evictable (store : gmap Z LRUKNode) (rl : list element)
  : outcome (option element) :=
  match rl with
  | [] => Ok None
  | e :: rl' =>
      node ← defined (deref store (elem_ptr e));
      if is_evictable node then Ok (Some e) else first_evictable store rl'
  end.

(** The loop of [RecordAccess] over [lru_list_] from [begin()], followed by
    the [insert]: [e] goes before the first element whose node's oldest
    timestamp is smaller than that of [h], and at the end if there is none. *)
Fixpoint insert_before_smaller (store : gmap Z LRUKNode) (h : list Z)
    (e : element) (l : list element) : outcome (list element) :=
  match l with
  | [] => Ok [e]
  | x :: l' =>
      node ← defined (deref store (elem_ptr x));
      b ← defined (back (history node));
      mine ← defined (back h);
      if b <? mine then Ok (e :: x :: l')
      else l'' ← insert_before_smaller store h e l'; Ok (x :: l'')
  end.

(** ** Field updates of the replacer *)

Definition with_lru_list_ (v : list element) (s : LRUKReplacer) : LRUKReplacer :=
  mkLRUKReplacer v (fifo_list_ s) (node_store_ s) (fid_to_lru_iter_ s)
    (fid_to_fifo_iter_ s) (current_timestamp_ s) (curr_size_ s)
    (replacer_size_ s) (k_ s) (next_iter_ s).

Definition with_fifo_list_ (v : list element) (s : LRUKReplacer) : LRUKReplacer :=
  mkLRUKReplacer (lru_list_ s) v (node_store_ s) (fid_to_lru_iter_ s)
    (fid_to_fifo_iter_ s) (current_timestamp_ s) (curr_size_ s)
    (replacer_size_ s) (k_ s) (next_iter_ s).

Definition with_node_store_ (v : gmap Z LRUKNode) (s : LRUKReplacer) : LRUKReplacer :=
  mkLRUKReplacer (lru_list_ s) (fifo_list_ s) v (fid_to_lru_iter_ s)
    (fid_to_fifo_iter_ s) (current_timestamp_ s) (curr_size_ s)
    (replacer_size_ s) (k_ s) (next_iter_ s).

Definition with_fid_to_lru_iter_ (v : gmap Z iterator) (s : LRUKReplacer) : LRUKReplacer :=
  mkLRUKReplacer (lru_list_ s) (fifo_list_ s) (node_store_ s) v
    (fid_to_fifo_iter_ s) (current_timestamp_ s) (curr_size_ s)
    (replacer_size_ s) (k_ s) (next_iter_ s).

Definition with_fid_to_fifo_iter_ (v : gmap Z iterator) (s : LRUKReplacer) : LRUKReplacer :=
  mkLRUKReplacer (lru_list_ s) (fifo_list_ s) (node_store_ s) (fid_to_lru_iter_ s)
    v (current_timestamp_ s) (curr_size_ s)
    (replacer_size_ s) (k_ s) (next_iter_ s).

Definition with_current_timestamp_ (v : Z) (s : LRUKReplacer) : LRUKReplacer :=
  mkLRUKReplacer (lru_list_ s) (fifo_list_ s) (node_store_ s) (fid_to_lru_iter_ s)
    (fid_to_fifo_iter_ s) v (curr_size_ s)
    (replacer_size_ s) (k_ s) (next_iter_ s).

Definition with_curr_size_ (v : Z) (s : LRUKReplacer) : LRUKReplacer :=
  mkLRUKReplacer (lru_list_ s) (fifo_list_ s) (node_store_ s) (fid_to_lru_iter_ s)
    (fid_to_fifo_iter_ s) (current_timestamp_ s) v
    (replacer_size_ s) (k_ s) (next_iter_ s).

Definition with_next_iter_ (v : iterator) (s : LRUKReplacer) : LRUKReplacer :=
  mkLRUKReplacer (lru_list_ s) (fifo_list_ s) (node_store_ s) (fid_to_lru_iter_ s)
    (fid_to_fifo_iter_ s) (current_timestamp_ s) (curr_size_ s)
    (replacer_size_ s) (k_ s) v.

(** ** The operations *)

(** [LRUKReplacer::Evict].  When [fifo_list_] is not empty the function
    returns from inside the first [if], whether or not the scan found a
    victim. *)
Definition Evict (s : LRUKReplacer) : outcome (option Z * LRUKReplacer) :=
  if 0 <? Z.of_nat (length (fifo_list_ s)) then
    found ← first_evictable (node_store_ s) (reverse (fifo_list_ s));
    match found with
    | Some e =>
        node ← defined (deref (node_store_ s) (elem_ptr e));
        let victim := fid node in
        let s1 := with_node_store_ (delete victim (node_store_ s)) s in
        fifo ← defined (list_erase (elem_iter e) (fifo_list_ s1));
        let s2 := with_fifo_list_ fifo s1 in
        let s3 := with_curr_size_ (SizeT.decr (curr_size_ s2)) s2 in
        Ok (Some victim, s3)
    | None => Ok (None, s)
    end
  else if 0 <? Z.of_nat (length (lru_list_ s)) then
    found ← first_evictable (node_store_ s) (reverse (lru_list_ s));
    match found with
    | Some e =>
        node ← defined (deref (node_store_ s) (elem_ptr e));
        let victim := fid node in
        let s1 := with_node_store_ (delete victim (node_store_ s)) s in
        lru ← defined (list_erase (elem_iter e) (lru_list_ s1));
        let s2 := with_lru_list_ lru s1 in
        let s3 := with_curr_size_ (SizeT.decr (curr_size_ s2)) s2 in
        Ok (Some victim, s3)
    | None => Ok (None, s)
    end
  else Ok (None, s).

(** Lines 96-100 of [RecordAccess]: a frame not yet in [node_store_] gets a
    node, is pushed at the front of [fifo_list_], and its iterator is
    recorded. *)
Definition enroll (frame_id : Z) (s : LRUKReplacer) : LRUKReplacer :=
  match node_store_ s !! frame_id with
  | Some _ => s
  | None =>
      let s1 := with_node_store_ (<[frame_id := LRUKNode_new frame_id (k_ s)]> (node_store_ s)) s in
      let it := next_iter_ s1 in
      let s2 := with_next_iter_ (S it) (with_fifo_list_ ((it, frame_id) :: fifo_list_ s1) s1) in
      with_fid_to_fifo_iter_ (<[frame_id := it]> (fid_to_fifo_iter_ s2)) s2
  end.

(** [LRUKReplacer::RecordAccess]. *)
Definition RecordAccess (frame_id : Z) (access_type : AccessType) (s : LRUKReplacer)
  : outcome LRUKReplacer :=
  _ ← BUSTUB_ASSERT (static_cast_size_t frame_id <=? replacer_size_ s);
  let s := enroll frame_id s in
  node ← defined (deref (node_store_ s) frame_id);
  let node := set_history (current_timestamp_ s :: history node) node in
  if Z.of_nat (length (history node)) >? k_ s then
    let node := set_history (pop_back_while (length (history node)) (k_ s) (history node)) node in
    let s := with_node_store_ (<[frame_id := node]> (node_store_ s)) s in
    iter ← defined (iter_at (fid_to_lru_iter_ s) frame_id);
    lru ← defined (list_erase iter (lru_list_ s));
    let new_iter := next_iter_ s in
    lru ← insert_before_smaller (node_store_ s) (history node) (new_iter, frame_id) lru;
    let s := with_next_iter_ (S new_iter) (with_lru_list_ lru s) in
    let s := with_fid_to_lru_iter_ (<[frame_id := new_iter]> (fid_to_lru_iter_ s)) s in
    Ok (with_current_timestamp_ (SizeT.incr (current_timestamp_ s)) s)
  else if Z.of_nat (length (history node)) =? k_ s then
    let s := with_node_store_ (<[frame_id := node]> (node_store_ s)) s in
    iter ← defined (iter_at (fid_to_fifo_iter_ s) frame_id);
    fifo ← defined (list_erase iter (fifo_list_ s));
    let s := with_fifo_list_ fifo s in
    let new_iter := next_iter_ s in
    let s := with_next_iter_ (S new_iter) (with_lru_list_ ((new_iter, frame_id) :: lru_list_ s) s) in
    let s := with_fid_to_lru_iter_ (<[frame_id := new_iter]> (fid_to_lru_iter_ s)) s in
    Ok (with_current_timestamp_ (SizeT.incr (current_timestamp_ s)) s)
  else
    let s := with_node_store_ (<[frame_id := node]> (node_store_ s)) s in
    Ok (with_current_timestamp_ (SizeT.incr (current_timestamp_ s)) s).

(** [LRUKReplacer::SetEvictable]. *)
Definition SetEvictable (frame_id : Z) (set_evictable : bool) (s : LRUKReplacer)
  : LRUKReplacer :=
  match node_store_ s !! frame_id with
  | None => s
  | Some node =>
      let s :=
        if is_evictable node && negb set_evictable
        then with_curr_size_ (SizeT.decr (curr_size_ s)) s
        else if negb (is_evictable node) && set_evictable
        then with_curr_size_ (SizeT.incr (curr_size_ s)) s
        else s in
      with_node_store_ (<[frame_id := set_is_evictable set_evictable node]> (node_store_ s)) s
  end.

(** [LRUKReplacer::Remove].  The two iterator maps are consulted one after
    the other; an entry found is erased from its list through the recorded
    iterator, valid or not. *)
Definition Remove (frame_id : Z) (s : LRUKReplacer) : outcome LRUKReplacer :=
  match node_store_ s !! frame_id with
  | None => Ok s
  | Some node =>
      if negb (is_evictable node) then Ok s
      else
        let s := with_node_store_ (delete frame_id (node_store_ s)) s in
        s ← match fid_to_fifo_iter_ s !! frame_id with
            | Some iter =>
                fifo ← defined (list_erase iter (fifo_list_ s));
                let s := with_fifo_list_ fifo s in
                Ok (with_fid_to_fifo_iter_ (delete frame_id (fid_to_fifo_iter_ s)) s)
            | None => Ok s
            end;
        s ← match fid_to_lru_iter_ s !! frame_id with
            | Some iter =>
                lru ← defined (list_erase iter (lru_list_ s));
                let s := with_lru_list_ lru s in
                Ok (with_fid_to_lru_iter_ (delete frame_id (fid_to_lru_iter_ s)) s)
            | None => Ok s
            end;
        Ok (with_curr_size_ (SizeT.decr (curr_size_ s)) s)
  end.

(** [LRUKReplacer::Size]. *)
Definition Size (s : LRUKReplacer) : Z := curr_size_ s.

(** ** Runs of operations *)

Inductive op : Type :=
| OpRecordAccess (frame_id : Z) (access_type : AccessType)
| OpSetEvictable (frame_id : Z) (set_evictable : bool)
| OpEvict
| OpRemove (frame_id : Z).

(** The frame identifiers of a call are values of [frame_id_t]. *)
Definition valid_op (o : op) : Prop :=
  match o with
  | OpRecordAccess frame_id _ => is_frame_id frame_id
  | OpSetEvictable frame_id _ => is_frame_id frame_id
  | OpEvict => True
  | OpRemove frame_id => is_frame_id frame_id
  end.

Definition exec (o : op) (s : LRUKReplacer) : outcome LRUKReplacer :=
  match o with
  | OpRecordAccess frame_id access_type => RecordAccess frame_id access_type s
  | OpSetEvictable frame_id set_evictable => Ok (SetEvictable frame_id set_evictable s)
  | OpEvict => r ← Evict s; Ok r.2
  | OpRemove frame_id => Remove frame_id s
  end.

Fixpoint run (ops : list op) (s : LRUKReplacer) : outcome LRUKReplacer :=
  match ops with
  | [] => Ok s
  | o :: ops' => s' ← exec o s; run ops' s'
  end.

(** The number of [RecordAccess] calls of a run: the reading of the logical
    clock if it never wrapped. *)
Fixpoint accesses (ops : list op) : Z :=
  match ops with
  | [] => 0
  | OpRecordAccess _ _ :: ops' => 1 + accesses ops'
  | _ :: ops' => accesses ops'
  end.

(** The pointers held by a list, in order. *)
Definition ptrs (l : list element) : list Z := elem_ptr <$> l.

(** The value [Evict] returns. *)
Definition victim (r : outcome (option Z * LRUKReplacer)) : outcome (option Z) :=
  x ← r; Ok x.1.

(** Whether the frame [f] is tracked and evictable. *)
Definition evictable (s : LRUKReplacer) (f : Z) : bool :=
  default false (is_evictable <$> node_store_ s !! f).

(** The iterators of the elements of a list, in order. *)
Definition iters (l : list element) : list iterator := elem_iter <$> l.

(** * Properties *)

(** ** The outcome monad *)

Lemma bind_Ok {A B : Type} (m : outcome A) (f : A → outcome B) (b : B) :
  m ≫= f = Ok b → ∃ a, m = Ok a ∧ f a = Ok b.
Proof. destruct m; simpl; intros H; try discriminate. eauto. Qed.

Lemma defined_Ok {A : Type} (o : option A) (a : A) : defined o = Ok a → o = Some a.
Proof. destruct o; simpl; congruence. Qed.

(** Splits a hypothesis [m ≫= f = Ok b] until none is left. *)
Ltac ok_inv :=
  repeat match goal with
  | H : Ok _ = Ok _ |- _ => injection H as H; try subst
  | H : @Fatal _ = Ok _ |- _ => discriminate H
  | H : @Undefined _ = Ok _ |- _ => discriminate H
  | H : defined _ = Ok _ |- _ => apply defined_Ok in H
  | H : _ ≫= _ = Ok _ |- _ =>
      let a := fresh "a" in
      let Ha := fresh "Ha" in
      apply bind_Ok in H as (a & Ha & H)
  end.

(** ** [std::list] primitives *)

Section list_primitives.
Implicit Types (l : list element) (e : element) (it : iterator).

Lemma list_erase_Some it l l' :
  list_erase it l = Some l' →
  ∃ l1 e l2, l = l1 ++ e :: l2 ∧ l' = l1 ++ l2 ∧ elem_iter e = it.
Proof.
  revert l'. induction l as [|x l IH]; intros l'; simpl; [discriminate|].
  destruct (decide (elem_iter x = it)) as [Heq|Hne].
  - intros [= <-]. by exists [], x, l.
  - destruct (list_erase it l) as [l0|]; simpl; [|discriminate].
    intros [= <-]. destruct (IH l0 eq_refl) as (l1 & e & l2 & -> & -> & He).
    by exists (x :: l1), e, l2.
Qed.

Lemma list_erase_middle l1 e l2 :
  elem_iter e ∉ iters l1 →
  list_erase (elem_iter e) (l1 ++ e :: l2) = Some (l1 ++ l2).
Proof.
  induction l1 as [|x l1 IH]; simpl; intros Hnin.
  - by rewrite decide_True.
  - apply not_elem_of_cons in Hnin as [Hne Hnin].
    rewrite decide_False by done. by rewrite IH.
Qed.

Lemma list_erase_elem_of it p l :
  (it, p) ∈ l → is_Some (list_erase it l).
Proof.
  induction l as [|x l IH]; [by intros ?%elem_of_nil|].
  intros Hin. simpl. destruct (decide (elem_iter x = it)); [eauto|].
  apply elem_of_cons in Hin as [Heq|Hin]; [by subst x|].
  destruct (IH Hin) as [l' ->]. simpl. eauto.
Qed.

Lemma elem_of_middle {A : Type} (x y : A) (l1 l2 : list A) :
  x ∈ l1 ++ y :: l2 ↔ x = y ∨ x ∈ l1 ++ l2.
Proof. set_solver. Qed.

Lemma NoDup_middle {A : Type} (y : A) (l1 l2 : list A) :
  NoDup (l1 ++ y :: l2) ↔ (y ∉ l1 ++ l2) ∧ NoDup (l1 ++ l2).
Proof.
  rewrite !NoDup_app, NoDup_cons. set_solver.
Qed.

Lemma ptrs_middle l1 e l2 : ptrs (l1 ++ e :: l2) = ptrs l1 ++ elem_ptr e :: ptrs l2.
Proof. unfold ptrs. by rewrite fmap_app. Qed.

Lemma iters_middle l1 e l2 : iters (l1 ++ e :: l2) = iters l1 ++ elem_iter e :: iters l2.
Proof. unfold iters. by rewrite fmap_app. Qed.

Lemma ptrs_app l1 l2 : ptrs (l1 ++ l2) = ptrs l1 ++ ptrs l2.
Proof. apply fmap_app. Qed.

Lemma iters_app l1 l2 : iters (l1 ++ l2) = iters l1 ++ iters l2.
Proof. apply fmap_app. Qed.

Lemma elem_of_ptrs p l : p ∈ ptrs l ↔ ∃ it, (it, p) ∈ l.
Proof.
  unfold ptrs. rewrite list_elem_of_fmap. split.
  - intros ([it q] & -> & Hin). by exists it.
  - intros [it Hin]. by exists (it, p).
Qed.

Lemma elem_of_iters it l : it ∈ iters l ↔ ∃ p, (it, p) ∈ l.
Proof.
  unfold iters. rewrite list_elem_of_fmap. split.
  - intros ([i q] & -> & Hin). by exists q.
  - intros [p Hin]. by exists (it, p).
Qed.
End list_primitives.

(** The trimming loop keeps the [k] most recent timestamps. *)
Lemma pop_back_while_take (fuel : nat) (k : Z) (h : list Z) :
  0 <= k → (length h ≤ fuel + Z.to_nat k)%nat →
  pop_back_while fuel k h = take (Z.to_nat k) h.
Proof.
  intros Hk. revert h. induction fuel as [|fuel IH]; intros h Hlen; simpl.
  - by rewrite take_ge by lia.
  - destruct (Z.gtb_spec (Z.of_nat (length h)) k) as [Hgt|Hle].
    + destruct (decide (h = [])) as [->|Hne]; [simpl in Hgt; lia|].
      destruct (exists_last Hne) as (h' & x & ->).
      rewrite removelast_last. rewrite length_app in Hgt, Hlen. simpl in *.
      rewrite IH by lia. by rewrite take_app_le by lia.
    + by rewrite take_ge by lia.
Qed.

(** ** The scans of [Evict] and [RecordAccess] *)

(** The node a list element points to exists and is not evictable. *)
Definition pinned (store : gmap Z LRUKNode) (e : element) : Prop :=
  ∃ node, store !! elem_ptr e = Some node ∧ is_evictable node = false.

(** The pointer of a list element does not dangle. *)
Definition live (store : gmap Z LRUKNode) (e : element) : Prop :=
  is_Some (store !! elem_ptr e).

Section scans.
Implicit Types (l rl : list element) (e : element) (store : gmap Z LRUKNode).

Lemma first_evictable_Some store rl e :
  first_evictable store rl = Ok (Some e) →
  ∃ r1 r2 node, rl = r1 ++ e :: r2 ∧ store !! elem_ptr e = Some node ∧
    is_evictable node = true ∧ Forall (pinned store) r1.
Proof.
  induction rl as [|x rl IH]; simpl; [discriminate|].
  intros H. ok_inv. unfold deref in Ha.
  destruct (is_evictable a) eqn:Hev.
  - ok_inv. exists [], rl, a. by repeat split.
  - destruct (IH H) as (r1 & r2 & node & -> & Hn & He & Hp).
    exists (x :: r1), r2, node. repeat split; try done.
    constructor; [|done]. by exists a.
Qed.

Lemma first_evictable_None store rl :
  first_evictable store rl = Ok None → Forall (pinned store) rl.
Proof.
  induction rl as [|x rl IH]; simpl; [constructor|].
  intros H. ok_inv. unfold deref in Ha.
  destruct (is_evictable a) eqn:Hev; [discriminate|].
  constructor; [by exists a|auto].
Qed.

Lemma first_evictable_live store rl :
  Forall (live store) rl → ∃ r, first_evictable store rl = Ok r.
Proof.
  induction 1 as [|x rl [node Hn] _ IH]; simpl; [eauto|].
  unfold deref. rewrite Hn. simpl. destruct (is_evictable node); eauto.
Qed.

(** The reverse scan of [Evict], seen on the list itself: the victim is
    the evictable element nearest to the tail. *)
Lemma first_evictable_reverse_Some store l e :
  first_evictable store (reverse l) = Ok (Some e) →
  ∃ l1 l2 node, l = l1 ++ e :: l2 ∧ store !! elem_ptr e = Some node ∧
    is_evictable node = true ∧ Forall (pinned store) l2.
Proof.
  intros (r1 & r2 & node & Hl & Hn & He & Hp)%first_evictable_Some.
  exists (reverse r2), (reverse r1), node. repeat split; try done.
  - rewrite <-(reverse_involutive l), Hl.
    by rewrite reverse_app, reverse_cons, <-app_assoc.
  - by apply Forall_reverse.
Qed.

Lemma first_evictable_reverse_None store l :
  first_evictable store (reverse l) = Ok None → Forall (pinned store) l.
Proof.
  intros H%first_evictable_None. apply Forall_reverse in H.
  by rewrite reverse_involutive in H.
Qed.

Lemma insert_before_smaller_Ok store h e l l' :
  insert_before_smaller store h e l = Ok l' →
  ∃ l1 l2, l = l1 ++ l2 ∧ l' = l1 ++ e :: l2.
Proof.
  revert l'. induction l as [|x l IH]; intros l'; simpl.
  - intros [= <-]. by exists [], [].
  - intros H. ok_inv. destruct (a0 <? a1).
    + ok_inv. by exists [], (x :: l).
    + ok_inv. destruct (IH _ Ha2) as (l1 & l2 & -> & ->).
      by exists (x :: l1), l2.
Qed.

Lemma insert_before_smaller_defined store h e l :
  h ≠ [] →
  Forall (λ x, ∃ node, store !! elem_ptr x = Some node ∧ history node ≠ []) l →
  ∃ l', insert_before_smaller store h e l = Ok l'.
Proof.
  intros Hh. induction 1 as [|x l (node & Hn & Hne) _ [l' IH]]; simpl; [eauto|].
  unfold deref, back. rewrite Hn. simpl.
  destruct (last (history node)) as [b|] eqn:Hb; [|by apply last_None in Hb].
  destruct (last h) as [m|] eqn:Hm; [|by apply last_None in Hm].
  simpl. destruct (b <? m); [eauto|]. rewrite IH. simpl. eauto.
Qed.
End scans.

(** ** Well-formed replacer states *)

(** [node.history.size()]. *)
Definition history_size (node : LRUKNode) : Z := Z.of_nat (length (history node)).

(** The structure shared by the node store, the two lists and the two
    iterator maps.  The iterator maps may keep entries of frames that left
    a list: such an entry is stale, it designates no element. *)
Record wf (s : LRUKReplacer) : Prop := {
  wf_node : ∀ f node, node_store_ s !! f = Some node →
    fid node = f ∧ history_size node <= k_ s;
  wf_fifo : ∀ it p, (it, p) ∈ fifo_list_ s →
    ∃ node, node_store_ s !! p = Some node ∧ history_size node < k_ s ∧
      fid_to_fifo_iter_ s !! p = Some it;
  wf_lru : ∀ it p, (it, p) ∈ lru_list_ s →
    ∃ node, node_store_ s !! p = Some node ∧ history_size node = k_ s ∧
      fid_to_lru_iter_ s !! p = Some it;
  wf_fifo_ptrs : NoDup (ptrs (fifo_list_ s));
  wf_lru_ptrs : NoDup (ptrs (lru_list_ s));
  wf_fifo_iters : NoDup (iters (fifo_list_ s));
  wf_lru_iters : NoDup (iters (lru_list_ s));
  wf_short : ∀ f node, node_store_ s !! f = Some node →
    history_size node < k_ s → f ∈ ptrs (fifo_list_ s);
  wf_full : ∀ f node, node_store_ s !! f = Some node →
    history_size node = k_ s → f ∈ ptrs (lru_list_ s);
  wf_fifo_fresh : ∀ f it, fid_to_fifo_iter_ s !! f = Some it → (it < next_iter_ s)%nat;
  wf_lru_fresh : ∀ f it, fid_to_lru_iter_ s !! f = Some it → (it < next_iter_ s)%nat;
  wf_fifo_inj : ∀ f1 f2 it,
    fid_to_fifo_iter_ s !! f1 = Some it → fid_to_fifo_iter_ s !! f2 = Some it → f1 = f2;
  wf_lru_inj : ∀ f1 f2 it,
    fid_to_lru_iter_ s !! f1 = Some it → fid_to_lru_iter_ s !! f2 = Some it → f1 = f2;
  wf_has_fifo_iter : ∀ f node, node_store_ s !! f = Some node →
    is_Some (fid_to_fifo_iter_ s !! f)
}.

(** Every tracked frame has been accessed. *)
Definition accessed (s : LRUKReplacer) : Prop :=
  ∀ f node, node_store_ s !! f = Some node → history node ≠ [].

(** The number of nodes of the store that are evictable. *)
Definition evictable_count (store : gmap Z LRUKNode) : nat :=
  size (filter (λ kv, is_evictable kv.2 = true) store).

(** [curr_size_] counts the evictable nodes, and the keys of the store are
    values of [frame_id_t]. *)
Record counted (s : LRUKReplacer) : Prop := {
  counted_size : curr_size_ s = Z.of_nat (evictable_count (node_store_ s));
  counted_keys : ∀ f node, node_store_ s !! f = Some node → is_frame_id f
}.

(** The oldest timestamp kept for the frame [p]: [history.back()]. *)
Definition oldest (store : gmap Z LRUKNode) (p : Z) : option Z :=
  node ← store !! p; back (history node).

(** [e1] may stand nearer to the head of [fifo_list_] than [e2]: its oldest
    timestamp is the larger one.  A node that was just created has no
    timestamp yet and is newer than every other. *)
Definition newer (store : gmap Z LRUKNode) (e1 e2 : element) : Prop :=
  match oldest store (elem_ptr e1) with
  | None => True
  | Some t1 =>
      match oldest store (elem_ptr e2) with
      | Some t2 => t2 < t1
      | None => False
      end
  end.

(** What holds while the logical clock has not wrapped: every recorded
    timestamp is in the past, a history has its most recent timestamp in
    front, and [fifo_list_] has the most recently enrolled frame in front. *)
Record timed (s : LRUKReplacer) : Prop := {
  timed_clock : 0 <= current_timestamp_ s;
  timed_past : ∀ f node t, node_store_ s !! f = Some node →
    t ∈ history node → 0 <= t < current_timestamp_ s;
  timed_history : ∀ f node, node_store_ s !! f = Some node →
    StronglySorted Z.gt (history node);
  timed_fifo : StronglySorted (newer (node_store_ s)) (fifo_list_ s)
}.

(** ** Arithmetic of [size_t] *)

Lemma incr_small (z : Z) : 0 <= z → z + 1 < SizeT.modulus → SizeT.incr z = z + 1.
Proof. intros. unfold SizeT.incr, SizeT.wrap. by rewrite Z.mod_small by lia. Qed.

Lemma decr_small (z : Z) : 0 < z → z < SizeT.modulus → SizeT.decr z = z - 1.
Proof. intros. unfold SizeT.decr, SizeT.wrap. by rewrite Z.mod_small by lia. Qed.

Lemma modulus_eq : SizeT.modulus = 18446744073709551616.
Proof. reflexivity. Qed.

(** ** Counting the nodes of a store *)

(** A set of integers inside an interval of [n] values has at most [n]
    elements. *)
Lemma size_bounded_gset (n : nat) (lo : Z) (X : gset Z) :
  (∀ x, x ∈ X → lo <= x < lo + Z.of_nat n) → (size X ≤ n)%nat.
Proof.
  revert X. induction n as [|n IH]; intros X HX.
  - assert (X = ∅) as -> by (apply set_eq; intros x; split; [intros ?%HX; lia|set_solver]).
    by rewrite size_empty.
  - set (top := lo + Z.of_nat n).
    assert (size (X ∖ {[top]}) ≤ n)%nat as Hrest.
    { apply IH. intros x [Hx Hne]%elem_of_difference.
      apply HX in Hx. assert (x ≠ top) by set_solver. lia. }
    destruct (decide (top ∈ X)) as [Hin|Hnin].
    + assert (X = {[top]} ∪ X ∖ {[top]}) as ->.
      { apply set_eq. intros x. destruct (decide (x = top)); set_solver. }
      rewrite size_union by set_solver. rewrite size_singleton. lia.
    + assert (X ∖ {[top]} = X) as <- by set_solver. lia.
Qed.

Lemma frame_ids_bounded {A : Type} (m : gmap Z A) :
  (∀ f x, m !! f = Some x → is_frame_id f) → Z.of_nat (size m) <= 2 ^ 32.
Proof.
  intros Hkeys. rewrite <-size_dom.
  assert (size (dom m) ≤ Z.to_nat (2 ^ 32))%nat as Hle; [|lia].
  apply (size_bounded_gset _ (- 2 ^ 31)). intros f [x Hx]%elem_of_dom.
  apply Hkeys in Hx. unfold is_frame_id in Hx. lia.
Qed.

(** The contribution of one node to the count. *)
Definition counts (node : option LRUKNode) : nat :=
  match node with
  | Some node => if is_evictable node then 1 else 0
  | None => 0
  end.

Lemma evictable_count_delete (store : gmap Z LRUKNode) (f : Z) :
  evictable_count store = (evictable_count (delete f store) + counts (store !! f))%nat.
Proof.
  unfold evictable_count, counts. rewrite map_filter_delete, map_size_delete.
  destruct (store !! f) as [node|] eqn:Hf.
  - destruct (is_evictable node) eqn:Hev.
    + rewrite (map_lookup_filter_Some_2 _ _ _ node) by done.
      assert (size (filter (λ kv, is_evictable kv.2 = true) store) ≠ 0)%nat.
      { apply map_size_non_empty_iff. intros Hempty.
        assert (filter (λ kv : Z * LRUKNode, is_evictable kv.2 = true) store !! f = Some node) as Hl
          by by apply map_lookup_filter_Some_2.
        by rewrite Hempty, lookup_empty in Hl. }
      simpl. lia.
    + assert (filter (λ kv : Z * LRUKNode, is_evictable kv.2 = true) store !! f = None) as ->.
      { apply map_lookup_filter_None. right. intros x Hx. simpl. congruence. }
      simpl. lia.
  - assert (filter (λ kv : Z * LRUKNode, is_evictable kv.2 = true) store !! f = None) as ->.
    { apply map_lookup_filter_None. by left. }
    simpl. lia.
Qed.

Lemma evictable_count_insert (store : gmap Z LRUKNode) (f : Z) (node : LRUKNode) :
  evictable_count (<[f := node]> store)
  = (evictable_count (delete f store) + counts (Some node))%nat.
Proof.
  rewrite (evictable_count_delete (<[f := node]> store) f).
  by rewrite delete_insert_eq, lookup_insert_eq.
Qed.

Lemma evictable_count_size (store : gmap Z LRUKNode) :
  (evictable_count store ≤ size store)%nat.
Proof.
  unfold evictable_count. rewrite <-!size_dom. apply subseteq_size.
  intros f [x Hx]%elem_of_dom. apply map_lookup_filter_Some in Hx as [Hx _].
  apply elem_of_dom. eauto.
Qed.

Lemma counted_bound (s : LRUKReplacer) :
  counted s → 0 <= curr_size_ s <= 2 ^ 32.
Proof.
  intros [Hsize Hkeys]. rewrite Hsize.
  pose proof (evictable_count_size (node_store_ s)).
  pose proof (frame_ids_bounded _ Hkeys). lia.
Qed.

(** ** Preservation of well-formedness *)

Lemma wf_new (num_frames k : Z) : wf (LRUKReplacer_new num_frames k).
Proof.
  constructor; simpl; try (intros ??; rewrite lookup_empty; done);
    try (intros ???; rewrite lookup_empty; done);
    try (intros ?? ?%elem_of_nil; done); try constructor.
Qed.

Lemma wf_with_curr_size_ (v : Z) (s : LRUKReplacer) : wf s → wf (with_curr_size_ v s).
Proof. intros []. by constructor. Qed.

Lemma wf_with_current_timestamp_ (v : Z) (s : LRUKReplacer) :
  wf s → wf (with_current_timestamp_ v s).
Proof. intros []. by constructor. Qed.

(** Replacing the node of a tracked frame by one that belongs to the same
    list. *)
Lemma wf_update_node (s : LRUKReplacer) (f : Z) (node node' : LRUKNode) :
  wf s → node_store_ s !! f = Some node →
  fid node' = f → history_size node' <= k_ s →
  (history_size node' < k_ s ↔ history_size node < k_ s) →
  wf (with_node_store_ (<[f := node']> (node_store_ s)) s).
Proof.
  intros Hwf Hf Hfid Hle Hiff.
  pose proof (wf_node s Hwf f node Hf) as [_ Hle0].
  constructor; simpl; try apply Hwf.
  - intros f0 n0 [[<- <-]|[Hne H0]]%lookup_insert_Some; [done|].
    by apply (wf_node s Hwf).
  - intros it p Hin. destruct (wf_fifo s Hwf it p Hin) as (n0 & Hp & Hlt & Hit).
    destruct (decide (p = f)) as [->|Hne].
    + exists node'. rewrite lookup_insert_eq. simplify_eq. naive_solver.
    + exists n0. by rewrite lookup_insert_ne.
  - intros it p Hin. destruct (wf_lru s Hwf it p Hin) as (n0 & Hp & Hlt & Hit).
    destruct (decide (p = f)) as [->|Hne].
    + exists node'. rewrite lookup_insert_eq. simplify_eq.
      split_and!; [done|lia|done].
    + exists n0. by rewrite lookup_insert_ne.
  - intros f0 n0 [[<- <-]|[Hne H0]]%lookup_insert_Some Hlt.
    + apply (wf_short s Hwf f node Hf). by apply Hiff.
    + by apply (wf_short s Hwf f0 n0).
  - intros f0 n0 [[<- <-]|[Hne H0]]%lookup_insert_Some Hlt.
    + apply (wf_full s Hwf f node Hf). lia.
    + by apply (wf_full s Hwf f0 n0).
  - intros f0 n0 [[<- <-]|[Hne H0]]%lookup_insert_Some.
    + by apply (wf_has_fifo_iter s Hwf f node).
    + by apply (wf_has_fifo_iter s Hwf f0 n0).
Qed.

Lemma wf_SetEvictable (frame_id : Z) (set_evictable : bool) (s : LRUKReplacer) :
  wf s → wf (SetEvictable frame_id set_evictable s).
Proof.
  intros Hwf. unfold SetEvictable.
  destruct (node_store_ s !! frame_id) as [node|] eqn:Hf; [|done].
  pose proof (wf_node s Hwf _ _ Hf) as [Hfid Hle].
  assert (∀ v, wf (with_node_store_
    (<[frame_id := set_is_evictable set_evictable node]> (node_store_ s))
    (with_curr_size_ v s))) as Hupd.
  { intros v.
    apply (wf_update_node (with_curr_size_ v s) frame_id node); try done.
    by apply wf_with_curr_size_. }
  destruct (is_evictable node && negb set_evictable); [apply Hupd|].
  destruct (negb (is_evictable node) && set_evictable); [apply Hupd|].
  apply (wf_update_node s frame_id node); done.
Qed.

(** *** [Evict] *)

(** The state after the victim [e] left the list [l1 ++ e :: l2]. *)
Definition evicted_fifo (l1 l2 : list element) (e : element) (s : LRUKReplacer) : LRUKReplacer :=
  let s1 := with_node_store_ (delete (elem_ptr e) (node_store_ s)) s in
  let s2 := with_fifo_list_ (l1 ++ l2) s1 in
  with_curr_size_ (SizeT.decr (curr_size_ s2)) s2.

Definition evicted_lru (l1 l2 : list element) (e : element) (s : LRUKReplacer) : LRUKReplacer :=
  let s1 := with_node_store_ (delete (elem_ptr e) (node_store_ s)) s in
  let s2 := with_lru_list_ (l1 ++ l2) s1 in
  with_curr_size_ (SizeT.decr (curr_size_ s2)) s2.

(** What a call of [Evict] that returns does. *)
Inductive Evict_spec (s : LRUKReplacer) : option Z → LRUKReplacer → Prop :=
| Evict_fifo_none :
    fifo_list_ s ≠ [] → Forall (pinned (node_store_ s)) (fifo_list_ s) →
    Evict_spec s None s
| Evict_fifo_victim l1 e l2 node :
    fifo_list_ s = l1 ++ e :: l2 →
    node_store_ s !! elem_ptr e = Some node → is_evictable node = true →
    Forall (pinned (node_store_ s)) l2 →
    Evict_spec s (Some (elem_ptr e)) (evicted_fifo l1 l2 e s)
| Evict_lru_none :
    fifo_list_ s = [] → Forall (pinned (node_store_ s)) (lru_list_ s) →
    Evict_spec s None s
| Evict_lru_victim l1 e l2 node :
    fifo_list_ s = [] → lru_list_ s = l1 ++ e :: l2 →
    node_store_ s !! elem_ptr e = Some node → is_evictable node = true →
    Forall (pinned (node_store_ s)) l2 →
    Evict_spec s (Some (elem_ptr e)) (evicted_lru l1 l2 e s).

Lemma length_pos_nonempty {A : Type} (l : list A) :
  (0 <? Z.of_nat (length l)) = true ↔ l ≠ [].
Proof. destruct l; simpl; split; (done || lia || intros; lia). Qed.

Lemma length_pos_empty {A : Type} (l : list A) :
  (0 <? Z.of_nat (length l)) = false ↔ l = [].
Proof. destruct l; simpl; split; (done || lia || intros; lia). Qed.

Lemma Evict_Ok (s s' : LRUKReplacer) (r : option Z) :
  wf s → Evict s = Ok (r, s') → Evict_spec s r s'.
Proof.
  intros Hwf. unfold Evict.
  destruct (0 <? Z.of_nat (length (fifo_list_ s))) eqn:Hfifo.
  - apply length_pos_nonempty in Hfifo. intros H. ok_inv.
    destruct a as [e|]; ok_inv.
    + apply first_evictable_reverse_Some in Ha as (l1 & l2 & node & Hl & Hn & Hev & Hp).
      simpl in Ha1. unfold deref in Ha0. simplify_eq.
      pose proof (wf_node s Hwf _ _ Hn) as [-> _].
      rewrite Hl, list_erase_middle in Ha1.
      * simplify_eq. by eapply Evict_fifo_victim.
      * pose proof (wf_fifo_iters s Hwf) as Hnd.
        rewrite Hl, iters_middle in Hnd. apply NoDup_middle in Hnd as [Hnin _].
        set_solver.
    + simplify_eq. apply Evict_fifo_none; [done|].
      by apply first_evictable_reverse_None.
  - apply length_pos_empty in Hfifo.
    destruct (0 <? Z.of_nat (length (lru_list_ s))) eqn:Hlru.
    + intros H. ok_inv. destruct a as [e|]; ok_inv.
      * apply first_evictable_reverse_Some in Ha as (l1 & l2 & node & Hl & Hn & Hev & Hp).
        simpl in Ha1. unfold deref in Ha0. simplify_eq.
        pose proof (wf_node s Hwf _ _ Hn) as [-> _].
        rewrite Hl, list_erase_middle in Ha1.
        -- simplify_eq. by eapply Evict_lru_victim.
        -- pose proof (wf_lru_iters s Hwf) as Hnd.
           rewrite Hl, iters_middle in Hnd. apply NoDup_middle in Hnd as [Hnin _].
           set_solver.
      * simplify_eq. apply Evict_lru_none; [done|].
        by apply first_evictable_reverse_None.
    + apply length_pos_empty in Hlru. intros [= <- <-].
      apply Evict_lru_none; [done|]. rewrite Hlru. constructor.
Qed.

Lemma wf_evicted_fifo (s : LRUKReplacer) (l1 l2 : list element) (e : element) :
  wf s → fifo_list_ s = l1 ++ e :: l2 → wf (evicted_fifo l1 l2 e s).
Proof.
  intros Hwf Hl. apply wf_with_curr_size_.
  pose proof (wf_fifo_ptrs s Hwf) as Hptrs.
  rewrite Hl, ptrs_middle in Hptrs. apply NoDup_middle in Hptrs as [Hnin Hptrs].
  rewrite <-ptrs_app in Hnin, Hptrs.
  pose proof (wf_fifo_iters s Hwf) as Hiters.
  rewrite Hl, iters_middle in Hiters. apply NoDup_middle in Hiters as [_ Hiters].
  rewrite <-iters_app in Hiters.
  destruct e as [ite pe]. simpl in *.
  destruct (wf_fifo s Hwf ite pe) as (ne & Hne & Hlte & _);
    [rewrite Hl; set_solver|].
  constructor; simpl; try apply Hwf; try done.
  - intros f node [Hf Hn]%lookup_delete_Some. by apply (wf_node s Hwf).
  - intros it p Hin.
    destruct (wf_fifo s Hwf it p) as (n0 & Hp & Hlt & Hit); [rewrite Hl; set_solver|].
    exists n0. split_and!; try done. rewrite lookup_delete_ne; [done|].
    intros <-. apply Hnin. apply elem_of_ptrs. eauto.
  - intros it p Hin.
    destruct (wf_lru s Hwf it p Hin) as (n0 & Hp & Hlt & Hit).
    exists n0. split_and!; try done. rewrite lookup_delete_ne; [done|].
    intros <-. simplify_eq. lia.
  - intros f node [Hf Hn]%lookup_delete_Some Hlt.
    pose proof (wf_short s Hwf f node Hn Hlt) as Hin.
    rewrite Hl, ptrs_middle in Hin. rewrite ptrs_app. set_solver.
  - intros f node [Hf Hn]%lookup_delete_Some. by apply (wf_full s Hwf f node).
  - intros f node [Hf Hn]%lookup_delete_Some. by apply (wf_has_fifo_iter s Hwf f node).
Qed.

Lemma wf_evicted_lru (s : LRUKReplacer) (l1 l2 : list element) (e : element) :
  wf s → lru_list_ s = l1 ++ e :: l2 → wf (evicted_lru l1 l2 e s).
Proof.
  intros Hwf Hl. apply wf_with_curr_size_.
  pose proof (wf_lru_ptrs s Hwf) as Hptrs.
  rewrite Hl, ptrs_middle in Hptrs. apply NoDup_middle in Hptrs as [Hnin Hptrs].
  rewrite <-ptrs_app in Hnin, Hptrs.
  pose proof (wf_lru_iters s Hwf) as Hiters.
  rewrite Hl, iters_middle in Hiters. apply NoDup_middle in Hiters as [_ Hiters].
  rewrite <-iters_app in Hiters.
  destruct e as [ite pe]. simpl in *.
  destruct (wf_lru s Hwf ite pe) as (ne & Hne & Hlte & _);
    [rewrite Hl; set_solver|].
  constructor; simpl; try apply Hwf; try done.
  - intros f node [Hf Hn]%lookup_delete_Some. by apply (wf_node s Hwf).
  - intros it p Hin.
    destruct (wf_fifo s Hwf it p Hin) as (n0 & Hp & Hlt & Hit).
    exists n0. split_and!; try done. rewrite lookup_delete_ne; [done|].
    intros <-. simplify_eq. lia.
  - intros it p Hin.
    destruct (wf_lru s Hwf it p) as (n0 & Hp & Hlt & Hit); [rewrite Hl; set_solver|].
    exists n0. split_and!; try done. rewrite lookup_delete_ne; [done|].
    intros <-. apply Hnin. apply elem_of_ptrs. eauto.
  - intros f node [Hf Hn]%lookup_delete_Some. by apply (wf_short s Hwf f node).
  - intros f node [Hf Hn]%lookup_delete_Some Hlt.
    pose proof (wf_full s Hwf f node Hn Hlt) as Hin.
    rewrite Hl, ptrs_middle in Hin. rewrite ptrs_app. set_solver.
  - intros f node [Hf Hn]%lookup_delete_Some. by apply (wf_has_fifo_iter s Hwf f node).
Qed.

Lemma wf_Evict (s s' : LRUKReplacer) (r : option Z) :
  wf s → Evict s = Ok (r, s') → wf s'.
Proof.
  intros Hwf H. destruct (Evict_Ok s s' r Hwf H);
    auto using wf_evicted_fifo, wf_evicted_lru.
Qed.

(** [Evict] never leaves defined behaviour in a well-formed state. *)
Lemma Evict_defined (s : LRUKReplacer) :
  wf s → ∃ r s', Evict s = Ok (r, s').
Proof.
  intros Hwf.
  assert (∀ l, (∀ it p, (it, p) ∈ l → is_Some (node_store_ s !! p)) →
    ∃ r, first_evictable (node_store_ s) (reverse l) = Ok r) as Hscan.
  { intros l Hl. apply first_evictable_live, Forall_reverse, Forall_forall.
    intros [it p] Hin. by apply (Hl it p). }
  assert (∀ l e, NoDup (iters l) →
    first_evictable (node_store_ s) (reverse l) = Ok (Some e) →
    ∃ node l', node_store_ s !! elem_ptr e = Some node ∧
      list_erase (elem_iter e) l = Some l') as Hfound.
  { intros l e Hnd (l1 & l2 & node & -> & Hn & _)%first_evictable_reverse_Some.
    exists node, (l1 ++ l2). split; [done|]. apply list_erase_middle.
    rewrite iters_middle in Hnd. apply NoDup_middle in Hnd. set_solver. }
  unfold Evict. destruct (0 <? Z.of_nat (length (fifo_list_ s))).
  - destruct (Hscan (fifo_list_ s)) as [[e|] Hr].
    { intros it p Hin. destruct (wf_fifo s Hwf it p Hin) as (? & -> & _). eauto. }
    + destruct (Hfound _ _ (wf_fifo_iters s Hwf) Hr) as (node & l' & Hn & Hl').
      rewrite Hr. simpl. unfold deref. rewrite Hn. simpl. rewrite Hl'. simpl. eauto.
    + rewrite Hr. simpl. eauto.
  - destruct (0 <? Z.of_nat (length (lru_list_ s))); [|eauto].
    destruct (Hscan (lru_list_ s)) as [[e|] Hr].
    { intros it p Hin. destruct (wf_lru s Hwf it p Hin) as (? & -> & _). eauto. }
    + destruct (Hfound _ _ (wf_lru_iters s Hwf) Hr) as (node & l' & Hn & Hl').
      rewrite Hr. simpl. unfold deref. rewrite Hn. simpl. rewrite Hl'. simpl. eauto.
    + rewrite Hr. simpl. eauto.
Qed.

(** *** [Remove] *)

(** The state after the frame [f] left [fifo_list_ = l1 ++ (it, f) :: l2]. *)
Definition removed (l1 l2 : list element) (f : Z) (s : LRUKReplacer) : LRUKReplacer :=
  let s1 := with_node_store_ (delete f (node_store_ s)) s in
  let s2 := with_fifo_list_ (l1 ++ l2) s1 in
  let s3 := with_fid_to_fifo_iter_ (delete f (fid_to_fifo_iter_ s2)) s2 in
  with_curr_size_ (SizeT.decr (curr_size_ s3)) s3.

(** What a call of [Remove] that returns does: a removal that goes through
    is the removal of a frame of [fifo_list_] that has no entry in
    [fid_to_lru_iter_]. *)
Inductive Remove_spec (s : LRUKReplacer) (f : Z) : LRUKReplacer → Prop :=
| Remove_untracked :
    node_store_ s !! f = None → Remove_spec s f s
| Remove_pinned node :
    node_store_ s !! f = Some node → is_evictable node = false → Remove_spec s f s
| Remove_short node (l1 : list element) it (l2 : list element) :
    node_store_ s !! f = Some node → is_evictable node = true →
    history_size node < k_ s →
    fifo_list_ s = l1 ++ (it, f) :: l2 →
    fid_to_fifo_iter_ s !! f = Some it → fid_to_lru_iter_ s !! f = None →
    Remove_spec s f (removed l1 l2 f s).

(** An iterator recorded for [f] that a list holds is the iterator of the
    element of [f]. *)
Lemma fifo_erase_inv (s : LRUKReplacer) (f : Z) (it : iterator) (l' : list element) :
  wf s → fid_to_fifo_iter_ s !! f = Some it → list_erase it (fifo_list_ s) = Some l' →
  ∃ l1 l2, fifo_list_ s = l1 ++ (it, f) :: l2 ∧ l' = l1 ++ l2.
Proof.
  intros Hwf Hit (l1 & [it' p] & l2 & Hl & -> & Hi)%list_erase_Some.
  simpl in Hi. subst it'. exists l1, l2. split; [|done].
  destruct (wf_fifo s Hwf it p) as (n0 & _ & _ & Hp); [rewrite Hl; set_solver|].
  by rewrite (wf_fifo_inj s Hwf _ _ _ Hit Hp).
Qed.

Lemma lru_erase_inv (s : LRUKReplacer) (f : Z) (it : iterator) (l' : list element) :
  wf s → fid_to_lru_iter_ s !! f = Some it → list_erase it (lru_list_ s) = Some l' →
  ∃ l1 l2, lru_list_ s = l1 ++ (it, f) :: l2 ∧ l' = l1 ++ l2.
Proof.
  intros Hwf Hit (l1 & [it' p] & l2 & Hl & -> & Hi)%list_erase_Some.
  simpl in Hi. subst it'. exists l1, l2. split; [|done].
  destruct (wf_lru s Hwf it p) as (n0 & _ & _ & Hp); [rewrite Hl; set_solver|].
  by rewrite (wf_lru_inj s Hwf _ _ _ Hit Hp).
Qed.

Lemma Remove_Ok (s s' : LRUKReplacer) (f : Z) :
  wf s → Remove f s = Ok s' → Remove_spec s f s'.
Proof.
  intros Hwf. unfold Remove.
  destruct (node_store_ s !! f) as [node|] eqn:Hf;
    [|intros [= <-]; by apply Remove_untracked].
  destruct (is_evictable node) eqn:Hev; simpl;
    [|intros [= <-]; by eapply Remove_pinned].
  destruct (wf_has_fifo_iter s Hwf f node Hf) as [it Hit]. rewrite Hit.
  intros H. apply bind_Ok in H as (s1 & Hs1 & H).
  apply bind_Ok in Hs1 as (fifo & Hfifo%defined_Ok & [= <-]).
  apply bind_Ok in H as (s2 & Hs2 & [= <-]). simpl in Hfifo, Hs2.
  destruct (fifo_erase_inv s f it fifo Hwf Hit Hfifo) as (l1 & l2 & Hl & ->).
  destruct (wf_fifo s Hwf it f) as (n0 & Hn0 & Hlt & _); [rewrite Hl; set_solver|].
  simplify_eq.
  destruct (fid_to_lru_iter_ s !! f) as [it2|] eqn:Hit2.
  - apply bind_Ok in Hs2 as (lru & Hlru%defined_Ok & _). simpl in Hlru.
    destruct (lru_erase_inv s f it2 lru Hwf Hit2 Hlru) as (l1' & l2' & Hl' & _).
    destruct (wf_lru s Hwf it2 f) as (n1 & Hn1 & Heq & _); [rewrite Hl'; set_solver|].
    simplify_eq. lia.
  - injection Hs2 as <-. by eapply Remove_short.
Qed.

(** The removal of a frame of [lru_list_] erases from [fifo_list_] through
    the iterator the frame had there before its promotion. *)
Lemma Remove_full_Undefined (s : LRUKReplacer) (f : Z) (node : LRUKNode) :
  wf s → node_store_ s !! f = Some node → is_evictable node = true →
  history_size node = k_ s → Remove f s = Undefined.
Proof.
  intros Hwf Hf Hev Hk. unfold Remove. rewrite Hf, Hev. simpl.
  destruct (wf_has_fifo_iter s Hwf f node Hf) as [it Hit]. rewrite Hit.
  destruct (list_erase it (fifo_list_ s)) as [l'|] eqn:Hl'; [|done].
  destruct (fifo_erase_inv s f it l' Hwf Hit Hl') as (l1 & l2 & Hl & ->).
  destruct (wf_fifo s Hwf it f) as (n0 & Hn0 & Hlt & _); [rewrite Hl; set_solver|].
  simplify_eq. lia.
Qed.

Lemma wf_removed (s : LRUKReplacer) (l1 l2 : list element) (it : iterator) (f : Z) :
  wf s → fifo_list_ s = l1 ++ (it, f) :: l2 → wf (removed l1 l2 f s).
Proof.
  intros Hwf Hl. apply wf_with_curr_size_.
  pose proof (wf_evicted_fifo s l1 l2 (it, f) Hwf Hl) as Hwf'.
  pose proof (wf_fifo_ptrs s Hwf) as Hptrs.
  rewrite Hl, ptrs_middle in Hptrs. apply NoDup_middle in Hptrs as [Hnin _].
  rewrite <-ptrs_app in Hnin. simpl in Hnin.
  constructor; simpl; try apply Hwf'.
  - intros it0 p Hin.
    destruct (wf_fifo _ Hwf' it0 p Hin) as (n0 & Hp & Hlt & Hit). simpl in *.
    exists n0. split_and!; try done. rewrite lookup_delete_ne; [done|].
    intros <-. apply Hnin, elem_of_ptrs. eauto.
  - intros f0 it0 [_ H0]%lookup_delete_Some. by apply (wf_fifo_fresh s Hwf f0).
  - intros f1 f2 it0 [_ H1]%lookup_delete_Some [_ H2]%lookup_delete_Some.
    by apply (wf_fifo_inj s Hwf f1 f2 it0).
  - intros f0 node [Hne Hf0]%lookup_delete_Some.
    rewrite lookup_delete_ne by done. by apply (wf_has_fifo_iter s Hwf f0 node).
Qed.

Lemma wf_Remove (s s' : LRUKReplacer) (f : Z) :
  wf s → Remove f s = Ok s' → wf s'.
Proof.
  intros Hwf H. destruct (Remove_Ok s s' f Hwf H); eauto using wf_removed.
Qed.

(** *** [RecordAccess] *)

(** [RecordAccess] from line 101 on: the access of a frame that has a node. *)
Definition touch (frame_id : Z) (s : LRUKReplacer) : outcome LRUKReplacer :=
  node ← defined (deref (node_store_ s) frame_id);
  let node := set_history (current_timestamp_ s :: history node) node in
  if Z.of_nat (length (history node)) >? k_ s then
    let node := set_history (pop_back_while (length (history node)) (k_ s) (history node)) node in
    let s := with_node_store_ (<[frame_id := node]> (node_store_ s)) s in
    iter ← defined (iter_at (fid_to_lru_iter_ s) frame_id);
    lru ← defined (list_erase iter (lru_list_ s));
    let new_iter := next_iter_ s in
    lru ← insert_before_smaller (node_store_ s) (history node) (new_iter, frame_id) lru;
    let s := with_next_iter_ (S new_iter) (with_lru_list_ lru s) in
    let s := with_fid_to_lru_iter_ (<[frame_id := new_iter]> (fid_to_lru_iter_ s)) s in
    Ok (with_current_timestamp_ (SizeT.incr (current_timestamp_ s)) s)
  else if Z.of_nat (length (history node)) =? k_ s then
    let s := with_node_store_ (<[frame_id := node]> (node_store_ s)) s in
    iter ← defined (iter_at (fid_to_fifo_iter_ s) frame_id);
    fifo ← defined (list_erase iter (fifo_list_ s));
    let s := with_fifo_list_ fifo s in
    let new_iter := next_iter_ s in
    let s := with_next_iter_ (S new_iter) (with_lru_list_ ((new_iter, frame_id) :: lru_list_ s) s) in
    let s := with_fid_to_lru_iter_ (<[frame_id := new_iter]> (fid_to_lru_iter_ s)) s in
    Ok (with_current_timestamp_ (SizeT.incr (current_timestamp_ s)) s)
  else
    let s := with_node_store_ (<[frame_id := node]> (node_store_ s)) s in
    Ok (with_current_timestamp_ (SizeT.incr (current_timestamp_ s)) s).

Lemma RecordAccess_touch (frame_id : Z) (access_type : AccessType) (s : LRUKReplacer) :
  RecordAccess frame_id access_type s
  = BUSTUB_ASSERT (static_cast_size_t frame_id <=? replacer_size_ s)
      ≫= λ _, touch frame_id (enroll frame_id s).
Proof. reflexivity. Qed.

(** The history of a node after one more access at time [ts]. *)
Definition pushed (ts : Z) (node : LRUKNode) : LRUKNode :=
  set_history (ts :: history node) node.

(** The same, trimmed to the [k] most recent timestamps. *)
Definition trimmed (k ts : Z) (node : LRUKNode) : LRUKNode :=
  set_history (take (Z.to_nat k) (ts :: history node)) node.

(** The state after an access that leaves the frame in [fifo_list_]. *)
Definition stayed (node : LRUKNode) (f : Z) (s : LRUKReplacer) : LRUKReplacer :=
  mkLRUKReplacer (lru_list_ s) (fifo_list_ s)
    (<[f := pushed (current_timestamp_ s) node]> (node_store_ s))
    (fid_to_lru_iter_ s) (fid_to_fifo_iter_ s)
    (SizeT.incr (current_timestamp_ s)) (curr_size_ s) (replacer_size_ s) (k_ s)
    (next_iter_ s).

(** The state after an access that puts the frame into [lru_list_], between
    [l1] and [l2], with node [node'], and leaves [fifo] in [fifo_list_]. *)
Definition placed (node' : LRUKNode) (fifo l1 l2 : list element) (f : Z)
    (s : LRUKReplacer) : LRUKReplacer :=
  mkLRUKReplacer (l1 ++ (next_iter_ s, f) :: l2) fifo
    (<[f := node']> (node_store_ s))
    (<[f := next_iter_ s]> (fid_to_lru_iter_ s)) (fid_to_fifo_iter_ s)
    (SizeT.incr (current_timestamp_ s)) (curr_size_ s) (replacer_size_ s) (k_ s)
    (S (next_iter_ s)).

(** What an access that returns does to a state in which the frame has a
    node. *)
Inductive touch_spec (s : LRUKReplacer) (f : Z) : LRUKReplacer → Prop :=
| touch_stay node :
    node_store_ s !! f = Some node → history_size node + 1 < k_ s →
    touch_spec s f (stayed node f s)
| touch_promote node (l1 : list element) it (l2 : list element) :
    node_store_ s !! f = Some node → history_size node + 1 = k_ s →
    fifo_list_ s = l1 ++ (it, f) :: l2 →
    touch_spec s f
      (placed (pushed (current_timestamp_ s) node) (l1 ++ l2) [] (lru_list_ s) f s)
| touch_reinsert node (l1 : list element) it (l2 l1' l2' : list element) :
    node_store_ s !! f = Some node → history_size node = k_ s →
    lru_list_ s = l1 ++ (it, f) :: l2 → l1 ++ l2 = l1' ++ l2' →
    touch_spec s f
      (placed (trimmed (k_ s) (current_timestamp_ s) node) (fifo_list_ s) l1' l2' f s).

Lemma touch_Ok (s s' : LRUKReplacer) (f : Z) :
  wf s → 0 <= k_ s → touch f s = Ok s' → touch_spec s f s'.
Proof.
  intros Hwf Hk. unfold touch. intros H.
  apply bind_Ok in H as (node & Hf%defined_Ok & H). unfold deref in Hf.
  pose proof (wf_node s Hwf f node Hf) as [Hfid Hle]. unfold history_size in Hle.
  cbn [history set_history length] in H.
  destruct (Z.gtb_spec (Z.of_nat (S (length (history node)))) (k_ s)) as [Hgt|Hngt].
  - rewrite pop_back_while_take in H by (simpl; lia).
    apply bind_Ok in H as (it & Hit%defined_Ok & H).
    apply bind_Ok in H as (lru & Hlru%defined_Ok & H).
    apply bind_Ok in H as (lru' & Hlru' & [= <-]).
    unfold iter_at in Hit. simpl in Hit, Hlru, Hlru'.
    destruct (lru_erase_inv s f it lru Hwf Hit Hlru) as (l1 & l2 & Hl & ->).
    apply insert_before_smaller_Ok in Hlru' as (l1' & l2' & Hsplit & ->).
    destruct (wf_lru s Hwf it f) as (n0 & Hn0 & Heq & _); [rewrite Hl; set_solver|].
    rewrite Hf in Hn0. injection Hn0 as <-.
    exact (touch_reinsert s f node l1 it l2 l1' l2' Hf Heq Hl Hsplit).
  - destruct (Z.eqb_spec (Z.of_nat (S (length (history node)))) (k_ s)) as [Heq|Hne].
    + apply bind_Ok in H as (it & Hit%defined_Ok & H).
      apply bind_Ok in H as (fifo & Hfifo%defined_Ok & [= <-]).
      unfold iter_at in Hit. simpl in Hit, Hfifo.
      destruct (fifo_erase_inv s f it fifo Hwf Hit Hfifo) as (l1 & l2 & Hl & ->).
      refine (touch_promote s f node l1 it l2 Hf _ Hl). unfold history_size. lia.
    + injection H as <-. refine (touch_stay s f node Hf _).
      unfold history_size. lia.
Qed.

Lemma wf_stayed (s : LRUKReplacer) (f : Z) (node : LRUKNode) :
  wf s → node_store_ s !! f = Some node → history_size node + 1 < k_ s →
  wf (stayed node f s).
Proof.
  intros Hwf Hf Hlt. pose proof (wf_node s Hwf f node Hf) as [Hfid Hle].
  refine (wf_with_current_timestamp_ (SizeT.incr (current_timestamp_ s))
    (with_node_store_ (<[f := pushed (current_timestamp_ s) node]> (node_store_ s)) s) _).
  apply (wf_update_node s f node); try done.
  - unfold history_size, pushed in *. simpl. lia.
  - unfold history_size, pushed in *. simpl. lia.
Qed.

Lemma wf_placed (s : LRUKReplacer) (f : Z) (node node' : LRUKNode)
    (fifo l1 l2 : list element) :
  wf s → node_store_ s !! f = Some node →
  fid node' = f → history_size node' = k_ s →
  (∀ e, e ∈ fifo ↔ e ∈ fifo_list_ s ∧ elem_ptr e ≠ f) →
  NoDup (ptrs fifo) → NoDup (iters fifo) →
  (∀ e, e ∈ l1 ++ l2 ↔ e ∈ lru_list_ s ∧ elem_ptr e ≠ f) →
  NoDup (ptrs (l1 ++ l2)) → NoDup (iters (l1 ++ l2)) →
  wf (placed node' fifo l1 l2 f s).
Proof.
  intros Hwf Hf Hfid Hsize Hfifo Hfp Hfi Hlru Hlp Hli.
  constructor; simpl; try done.
  - intros f0 n0 [[<- <-]|[Hne H0]]%lookup_insert_Some; [split; [done|lia]|].
    by apply (wf_node s Hwf).
  - intros it p [Hin Hne]%Hfifo. simpl in Hne.
    destruct (wf_fifo s Hwf it p Hin) as (n0 & Hp & Hlt & Hit).
    exists n0. by rewrite lookup_insert_ne.
  - intros it p [Heq|Hin]%elem_of_middle.
    + injection Heq as -> ->. exists node'. by rewrite !lookup_insert_eq.
    + apply Hlru in Hin as [Hin Hne]. simpl in Hne.
      destruct (wf_lru s Hwf it p Hin) as (n0 & Hp & Hlt & Hit).
      exists n0. by rewrite !lookup_insert_ne.
  - rewrite ptrs_middle. apply NoDup_middle. rewrite <-ptrs_app. split; [|done].
    intros [it Hin]%elem_of_ptrs. apply Hlru in Hin as [_ Hne]. done.
  - rewrite iters_middle. apply NoDup_middle. rewrite <-iters_app. split; [|done].
    intros [p Hin]%elem_of_iters. apply Hlru in Hin as [Hin _].
    destruct (wf_lru s Hwf _ p Hin) as (n0 & _ & _ & Hit).
    apply (wf_lru_fresh s Hwf) in Hit. simpl in Hit. lia.
  - intros f0 n0 [[<- <-]|[Hne H0]]%lookup_insert_Some Hlt; [lia|].
    apply (wf_short s Hwf f0 n0 H0) in Hlt. apply elem_of_ptrs in Hlt as [it Hin].
    apply elem_of_ptrs. exists it. by apply Hfifo.
  - intros f0 n0 [[<- <-]|[Hne H0]]%lookup_insert_Some Heq.
    + rewrite ptrs_middle. set_solver.
    + apply (wf_full s Hwf f0 n0 H0) in Heq. apply elem_of_ptrs in Heq as [it Hin].
      apply elem_of_ptrs. exists it. apply elem_of_middle. right. by apply Hlru.
  - intros f0 it Hit. apply (wf_fifo_fresh s Hwf) in Hit. lia.
  - intros f0 it [[<- <-]|[Hne Hit]]%lookup_insert_Some; [lia|].
    apply (wf_lru_fresh s Hwf) in Hit. lia.
  - apply Hwf.
  - intros f1 f2 it [[<- <-]|[Hne1 H1]]%lookup_insert_Some
      [[<- Heq]|[Hne2 H2]]%lookup_insert_Some; try done.
    + apply (wf_lru_fresh s Hwf) in H2. lia.
    + subst it. apply (wf_lru_fresh s Hwf) in H1. lia.
    + by apply (wf_lru_inj s Hwf f1 f2 it).
  - intros f0 n0 [[<- <-]|[Hne H0]]%lookup_insert_Some.
    + by apply (wf_has_fifo_iter s Hwf f node).
    + by apply (wf_has_fifo_iter s Hwf f0 n0).
Qed.

Lemma elem_of_remove_middle (l1 l2 : list element) (it : iterator) (f : Z) :
  NoDup (ptrs (l1 ++ (it, f) :: l2)) →
  ∀ e, e ∈ l1 ++ l2 ↔ e ∈ l1 ++ (it, f) :: l2 ∧ elem_ptr e ≠ f.
Proof.
  rewrite ptrs_middle. intros [Hnin _]%NoDup_middle. rewrite <-ptrs_app in Hnin.
  intros [it' p]. rewrite elem_of_middle. simpl in *. split.
  - intros Hin. split; [by right|]. intros ->. apply Hnin, elem_of_ptrs. eauto.
  - intros [[Heq|Hin] Hne]; [|done]. by injection Heq as -> ->.
Qed.

Lemma wf_enroll (f : Z) (s : LRUKReplacer) : wf s → 1 <= k_ s → wf (enroll f s).
Proof.
  intros Hwf Hk. unfold enroll.
  destruct (node_store_ s !! f) as [node|] eqn:Hf; [done|].
  assert (∀ it p, (it, p) ∈ fifo_list_ s → p ≠ f) as Hfifo.
  { intros it p Hin ->. destruct (wf_fifo s Hwf it f Hin) as (? & ? & _). congruence. }
  assert (∀ it p, (it, p) ∈ lru_list_ s → p ≠ f) as Hlru.
  { intros it p Hin ->. destruct (wf_lru s Hwf it f Hin) as (? & ? & _). congruence. }
  constructor; simpl.
  - intros f0 n0 [[<- <-]|[Hne H0]]%lookup_insert_Some.
    + unfold history_size. simpl. split; [done|lia].
    + by apply (wf_node s Hwf).
  - intros it p [Heq|Hin]%elem_of_cons.
    + injection Heq as -> ->. exists (LRUKNode_new f (k_ s)).
      rewrite !lookup_insert_eq. unfold history_size. simpl. split_and!; [done|lia|done].
    + destruct (wf_fifo s Hwf it p Hin) as (n0 & Hp & Hlt & Hit).
      exists n0. rewrite !lookup_insert_ne by (symmetry; eauto). done.
  - intros it p Hin. destruct (wf_lru s Hwf it p Hin) as (n0 & Hp & Hlt & Hit).
    exists n0. rewrite !lookup_insert_ne by (symmetry; eauto). done.
  - apply NoDup_cons. split; [|apply Hwf].
    intros [it Hin]%elem_of_ptrs. by eapply Hfifo.
  - apply Hwf.
  - apply NoDup_cons. split; [|apply Hwf].
    intros [p Hin]%elem_of_iters.
    destruct (wf_fifo s Hwf _ p Hin) as (n0 & _ & _ & Hit).
    apply (wf_fifo_fresh s Hwf) in Hit. lia.
  - apply Hwf.
  - intros f0 n0 [[<- <-]|[Hne H0]]%lookup_insert_Some Hlt.
    + set_solver.
    + apply elem_of_cons. right. by apply (wf_short s Hwf f0 n0).
  - intros f0 n0 [[<- <-]|[Hne H0]]%lookup_insert_Some Heq.
    + unfold history_size in Heq. simpl in Heq. lia.
    + by apply (wf_full s Hwf f0 n0).
  - intros f0 it [[<- <-]|[Hne Hit]]%lookup_insert_Some; [lia|].
    apply (wf_fifo_fresh s Hwf) in Hit. lia.
  - intros f0 it Hit. apply (wf_lru_fresh s Hwf) in Hit. lia.
  - intros f1 f2 it [[<- <-]|[Hne1 H1]]%lookup_insert_Some
      [[<- Heq]|[Hne2 H2]]%lookup_insert_Some; try done.
    + apply (wf_fifo_fresh s Hwf) in H2. lia.
    + subst it. apply (wf_fifo_fresh s Hwf) in H1. lia.
    + by apply (wf_fifo_inj s Hwf f1 f2 it).
  - apply Hwf.
  - intros f0 n0 [[<- <-]|[Hne H0]]%lookup_insert_Some.
    + rewrite lookup_insert_eq. eauto.
    + rewrite lookup_insert_ne by done. by apply (wf_has_fifo_iter s Hwf f0 n0).
Qed.

Lemma wf_touch_spec (s s' : LRUKReplacer) (f : Z) :
  wf s → 0 <= k_ s → touch_spec s f s' → wf s'.
Proof.
  intros Hwf Hk Hspec.
  destruct Hspec as [node Hf Hlt|node l1 it l2 Hf Heq Hl|node l1 it l2 l1' l2' Hf Heq Hl Hsplit].
  - by apply wf_stayed.
  - pose proof (wf_fifo_ptrs s Hwf) as Hptrs. pose proof (wf_fifo_iters s Hwf) as Hiters.
    rewrite Hl in Hptrs, Hiters.
    apply (wf_placed s f node); try done.
    + by apply (wf_node s Hwf f node).
    + unfold history_size, pushed in *. simpl. lia.
    + intros e. rewrite Hl. by apply elem_of_remove_middle.
    + rewrite ptrs_middle in Hptrs. apply NoDup_middle in Hptrs. rewrite ptrs_app. tauto.
    + rewrite iters_middle in Hiters. apply NoDup_middle in Hiters. rewrite iters_app. tauto.
    + intros [it' p]. simpl. split; [|tauto]. intros Hin. split; [done|]. intros ->.
      destruct (wf_lru s Hwf it' f Hin) as (n0 & Hn0 & Hsz & _). simplify_eq. lia.
    + apply Hwf.
    + apply Hwf.
  - pose proof (wf_lru_ptrs s Hwf) as Hptrs. pose proof (wf_lru_iters s Hwf) as Hiters.
    rewrite Hl in Hptrs, Hiters.
    apply (wf_placed s f node); try done.
    + by apply (wf_node s Hwf f node).
    + unfold history_size, trimmed in *. simpl history. rewrite length_take.
      simpl length. lia.
    + intros [it' p]. simpl. split; [|tauto]. intros Hin. split; [done|]. intros ->.
      destruct (wf_fifo s Hwf it' f Hin) as (n0 & Hn0 & Hsz & _). simplify_eq. lia.
    + apply Hwf.
    + apply Hwf.
    + intros e. rewrite <-Hsplit, Hl. by apply elem_of_remove_middle.
    + rewrite ptrs_middle in Hptrs. apply NoDup_middle in Hptrs.
      rewrite <-Hsplit, ptrs_app. tauto.
    + rewrite iters_middle in Hiters. apply NoDup_middle in Hiters.
      rewrite <-Hsplit, iters_app. tauto.
Qed.

Lemma lookup_enroll (f : Z) (s : LRUKReplacer) :
  node_store_ (enroll f s) !! f
  = Some (default (LRUKNode_new f (k_ s)) (node_store_ s !! f)).
Proof.
  unfold enroll. destruct (node_store_ s !! f) as [node|] eqn:Hf; simpl; [done|].
  by rewrite lookup_insert_eq.
Qed.

Lemma k_enroll (f : Z) (s : LRUKReplacer) : k_ (enroll f s) = k_ s.
Proof. unfold enroll. by destruct (node_store_ s !! f). Qed.

(** What a call of [RecordAccess] that returns does. *)
Lemma RecordAccess_Ok (s s' : LRUKReplacer) (f : Z) (a : AccessType) :
  wf s → 1 <= k_ s → RecordAccess f a s = Ok s' →
  static_cast_size_t f <= replacer_size_ s ∧ touch_spec (enroll f s) f s'.
Proof.
  intros Hwf Hk. rewrite RecordAccess_touch. unfold BUSTUB_ASSERT.
  destruct (Z.leb_spec (static_cast_size_t f) (replacer_size_ s)) as [Hle|Hgt]; [|done].
  simpl. intros H. split; [done|].
  apply touch_Ok; [by apply wf_enroll| rewrite k_enroll; lia | done].
Qed.

Lemma wf_RecordAccess (s s' : LRUKReplacer) (f : Z) (a : AccessType) :
  wf s → 1 <= k_ s → RecordAccess f a s = Ok s' → wf s'.
Proof.
  intros Hwf Hk [_ H]%RecordAccess_Ok; [|done..].
  apply (wf_touch_spec (enroll f s) s' f); [by apply wf_enroll| rewrite k_enroll; lia | done].
Qed.

(** The access of a frame that has a node never leaves defined behaviour. *)
Lemma touch_defined (s : LRUKReplacer) (f : Z) :
  wf s → 1 <= k_ s → is_Some (node_store_ s !! f) → ∃ s', touch f s = Ok s'.
Proof.
  intros Hwf Hk [node Hf]. unfold touch, deref. rewrite Hf.
  pose proof (wf_node s Hwf f node Hf) as [Hfid Hle]. unfold history_size in Hle.
  cbn [defined mbind outcome_mbind outcome_bind history set_history length].
  destruct (Z.gtb_spec (Z.of_nat (S (length (history node)))) (k_ s)) as [Hgt|Hngt].
  - rewrite pop_back_while_take by (simpl; lia).
    pose proof (wf_full s Hwf f node Hf) as Hin. unfold history_size in Hin.
    apply elem_of_ptrs in Hin as [it Hin]; [|lia].
    destruct (wf_lru s Hwf it f Hin) as (_ & _ & _ & Hit).
    destruct (list_erase_elem_of it f _ Hin) as [lru Hlru].
    unfold iter_at. simpl. rewrite Hit. simpl. rewrite Hlru. simpl.
    match goal with
    | |- context [insert_before_smaller ?st ?h ?e lru] =>
        destruct (insert_before_smaller_defined st h e lru) as [lru' ->]
    end.
    + intros Hnil%(f_equal length). rewrite length_take in Hnil. simpl in Hnil. lia.
    + apply Forall_forall. intros [it' p] Hp. simpl.
      apply list_erase_Some in Hlru as (l1 & e & l2 & Hl & -> & _).
      destruct (wf_lru s Hwf it' p) as (n0 & Hn0 & Hsz & _); [rewrite Hl; set_solver|].
      destruct (decide (p = f)) as [->|Hne].
      * rewrite lookup_insert_eq. eexists. split; [done|]. simpl.
        intros Hnil%(f_equal length). rewrite length_take in Hnil. simpl in Hnil. lia.
      * rewrite lookup_insert_ne by done. exists n0. split; [done|].
        intros Hnil. unfold history_size in Hsz. rewrite Hnil in Hsz. simpl in Hsz. lia.
    + simpl. eauto.
  - destruct (Z.eqb_spec (Z.of_nat (S (length (history node)))) (k_ s)) as [Heq|Hne];
      [|eauto].
    pose proof (wf_short s Hwf f node Hf) as Hin. unfold history_size in Hin.
    apply elem_of_ptrs in Hin as [it Hin]; [|lia].
    destruct (wf_fifo s Hwf it f Hin) as (_ & _ & _ & Hit).
    destruct (list_erase_elem_of it f _ Hin) as [fifo Hfifo].
    unfold iter_at. simpl. rewrite Hit. simpl. rewrite Hfifo. simpl. eauto.
Qed.

(** An in-range [RecordAccess] proceeds normally in a well-formed state of a
    replacer with a history depth of at least one. *)
Lemma RecordAccess_defined (s : LRUKReplacer) (f : Z) (a : AccessType) :
  wf s → 1 <= k_ s → static_cast_size_t f <= replacer_size_ s →
  ∃ s', RecordAccess f a s = Ok s'.
Proof.
  intros Hwf Hk Hle. rewrite RecordAccess_touch. unfold BUSTUB_ASSERT.
  destruct (Z.leb_spec (static_cast_size_t f) (replacer_size_ s)); [|lia].
  simpl. apply touch_defined.
  - by apply wf_enroll.
  - by rewrite k_enroll.
  - rewrite lookup_enroll. eauto.
Qed.

(** With a history depth of zero no access returns: the frame would have to
    be erased from [lru_list_], which is empty. *)
Lemma RecordAccess_depth_zero (s s' : LRUKReplacer) (f : Z) (a : AccessType) :
  wf s → accessed s → k_ s <= 0 → RecordAccess f a s ≠ Ok s'.
Proof.
  intros Hwf Hacc Hk.
  assert (∀ f0, node_store_ s !! f0 = None) as Hempty.
  { intros f0. destruct (node_store_ s !! f0) as [n0|] eqn:H0; [|done].
    pose proof (wf_node s Hwf f0 n0 H0) as [_ Hle]. specialize (Hacc f0 n0 H0).
    unfold history_size in Hle. destruct (history n0); [done|simpl in Hle; lia]. }
  assert (lru_list_ s = []) as Hlru.
  { destruct (lru_list_ s) as [|[it p] l] eqn:Hl; [done|].
    destruct (wf_lru s Hwf it p) as (n0 & Hn0 & _); [rewrite Hl; set_solver|].
    by rewrite Hempty in Hn0. }
  rewrite RecordAccess_touch. unfold BUSTUB_ASSERT.
  destruct (static_cast_size_t f <=? replacer_size_ s); [|done].
  simpl. unfold enroll. rewrite Hempty. unfold touch, deref. simpl.
  rewrite lookup_insert_eq. simpl.
  destruct (Z.gtb_spec (Z.of_nat 1) (k_ s)); [|lia]. unfold iter_at. simpl.
  destruct (fid_to_lru_iter_ s !! f); simpl; [|done]. by rewrite Hlru.
Qed.

(** The effect of an access on the node store: the node of the frame gets
    the current timestamp in front of its history, cut to [k_] entries. *)
Lemma touch_spec_store (s s' : LRUKReplacer) (f : Z) :
  0 <= k_ s → touch_spec s f s' →
  ∃ node node', node_store_ s !! f = Some node ∧
    node_store_ s' = <[f := node']> (node_store_ s) ∧
    fid node' = fid node ∧ is_evictable node' = is_evictable node ∧
    history node' = take (Z.to_nat (k_ s)) (current_timestamp_ s :: history node) ∧
    current_timestamp_ s' = SizeT.incr (current_timestamp_ s) ∧
    curr_size_ s' = curr_size_ s ∧ k_ s' = k_ s ∧
    replacer_size_ s' = replacer_size_ s.
Proof.
  intros Hk Hspec.
  destruct Hspec as [node Hf Hlt|node l1 it l2 Hf Heq Hl|node l1 it l2 l1' l2' Hf Heq Hl Hsplit].
  - exists node, (pushed (current_timestamp_ s) node). split_and!; try done.
    simpl. unfold history_size in Hlt. rewrite take_ge; [done|]. simpl. lia.
  - exists node, (pushed (current_timestamp_ s) node). split_and!; try done.
    simpl. unfold history_size in Heq. rewrite take_ge; [done|]. simpl. lia.
  - exists node, (trimmed (k_ s) (current_timestamp_ s) node). by split_and!.
Qed.

Lemma RecordAccess_store (s s' : LRUKReplacer) (f : Z) (a : AccessType) :
  wf s → 1 <= k_ s → RecordAccess f a s = Ok s' →
  ∃ node', node_store_ s' = <[f := node']> (node_store_ s) ∧
    fid node' = f ∧
    is_evictable node' = default false (is_evictable <$> node_store_ s !! f) ∧
    history node' = take (Z.to_nat (k_ s))
      (current_timestamp_ s :: default [] (history <$> node_store_ s !! f)) ∧
    current_timestamp_ s' = SizeT.incr (current_timestamp_ s) ∧
    curr_size_ s' = curr_size_ s ∧ k_ s' = k_ s ∧
    replacer_size_ s' = replacer_size_ s.
Proof.
  intros Hwf Hk [_ H]%RecordAccess_Ok; [|done..].
  apply touch_spec_store in H as (node & node' & Hf & Hst & Hfid & Hev & Hh & Hts & Hsz & Hk' & Hr);
    [|rewrite k_enroll; lia].
  rewrite lookup_enroll in Hf. injection Hf as <-.
  exists node'. revert Hst Hfid Hev Hh Hts Hsz Hk' Hr. unfold enroll.
  destruct (node_store_ s !! f) as [n0|] eqn:Hn0; simpl.
  - intros. split_and!; try done. rewrite Hfid. by apply (wf_node s Hwf f n0).
  - rewrite insert_insert_eq. intros. by split_and!.
Qed.

(** ** Preservation of [accessed] and [counted] *)

Lemma accessed_SetEvictable (f : Z) (b : bool) (s : LRUKReplacer) :
  accessed s → accessed (SetEvictable f b s).
Proof.
  intros Hacc. unfold SetEvictable.
  destruct (node_store_ s !! f) as [node|] eqn:Hf; [|done].
  assert (∀ s0, node_store_ s0 = node_store_ s →
    accessed (with_node_store_ (<[f := set_is_evictable b node]> (node_store_ s0)) s0)) as Hupd.
  { intros s0 Hs0 f0 n0. simpl. rewrite Hs0.
    intros [[<- <-]|[Hne H0]]%lookup_insert_Some; simpl; eauto. }
  destruct (is_evictable node && negb b); [by apply Hupd|].
  destruct (negb (is_evictable node) && b); by apply Hupd.
Qed.

Lemma accessed_Evict (s s' : LRUKReplacer) (r : option Z) :
  wf s → accessed s → Evict s = Ok (r, s') → accessed s'.
Proof.
  intros Hwf Hacc H. destruct (Evict_Ok s s' r Hwf H); try done;
    intros f0 n0; simpl; intros [_ Hlk]%lookup_delete_Some; eauto.
Qed.

Lemma accessed_Remove (s s' : LRUKReplacer) (f : Z) :
  wf s → accessed s → Remove f s = Ok s' → accessed s'.
Proof.
  intros Hwf Hacc H. destruct (Remove_Ok s s' f Hwf H); try done;
    intros f0 n0; simpl; intros [_ Hlk]%lookup_delete_Some; eauto.
Qed.

Lemma accessed_RecordAccess (s s' : LRUKReplacer) (f : Z) (a : AccessType) :
  wf s → accessed s → 1 <= k_ s → RecordAccess f a s = Ok s' → accessed s'.
Proof.
  intros Hwf Hacc Hk (node' & Hst & _ & _ & Hh & _)%RecordAccess_store; [|done..].
  intros f0 n0. rewrite Hst. intros [[<- <-]|[Hne H0]]%lookup_insert_Some; [|eauto].
  rewrite Hh. intros Hnil%(f_equal length). rewrite length_take in Hnil.
  simpl in Hnil. lia.
Qed.

Lemma counted_SetEvictable (f : Z) (b : bool) (s : LRUKReplacer) :
  counted s → counted (SetEvictable f b s).
Proof.
  intros Hc. pose proof (counted_bound s Hc) as Hb. destruct Hc as [Hsize Hkeys].
  unfold SetEvictable. destruct (node_store_ s !! f) as [node|] eqn:Hf; [|done].
  pose proof (evictable_count_delete (node_store_ s) f) as Hold. rewrite Hf in Hold.
  pose proof (evictable_count_insert (node_store_ s) f (set_is_evictable b node)) as Hnew.
  assert (∀ f0 n0, <[f := set_is_evictable b node]> (node_store_ s) !! f0 = Some n0 →
    is_frame_id f0) as Hkeys'.
  { intros f0 n0 [[<- <-]|[Hne H0]]%lookup_insert_Some; eauto. }
  pose proof modulus_eq as Hmod. simpl in Hold, Hnew.
  destruct (is_evictable node) eqn:Hev, b; simpl; constructor; simpl; try done.
  - lia.
  - rewrite decr_small by lia. lia.
  - rewrite incr_small by lia. lia.
  - lia.
Qed.

Lemma counted_drop (s : LRUKReplacer) (f : Z) (node : LRUKNode) (s' : LRUKReplacer) :
  counted s → node_store_ s !! f = Some node → is_evictable node = true →
  node_store_ s' = delete f (node_store_ s) →
  curr_size_ s' = SizeT.decr (curr_size_ s) → counted s'.
Proof.
  intros Hc Hf Hev Hst Hsz. pose proof (counted_bound s Hc) as Hb.
  destruct Hc as [Hsize Hkeys].
  pose proof (evictable_count_delete (node_store_ s) f) as Hold.
  rewrite Hf in Hold. simpl in Hold. rewrite Hev in Hold.
  pose proof modulus_eq as Hmod.
  constructor.
  - rewrite Hsz, Hst. rewrite decr_small by lia. lia.
  - intros f0 n0. rewrite Hst. intros [_ H0]%lookup_delete_Some. eauto.
Qed.

Lemma counted_Evict (s s' : LRUKReplacer) (r : option Z) :
  wf s → counted s → Evict s = Ok (r, s') → counted s'.
Proof.
  intros Hwf Hc H. destruct (Evict_Ok s s' r Hwf H); try done;
    by eapply (counted_drop s (elem_ptr e)).
Qed.

Lemma counted_Remove (s s' : LRUKReplacer) (f : Z) :
  wf s → counted s → Remove f s = Ok s' → counted s'.
Proof.
  intros Hwf Hc H. destruct (Remove_Ok s s' f Hwf H); try done;
    by eapply (counted_drop s f).
Qed.

Lemma counted_RecordAccess (s s' : LRUKReplacer) (f : Z) (a : AccessType) :
  wf s → counted s → 1 <= k_ s → is_frame_id f →
  RecordAccess f a s = Ok s' → counted s'.
Proof.
  intros Hwf [Hsize Hkeys] Hk Hfid
    (node' & Hst & _ & Hev & _ & _ & Hsz & _)%RecordAccess_store; [|done..].
  pose proof (evictable_count_delete (node_store_ s) f) as Hold.
  pose proof (evictable_count_insert (node_store_ s) f node') as Hnew.
  constructor.
  - rewrite Hsz, Hst, Hsize, Hold, Hnew. do 2 f_equal. simpl. rewrite Hev.
    by destruct (node_store_ s !! f).
  - intros f0 n0. rewrite Hst. intros [[<- <-]|[Hne H0]]%lookup_insert_Some; eauto.
Qed.

(** ** Reachable states *)

(** A state the replacer constructed with [num_frames] and [k] reaches by
    calls that return. *)
Definition reachable (num_frames k : Z) (s : LRUKReplacer) : Prop :=
  ∃ ops, Forall valid_op ops ∧ run ops (LRUKReplacer_new num_frames k) = Ok s.

(** The same, by a run with fewer than [2^64] accesses: the logical clock
    has not wrapped. *)
Definition reachable_unwrapped (num_frames k : Z) (s : LRUKReplacer) : Prop :=
  ∃ ops, Forall valid_op ops ∧ accesses ops < SizeT.modulus ∧
    run ops (LRUKReplacer_new num_frames k) = Ok s.

Record inv (num_frames k : Z) (s : LRUKReplacer) : Prop := {
  inv_wf : wf s;
  inv_accessed : accessed s;
  inv_counted : counted s;
  inv_k : k_ s = k;
  inv_replacer_size : replacer_size_ s = num_frames
}.

Lemma inv_new (num_frames k : Z) : inv num_frames k (LRUKReplacer_new num_frames k).
Proof.
  constructor; [apply wf_new| | |done..].
  - intros f node. simpl. by rewrite lookup_empty.
  - constructor; simpl.
    + unfold evictable_count. by rewrite map_filter_empty, map_size_empty.
    + intros f node. by rewrite lookup_empty.
Qed.

Lemma SetEvictable_fields (f : Z) (b : bool) (s : LRUKReplacer) :
  k_ (SetEvictable f b s) = k_ s ∧
  replacer_size_ (SetEvictable f b s) = replacer_size_ s ∧
  current_timestamp_ (SetEvictable f b s) = current_timestamp_ s ∧
  fifo_list_ (SetEvictable f b s) = fifo_list_ s ∧
  lru_list_ (SetEvictable f b s) = lru_list_ s.
Proof.
  unfold SetEvictable. destruct (node_store_ s !! f) as [node|]; [|done].
  destruct (is_evictable node && negb b); [done|].
  by destruct (negb (is_evictable node) && b).
Qed.

Lemma inv_exec (num_frames k : Z) (o : op) (s s' : LRUKReplacer) :
  valid_op o → inv num_frames k s → exec o s = Ok s' → inv num_frames k s'.
Proof.
  intros Hvalid [Hwf Hacc Hc Hk Hr]. destruct o as [f a|f b| |f]; simpl.
  - intros H. destruct (Z.le_gt_cases 1 (k_ s)) as [Hk1|Hk0].
    + pose proof (RecordAccess_store s s' f a Hwf Hk1 H)
        as (_ & _ & _ & _ & _ & _ & _ & Hk' & Hr').
      constructor; try congruence.
      * by eapply wf_RecordAccess.
      * by eapply accessed_RecordAccess.
      * by eapply counted_RecordAccess.
    + exfalso. eapply RecordAccess_depth_zero; [done..| |done]. lia.
  - intros [= <-]. pose proof (SetEvictable_fields f b s) as (Hk' & Hr' & _).
    constructor; try congruence.
    + by apply wf_SetEvictable.
    + by apply accessed_SetEvictable.
    + by apply counted_SetEvictable.
  - intros H. apply bind_Ok in H as ([r s0] & Hev & [= <-]).
    constructor.
    + by eapply wf_Evict.
    + by eapply accessed_Evict.
    + by eapply counted_Evict.
    + by destruct (Evict_Ok s s0 r Hwf Hev).
    + by destruct (Evict_Ok s s0 r Hwf Hev).
  - intros H. constructor.
    + by eapply wf_Remove.
    + by eapply accessed_Remove.
    + by eapply counted_Remove.
    + by destruct (Remove_Ok s s' f Hwf H).
    + by destruct (Remove_Ok s s' f Hwf H).
Qed.

Lemma inv_run (num_frames k : Z) (ops : list op) (s s' : LRUKReplacer) :
  Forall valid_op ops → inv num_frames k s → run ops s = Ok s' → inv num_frames k s'.
Proof.
  intros Hvalid. revert s. induction Hvalid as [|o ops Ho _ IH]; intros s Hinv; simpl.
  - by intros [= <-].
  - intros H. apply bind_Ok in H as (s1 & Hs1 & H).
    apply (IH s1); [|done]. by apply (inv_exec num_frames k o s).
Qed.

Lemma reachable_inv (num_frames k : Z) (s : LRUKReplacer) :
  reachable num_frames k s → inv num_frames k s.
Proof.
  intros (ops & Hvalid & Hrun). eapply inv_run; [done| |done]. apply inv_new.
Qed.

(** The state an outcome carries, for the examples. *)
Definition state_of (o : outcome LRUKReplacer) : LRUKReplacer :=
  match o with
  | Ok s => s
  | _ => LRUKReplacer_new 0 0
  end.

(** ** While the clock has not wrapped *)

Lemma StronglySorted_remove_middle {A : Type} (R : relation A) (l1 l2 : list A) (x : A) :
  StronglySorted R (l1 ++ x :: l2) → StronglySorted R (l1 ++ l2).
Proof.
  rewrite !StronglySorted_app, StronglySorted_cons.
  intros (Hcross & H1 & _ & H2). split_and!; try done.
  intros x1 x2 Hx1 Hx2. apply Hcross; [done|]. by apply elem_of_cons; right.
Qed.

Lemma StronglySorted_take {A : Type} (R : relation A) (n : nat) (l : list A) :
  StronglySorted R l → StronglySorted R (take n l).
Proof.
  intros H. rewrite <-(take_drop n l) in H. by apply StronglySorted_app_1_l in H.
Qed.

Lemma elem_of_take_1 {A : Type} (n : nat) (l : list A) (x : A) :
  x ∈ take n l → x ∈ l.
Proof. intros H. rewrite <-(take_drop n l). apply elem_of_app. by left. Qed.

Lemma sorted_newer_ext (st st' : gmap Z LRUKNode) (l : list element) :
  (∀ e, e ∈ l → oldest st' (elem_ptr e) = oldest st (elem_ptr e)) →
  StronglySorted (newer st) l → StronglySorted (newer st') l.
Proof.
  intros Hext Hs. induction Hs as [|x l Hs IH Hx]; constructor.
  - apply IH. intros e He. apply Hext. by apply elem_of_cons; right.
  - apply Forall_forall. intros e He. rewrite Forall_forall in Hx.
    specialize (Hx e He). unfold newer in *.
    rewrite !Hext; [done|by apply elem_of_cons; right|by apply elem_of_cons; left].
Qed.

(** The first access of a frame of [fifo_list_] that had no timestamp: it
    is at the head, the only place a frame without timestamp can have. *)
Lemma sorted_newer_first (st st' : gmap Z LRUKNode) (l : list element) (f ts : Z) :
  NoDup (ptrs l) →
  oldest st f = None → oldest st' f = Some ts →
  (∀ e, e ∈ l → elem_ptr e ≠ f →
    oldest st' (elem_ptr e) = oldest st (elem_ptr e) ∧
    ∃ t, oldest st (elem_ptr e) = Some t ∧ t < ts) →
  StronglySorted (newer st) l → StronglySorted (newer st') l.
Proof.
  intros Hnd Hf Hf' Hothers Hs. induction Hs as [|x l Hs IH Hx]; constructor.
  - apply IH.
    + by apply NoDup_cons in Hnd as [_ ?].
    + intros e He. apply Hothers. by apply elem_of_cons; right.
  - apply Forall_forall. intros e He. rewrite Forall_forall in Hx.
    specialize (Hx e He). unfold newer in *.
    assert (e ∈ x :: l) as He' by (by apply elem_of_cons; right).
    assert (x ∈ x :: l) as Hx' by (by apply elem_of_cons; left).
    destruct (decide (elem_ptr x = f)) as [Hxf|Hxf].
    + rewrite Hxf, Hf'.
      assert (elem_ptr e ≠ f) as Hef.
      { intros Hef. apply NoDup_cons in Hnd as [Hnin _]. apply Hnin.
        unfold ptrs. rewrite Hxf, <-Hef. apply list_elem_of_fmap. eauto. }
      destruct (Hothers e He' Hef) as (-> & t & -> & Hlt). done.
    + destruct (Hothers x Hx' Hxf) as (-> & t & Ht & Hlt). rewrite Ht in *.
      destruct (decide (elem_ptr e = f)) as [Hef|Hef].
      * rewrite Hef, Hf in Hx. done.
      * by destruct (Hothers e He' Hef) as (-> & _).
Qed.

Lemma timed_new (num_frames k : Z) : timed (LRUKReplacer_new num_frames k).
Proof.
  constructor; simpl; [lia| | |constructor];
    intros f node; by rewrite lookup_empty.
Qed.

Lemma oldest_insert_ne (st : gmap Z LRUKNode) (f p : Z) (node : LRUKNode) :
  p ≠ f → oldest (<[f := node]> st) p = oldest st p.
Proof. intros Hne. unfold oldest. by rewrite lookup_insert_ne. Qed.

Lemma oldest_insert_eq (st : gmap Z LRUKNode) (f : Z) (node : LRUKNode) :
  oldest (<[f := node]> st) f = back (history node).
Proof. unfold oldest. by rewrite lookup_insert_eq. Qed.

Lemma oldest_delete_ne (st : gmap Z LRUKNode) (f p : Z) :
  p ≠ f → oldest (delete f st) p = oldest st p.
Proof. intros Hne. unfold oldest. by rewrite lookup_delete_ne. Qed.

Lemma SetEvictable_store (f : Z) (b : bool) (s : LRUKReplacer) :
  node_store_ (SetEvictable f b s)
  = match node_store_ s !! f with
    | Some node => <[f := set_is_evictable b node]> (node_store_ s)
    | None => node_store_ s
    end.
Proof.
  unfold SetEvictable. destruct (node_store_ s !! f) as [node|]; [|done].
  destruct (is_evictable node && negb b); [done|].
  by destruct (negb (is_evictable node) && b).
Qed.

Lemma timed_SetEvictable (f : Z) (b : bool) (s : LRUKReplacer) :
  timed s → timed (SetEvictable f b s).
Proof.
  intros [Hclock Hpast Hhist Hfifo].
  pose proof (SetEvictable_fields f b s) as (_ & _ & Hts & Hl & _).
  pose proof (SetEvictable_store f b s) as Hstore.
  assert (∀ f0 n0, node_store_ (SetEvictable f b s) !! f0 = Some n0 →
    ∃ n1, node_store_ s !! f0 = Some n1 ∧ history n0 = history n1) as Hst.
  { rewrite Hstore. destruct (node_store_ s !! f) as [node|] eqn:Hf; [|by eauto].
    intros f0 n0 [[<- <-]|[Hne H0]]%lookup_insert_Some; eauto. }
  assert (∀ p, oldest (node_store_ (SetEvictable f b s)) p = oldest (node_store_ s) p) as Hold.
  { intros p. rewrite Hstore. destruct (node_store_ s !! f) as [node|] eqn:Hf; [|done].
    destruct (decide (p = f)) as [->|Hne].
    - rewrite oldest_insert_eq. unfold oldest. by rewrite Hf.
    - by apply oldest_insert_ne. }
  constructor.
  - by rewrite Hts.
  - intros f0 n0 t H0 Ht. destruct (Hst f0 n0 H0) as (n1 & Hn1 & Heq).
    rewrite Hts. rewrite Heq in Ht. eauto.
  - intros f0 n0 H0. destruct (Hst f0 n0 H0) as (n1 & Hn1 & Heq). rewrite Heq. eauto.
  - rewrite Hl. by apply (sorted_newer_ext (node_store_ s)).
Qed.

Lemma timed_drop (s s' : LRUKReplacer) (p : Z) :
  timed s → node_store_ s' = delete p (node_store_ s) →
  current_timestamp_ s' = current_timestamp_ s →
  (∀ e, e ∈ fifo_list_ s' → elem_ptr e ≠ p) →
  StronglySorted (newer (node_store_ s)) (fifo_list_ s') → timed s'.
Proof.
  intros [Hclock Hpast Hhist Hfifo] Hst Hts Hne Hsorted. constructor.
  - by rewrite Hts.
  - intros f node t. rewrite Hst, Hts. intros [_ Hf]%lookup_delete_Some. eauto.
  - intros f node. rewrite Hst. intros [_ Hf]%lookup_delete_Some. eauto.
  - rewrite Hst. apply (sorted_newer_ext (node_store_ s)); [|done].
    intros e He. apply oldest_delete_ne. by apply Hne.
Qed.

Lemma not_elem_of_remove_middle (l1 l2 : list element) (e : element) :
  NoDup (ptrs (l1 ++ e :: l2)) → ∀ x, x ∈ l1 ++ l2 → elem_ptr x ≠ elem_ptr e.
Proof.
  destruct e as [it p]. intros Hnd x Hx.
  by apply (elem_of_remove_middle l1 l2 it p Hnd x) in Hx as [_ ?].
Qed.

Lemma timed_Evict (s s' : LRUKReplacer) (r : option Z) :
  wf s → timed s → Evict s = Ok (r, s') → timed s'.
Proof.
  intros Hwf Ht H.
  destruct (Evict_Ok s s' r Hwf H) as [| l1 e l2 node Hl | | l1 e l2 node Hfifo Hl]; try done.
  - pose proof (wf_fifo_ptrs s Hwf) as Hnd. pose proof (timed_fifo s Ht) as Hs.
    rewrite Hl in Hnd, Hs.
    apply (timed_drop s _ (elem_ptr e)); try done; simpl.
    + by apply not_elem_of_remove_middle.
    + by apply StronglySorted_remove_middle in Hs.
  - apply (timed_drop s _ (elem_ptr e)); try done; simpl; rewrite Hfifo.
    + by intros x ?%elem_of_nil.
    + constructor.
Qed.

Lemma timed_Remove (s s' : LRUKReplacer) (f : Z) :
  wf s → timed s → Remove f s = Ok s' → timed s'.
Proof.
  intros Hwf Ht H.
  destruct (Remove_Ok s s' f Hwf H) as [| |node l1 it l2 Hf Hev Hlt Hl]; try done.
  pose proof (wf_fifo_ptrs s Hwf) as Hnd. pose proof (timed_fifo s Ht) as Hs.
  rewrite Hl in Hnd, Hs.
  apply (timed_drop s _ f); try done; simpl.
  - by apply (not_elem_of_remove_middle l1 l2 (it, f)).
  - by apply StronglySorted_remove_middle in Hs.
Qed.

(** All tracked frames but [f] have been accessed. *)
Definition accessed_but (f : Z) (s : LRUKReplacer) : Prop :=
  ∀ f0 node, f0 ≠ f → node_store_ s !! f0 = Some node → history node ≠ [].

Lemma oldest_accessed (s : LRUKReplacer) (f : Z) (node : LRUKNode) :
  timed s → node_store_ s !! f = Some node → history node ≠ [] →
  ∃ t, oldest (node_store_ s) f = Some t ∧ 0 <= t < current_timestamp_ s.
Proof.
  intros Ht Hf Hne. unfold oldest, back. rewrite Hf. simpl.
  destruct (last (history node)) as [t|] eqn:Hlast; [|by apply last_None in Hlast].
  exists t. split; [done|]. apply (timed_past s Ht f node); [done|].
  by apply last_Some_elem_of.
Qed.

Lemma timed_enroll (f : Z) (s : LRUKReplacer) :
  wf s → timed s → timed (enroll f s).
Proof.
  intros Hwf [Hclock Hpast Hhist Hfifo]. unfold enroll.
  destruct (node_store_ s !! f) as [node|] eqn:Hf; [done|].
  constructor; simpl; try done.
  - intros f0 n0 t [[<- <-]|[Hne H0]]%lookup_insert_Some; [by intros ?%elem_of_nil|].
    eauto.
  - intros f0 n0 [[<- <-]|[Hne H0]]%lookup_insert_Some; [constructor|eauto].
  - assert (∀ e, e ∈ fifo_list_ s → elem_ptr e ≠ f) as Hne.
    { intros [it p] He. simpl. intros ->.
      destruct (wf_fifo s Hwf it f He) as (? & ? & _). congruence. }
    constructor.
    + apply (sorted_newer_ext (node_store_ s)); [|done].
      intros e He. apply oldest_insert_ne. by apply Hne.
    + apply Forall_forall. intros e He. unfold newer. simpl.
      by rewrite oldest_insert_eq.
Qed.

Lemma accessed_but_enroll (f : Z) (s : LRUKReplacer) :
  accessed s → accessed_but f (enroll f s).
Proof.
  intros Hacc f0 n0 Hne. unfold enroll.
  destruct (node_store_ s !! f) as [node|] eqn:Hf; simpl; [by apply Hacc|].
  rewrite lookup_insert_ne by done. by apply Hacc.
Qed.

Lemma current_timestamp_enroll (f : Z) (s : LRUKReplacer) :
  current_timestamp_ (enroll f s) = current_timestamp_ s.
Proof. unfold enroll. by destruct (node_store_ s !! f). Qed.

Lemma last_cons_nonempty {A : Type} (x : A) (l : list A) :
  l ≠ [] → last (x :: l) = last l.
Proof. destruct l; [done|]. intros _. apply last_cons_cons. Qed.

Lemma timed_touch_spec (s s' : LRUKReplacer) (f : Z) :
  wf s → timed s → accessed_but f s → 1 <= k_ s →
  current_timestamp_ s + 1 < SizeT.modulus → touch_spec s f s' → timed s'.
Proof.
  intros Hwf Ht Hacc Hk Hwrap Hspec.
  destruct (touch_spec_store s s' f) as
    (node & node' & Hf & Hst & _ & _ & Hh & Hts & _); [lia|done|].
  pose proof Ht as [Hclock Hpast Hhist Hfifo].
  rewrite incr_small in Hts by lia.
  assert (∀ t, t ∈ history node' → 0 <= t < current_timestamp_ s + 1) as Hnew.
  { intros t. rewrite Hh. intros [->|Hin]%elem_of_take_1%elem_of_cons; [lia|].
    specialize (Hpast f node t Hf Hin). lia. }
  constructor.
  - lia.
  - intros f0 n0 t. rewrite Hst, Hts.
    intros [[<- <-]|[Hne H0]]%lookup_insert_Some Hin; [by apply Hnew|].
    specialize (Hpast f0 n0 t H0 Hin). lia.
  - intros f0 n0. rewrite Hst. intros [[<- <-]|[Hne H0]]%lookup_insert_Some; [|eauto].
    rewrite Hh. apply StronglySorted_take. constructor; [eauto|].
    apply Forall_forall. intros t Hin. specialize (Hpast f node t Hf Hin). lia.
  - clear Hst Hh Hts Hnew node' Hf node.
    destruct Hspec as [node Hf Hlt|node l1 it l2 Hf Heq Hl|node l1 it l2 l1' l2' Hf Heq Hl Hsplit];
      simpl.
    + destruct (decide (history node = [])) as [Hnil|Hnonnil].
      * apply (sorted_newer_first (node_store_ s) _ _ f (current_timestamp_ s));
          [apply Hwf| | | |done].
        -- unfold oldest. rewrite Hf. simpl. by rewrite Hnil.
        -- rewrite oldest_insert_eq. simpl. by rewrite Hnil.
        -- intros [it p] He Hne. simpl in *. split; [by apply oldest_insert_ne|].
           destruct (wf_fifo s Hwf it p He) as (n0 & Hn0 & _).
           destruct (oldest_accessed s p n0 Ht Hn0) as (t & Hold & Hrange); [by eapply Hacc|].
           exists t. split; [done|lia].
      * apply (sorted_newer_ext (node_store_ s)); [|done].
        intros [it p] He. simpl. destruct (decide (p = f)) as [->|Hne].
        -- rewrite oldest_insert_eq. unfold oldest, back. rewrite Hf. simpl.
           by apply last_cons_nonempty.
        -- by apply oldest_insert_ne.
    + pose proof (wf_fifo_ptrs s Hwf) as Hnd. rewrite Hl in Hnd, Hfifo.
      apply (sorted_newer_ext (node_store_ s)).
      * intros e He. apply oldest_insert_ne.
        by apply (not_elem_of_remove_middle l1 l2 (it, f) Hnd).
      * by apply StronglySorted_remove_middle in Hfifo.
    + apply (sorted_newer_ext (node_store_ s)); [|done].
      intros [it' p] He. simpl. apply oldest_insert_ne. intros ->.
      destruct (wf_fifo s Hwf it' f He) as (n0 & Hn0 & Hsz & _). simplify_eq. lia.
Qed.

Lemma timed_RecordAccess (s s' : LRUKReplacer) (f : Z) (a : AccessType) :
  wf s → accessed s → timed s → 1 <= k_ s →
  current_timestamp_ s + 1 < SizeT.modulus →
  RecordAccess f a s = Ok s' → timed s'.
Proof.
  intros Hwf Hacc Ht Hk Hwrap [_ H]%RecordAccess_Ok; [|done..].
  apply (timed_touch_spec (enroll f s) s' f); try done.
  - by apply wf_enroll.
  - by apply timed_enroll.
  - by apply accessed_but_enroll.
  - by rewrite k_enroll.
  - by rewrite current_timestamp_enroll.
Qed.

Lemma accesses_nonneg (ops : list op) : 0 <= accesses ops.
Proof. induction ops as [|[] ops IH]; simpl; lia. Qed.

(** One call: the clock advances by one on an access, and not otherwise. *)
Lemma timed_exec (num_frames k : Z) (o : op) (s s' : LRUKReplacer) :
  inv num_frames k s → timed s →
  current_timestamp_ s + accesses [o] < SizeT.modulus →
  exec o s = Ok s' →
  timed s' ∧ current_timestamp_ s' = current_timestamp_ s + accesses [o].
Proof.
  intros [Hwf Hacc Hc Hk Hr] Ht. destruct o as [f a|f b| |f]; simpl; intros Hwrap.
  - intros H. destruct (Z.le_gt_cases 1 (k_ s)) as [Hk1|Hk0].
    + pose proof (RecordAccess_store s s' f a Hwf Hk1 H)
        as (_ & _ & _ & _ & _ & Hts & _).
      rewrite incr_small in Hts by (pose proof (timed_clock s Ht); lia).
      split; [|lia]. eapply timed_RecordAccess; try done; lia.
    + exfalso. eapply RecordAccess_depth_zero; [done..| |done]. lia.
  - intros [= <-]. pose proof (SetEvictable_fields f b s) as (_ & _ & Hts & _).
    split; [by apply timed_SetEvictable|lia].
  - intros H. apply bind_Ok in H as ([r s0] & Hev & [= <-]).
    split; [by eapply timed_Evict|].
    simpl. destruct (Evict_Ok s s0 r Hwf Hev); simpl; lia.
  - intros H. split; [by eapply timed_Remove|].
    destruct (Remove_Ok s s' f Hwf H); simpl; lia.
Qed.

Lemma accesses_cons (o : op) (ops : list op) :
  accesses (o :: ops) = accesses [o] + accesses ops.
Proof. destruct o; simpl; lia. Qed.

Lemma timed_run (num_frames k : Z) (ops : list op) (s s' : LRUKReplacer) :
  Forall valid_op ops → inv num_frames k s → timed s →
  current_timestamp_ s + accesses ops < SizeT.modulus →
  run ops s = Ok s' →
  timed s' ∧ current_timestamp_ s' = current_timestamp_ s + accesses ops.
Proof.
  intros Hvalid. revert s.
  induction Hvalid as [|o ops Ho _ IH]; intros s Hinv Ht Hwrap.
  - intros [= <-]. split; [done|simpl; lia].
  - rewrite accesses_cons in *. pose proof (accesses_nonneg ops) as Hops.
    pose proof (accesses_nonneg [o]) as Ho1.
    simpl run. intros H. apply bind_Ok in H as (s1 & Hs1 & H).
    destruct (timed_exec num_frames k o s s1) as [Ht1 Hts1]; [done|done|lia|done|].
    destruct (IH s1) as [Ht' Hts']; [by eapply inv_exec|done|lia|done|].
    split; [done|lia].
Qed.

Lemma reachable_unwrapped_reachable (num_frames k : Z) (s : LRUKReplacer) :
  reachable_unwrapped num_frames k s → reachable num_frames k s.
Proof. intros (ops & Hvalid & _ & Hrun). by exists ops. Qed.

Lemma reachable_unwrapped_timed (num_frames k : Z) (s : LRUKReplacer) :
  reachable_unwrapped num_frames k s → timed s.
Proof.
  intros (ops & Hvalid & Hwrap & Hrun).
  eapply (timed_run num_frames k ops); [done|apply inv_new|apply timed_new| |done].
  simpl. lia.
Qed.

(** ** The scan of [fifo_list_] by [Evict] *)

(** [Evict] in a state where some evictable frame is in [fifo_list_]: the
    victim is the evictable frame of [fifo_list_] whose history ends with
    the smallest timestamp. *)
Lemma Evict_short_victim (num_frames k : Z) (s : LRUKReplacer)
    (f : Z) (node : LRUKNode) :
  reachable_unwrapped num_frames k s →
  node_store_ s !! f = Some node → is_evictable node = true →
  history_size node < k →
  ∃ v vnode t s', Evict s = Ok (Some v, s') ∧
    node_store_ s !! v = Some vnode ∧ is_evictable vnode = true ∧
    history_size vnode < k ∧ back (history vnode) = Some t ∧
    ∀ f' node' t', node_store_ s !! f' = Some node' →
      is_evictable node' = true → history_size node' < k →
      back (history node') = Some t' → f' ≠ v → t < t'.
Proof.
  intros Hreach Hf Hev Hlt. pose proof (reachable_unwrapped_timed _ _ _ Hreach) as Ht.
  apply reachable_unwrapped_reachable, reachable_inv in Hreach as [Hwf Hacc _ Hk _].
  subst k.
  assert (∀ f0 n0, node_store_ s !! f0 = Some n0 → is_evictable n0 = true →
    history_size n0 < k_ s → ∃ it, (it, f0) ∈ fifo_list_ s) as Hin.
  { intros f0 n0 H0 _ Hlt0. by apply elem_of_ptrs, (wf_short s Hwf f0 n0). }
  destruct (Hin f node Hf Hev Hlt) as [it Hit].
  destruct (Evict_defined s Hwf) as (r & s' & Hevict).
  destruct (Evict_Ok s s' r Hwf Hevict)
    as [Hne Hpin|l1 e l2 vnode Hl Hv Hvev Hpin|Hnil|l1 e l2 vnode Hnil];
    [|clear Hin|by rewrite Hnil in Hit; apply elem_of_nil in Hit..].
  { rewrite Forall_forall in Hpin. destruct (Hpin _ Hit) as (n0 & Hn0 & Hn0ev).
    simpl in Hn0. simplify_eq. congruence. }
  destruct e as [ite v]. simpl in *.
  destruct (wf_fifo s Hwf ite v) as (n0 & Hn0 & Hvlt & _); [rewrite Hl; set_solver|].
  rewrite Hv in Hn0. injection Hn0 as <-.
  destruct (oldest_accessed s v vnode Ht Hv) as (t & Hold & _); [by eapply Hacc|].
  exists v, vnode, t, (evicted_fifo l1 l2 (ite, v) s).
  split_and!; try done.
  { unfold oldest in Hold. by rewrite Hv in Hold. }
  intros f' node' t' Hf' Hev' Hlt' Hback Hne.
  pose proof (wf_short s Hwf f' node' Hf' Hlt') as [it' Hin']%elem_of_ptrs.
  rewrite Hl in Hin'. apply elem_of_app in Hin' as [Hin1|Hin2].
  - pose proof (timed_fifo s Ht) as Hsorted. rewrite Hl in Hsorted.
    apply StronglySorted_app in Hsorted as (Hcross & _ & _).
    specialize (Hcross (it', f') (ite, v) Hin1). unfold newer in Hcross. simpl in Hcross.
    rewrite Hold in Hcross. unfold oldest in Hcross at 1. rewrite Hf' in Hcross.
    simpl in Hcross. rewrite Hback in Hcross. apply Hcross. set_solver.
  - apply elem_of_cons in Hin2 as [Heq|Hin2]; [congruence|].
    rewrite Forall_forall in Hpin. destruct (Hpin _ Hin2) as (n0 & Hn0 & Hn0ev).
    simpl in Hn0. simplify_eq. congruence.
Qed.

(** ** Histories *)

(** The access log of the spec: for every frame that has a record, the
    timestamps of all the accesses since the record was created, the most
    recent first.  An access adds the current timestamp in front; the
    eviction or the removal of a frame destroys its record. *)
Definition log_exec (o : op) (s : LRUKReplacer) (log : gmap Z (list Z))
  : gmap Z (list Z) :=
  match o with
  | OpRecordAccess f _ => <[f := current_timestamp_ s :: default [] (log !! f)]> log
  | OpSetEvictable _ _ => log
  | OpEvict =>
      match victim (Evict s) with
      | Ok (Some v) => delete v log
      | _ => log
      end
  | OpRemove f => if evictable s f then delete f log else log
  end.

Fixpoint logged (ops : list op) (s : LRUKReplacer) (log : gmap Z (list Z))
  : gmap Z (list Z) :=
  match ops with
  | [] => log
  | o :: ops' =>
      match exec o s with
      | Ok s' => logged ops' s' (log_exec o s log)
      | _ => log
      end
  end.

(** Every history is the log of its frame, cut to [k_] entries. *)
Definition logs (s : LRUKReplacer) (log : gmap Z (list Z)) : Prop :=
  ∀ f, history <$> node_store_ s !! f = take (Z.to_nat (k_ s)) <$> log !! f.

(** Every log has its most recent timestamp in front, and all of them are
    in the past. *)
Definition log_timed (s : LRUKReplacer) (log : gmap Z (list Z)) : Prop :=
  ∀ f l, log !! f = Some l →
    StronglySorted Z.gt l ∧ ∀ t, t ∈ l → t < current_timestamp_ s.

Lemma take_cons_take (n : nat) (x : Z) (l : list Z) :
  take n (x :: take n l) = take n (x :: l).
Proof.
  destruct n as [|n]; [done|]. simpl. f_equal. rewrite take_take. f_equal. lia.
Qed.

Lemma logs_exec (num_frames k : Z) (o : op) (s s' : LRUKReplacer)
    (log : gmap Z (list Z)) :
  inv num_frames k s → logs s log → exec o s = Ok s' → logs s' (log_exec o s log).
Proof.
  intros [Hwf Hacc Hc Hk Hr] Hlogs. destruct o as [f a|f b| |f]; simpl.
  - intros H. destruct (Z.le_gt_cases 1 (k_ s)) as [Hk1|Hk0].
    + pose proof (RecordAccess_store s s' f a Hwf Hk1 H)
        as (node' & Hst & _ & _ & Hh & _ & _ & Hk' & _).
      intros f0. rewrite Hst, Hk'. destruct (decide (f0 = f)) as [->|Hne].
      * rewrite !lookup_insert_eq. simpl. rewrite Hh. f_equal.
        specialize (Hlogs f). destruct (log !! f) as [l|];
          destruct (node_store_ s !! f) as [n0|]; simplify_eq/=; try done.
        rewrite Hlogs. apply take_cons_take.
      * rewrite !lookup_insert_ne by done. apply Hlogs.
    + exfalso. eapply RecordAccess_depth_zero; [done..| |done]. lia.
  - intros [= <-]. pose proof (SetEvictable_fields f b s) as (Hk' & _).
    intros f0. rewrite Hk', SetEvictable_store, <-Hlogs.
    destruct (node_store_ s !! f) as [node|] eqn:Hf; [|done].
    destruct (decide (f0 = f)) as [->|Hne].
    + by rewrite lookup_insert_eq, Hf.
    + by rewrite lookup_insert_ne.
  - intros H. apply bind_Ok in H as ([r s0] & Hev & [= <-]). unfold victim.
    rewrite Hev. simpl.
    destruct (Evict_Ok s s0 r Hwf Hev); try done; intros f0; simpl;
      (destruct (decide (f0 = elem_ptr e)) as [->|Hne];
        [by rewrite !lookup_delete_eq|rewrite !lookup_delete_ne by done; apply Hlogs]).
  - intros H. unfold evictable.
    destruct (Remove_Ok s s' f Hwf H) as [Hf|node Hf Hev|node l1 it l2 Hf Hev];
      rewrite Hf; simpl; try rewrite Hev; try done.
    intros f0. simpl. destruct (decide (f0 = f)) as [->|Hne];
      [by rewrite !lookup_delete_eq|rewrite !lookup_delete_ne by done; apply Hlogs].
Qed.

Lemma log_timed_exec (num_frames k : Z) (o : op) (s s' : LRUKReplacer)
    (log : gmap Z (list Z)) :
  inv num_frames k s → timed s → log_timed s log →
  current_timestamp_ s + accesses [o] < SizeT.modulus →
  exec o s = Ok s' → log_timed s' (log_exec o s log).
Proof.
  intros Hinv Ht Hlog Hwrap Hexec.
  destruct (timed_exec num_frames k o s s' Hinv Ht Hwrap Hexec) as [_ Hts].
  pose proof (accesses_nonneg [o]) as Hnonneg.
  assert (∀ log', (∀ f l, log' !! f = Some l → log !! f = Some l) →
    log_timed s' log') as Hsub.
  { intros log' Hincl f l Hl. destruct (Hlog f l (Hincl f l Hl)) as [Hs Hp].
    split; [done|]. intros t Hin. specialize (Hp t Hin). lia. }
  destruct o as [f a|f b| |f]; simpl in *.
  - intros f0 l. intros [[<- <-]|[Hne H0]]%lookup_insert_Some.
    + assert (StronglySorted Z.gt (default [] (log !! f)) ∧
        ∀ t, t ∈ default [] (log !! f) → t < current_timestamp_ s) as [Hs Hp].
      { destruct (log !! f) as [l|] eqn:Hl; simpl; [by apply (Hlog f)|].
        split; [constructor|]. by intros t ?%elem_of_nil. }
      split.
      * constructor; [done|]. apply Forall_forall. intros t Hin.
        specialize (Hp t Hin). lia.
      * intros t [->|Hin]%elem_of_cons; [lia|]. specialize (Hp t Hin). lia.
    + destruct (Hlog f0 l H0) as [Hs Hp]. split; [done|].
      intros t Hin. specialize (Hp t Hin). lia.
  - by apply Hsub.
  - destruct (victim (Evict s)) as [[v|]| |]; apply Hsub; try done.
    by intros f l [_ ?]%lookup_delete_Some.
  - destruct (evictable s f); apply Hsub; try done.
    by intros f0 l [_ ?]%lookup_delete_Some.
Qed.

Lemma logs_run (num_frames k : Z) (ops : list op) (s s' : LRUKReplacer)
    (log : gmap Z (list Z)) :
  Forall valid_op ops → inv num_frames k s → logs s log →
  run ops s = Ok s' → logs s' (logged ops s log).
Proof.
  intros Hvalid. revert s log.
  induction Hvalid as [|o ops Ho _ IH]; intros s log Hinv Hlogs; simpl.
  - by intros [= <-].
  - intros H. apply bind_Ok in H as (s1 & Hs1 & H). rewrite Hs1.
    apply IH; [by eapply inv_exec|by eapply logs_exec|done].
Qed.

Lemma log_timed_run (num_frames k : Z) (ops : list op) (s s' : LRUKReplacer)
    (log : gmap Z (list Z)) :
  Forall valid_op ops → inv num_frames k s → timed s → log_timed s log →
  current_timestamp_ s + accesses ops < SizeT.modulus →
  run ops s = Ok s' → log_timed s' (logged ops s log).
Proof.
  intros Hvalid. revert s log.
  induction Hvalid as [|o ops Ho _ IH]; intros s log Hinv Ht Hlog Hwrap.
  - by intros [= <-].
  - rewrite accesses_cons in Hwrap. pose proof (accesses_nonneg ops) as Hops.
    pose proof (accesses_nonneg [o]) as Ho1.
    simpl. intros H. apply bind_Ok in H as (s1 & Hs1 & H). rewrite Hs1.
    destruct (timed_exec num_frames k o s s1) as [Ht1 Hts1]; [done|done|lia|done|].
    apply IH; try done.
    + by eapply inv_exec.
    + eapply log_timed_exec; try done. lia.
    + lia.
Qed.

(** The first access of a frame since its record was created: the last
    entry of its access log. *)
Definition first_access (log : gmap Z (list Z)) (f : Z) : option Z :=
  l ← log !! f; last l.

(** The history of a frame with fewer than [k_] accesses is its whole log. *)
Lemma logs_short (s : LRUKReplacer) (log : gmap Z (list Z)) (f : Z) (node : LRUKNode) :
  logs s log → node_store_ s !! f = Some node → history_size node < k_ s →
  log !! f = Some (history node).
Proof.
  intros Hlogs Hf Hlt. specialize (Hlogs f). rewrite Hf in Hlogs.
  destruct (log !! f) as [l|]; [|done]. injection Hlogs as Hh. f_equal.
  unfold history_size in Hlt. rewrite Hh in Hlt |- *.
  rewrite length_take in Hlt. symmetry. apply take_ge. lia.
Qed.

(** ** Two returns of [Evict] and [Remove] *)

(** [Evict] gives up as soon as [fifo_list_] is not empty and holds no
    evictable frame, whatever [lru_list_] holds. *)
Lemma Evict_pinned_fifo (s : LRUKReplacer) :
  fifo_list_ s ≠ [] → Forall (pinned (node_store_ s)) (fifo_list_ s) →
  Evict s = Ok (None, s).
Proof.
  intros Hne Hpin. unfold Evict.
  destruct (0 <? Z.of_nat (length (fifo_list_ s))) eqn:Hlen;
    [|by apply length_pos_empty in Hlen].
  apply Forall_reverse in Hpin.
  assert (first_evictable (node_store_ s) (reverse (fifo_list_ s)) = Ok None) as ->; [|done].
  induction Hpin as [|e l (node & Hn & Hev) _ IH]; simpl; [done|].
  unfold deref. by rewrite Hn; simpl; rewrite Hev.
Qed.

(** [Remove] of a tracked frame that is not evictable returns and changes
    nothing. *)
Lemma Remove_pinned_Ok (s : LRUKReplacer) (f : Z) (node : LRUKNode) :
  node_store_ s !! f = Some node → is_evictable node = false → Remove f s = Ok s.
Proof. intros Hf Hev. unfold Remove. by rewrite Hf, Hev. Qed.

(** The backward k-distance of a tracked frame with [k_] accesses, as the
    header of the replacer defines it: "the difference in time between
    current timestamp and the timestamp of kth previous access".  Both
    timestamps are values of [size_t], and so is their difference: it is
    taken modulo [2^64], which makes it the number of ticks of the logical
    clock since that access, also when the clock has wrapped in between, as
    long as fewer than [2^64] ticks have passed. *)
Definition backward_k_distance (s : LRUKReplacer) (f : Z) : option Z :=
  t ← oldest (node_store_ s) f; Some (SizeT.wrap (current_timestamp_ s - t)).

(** * The claims *)

(** A run used by the examples: capacity 7, history depth 2; frame 1 is
    accessed twice, frames 2, 3 and 4 once; frames 1, 2 and 3 are
    evictable. *)
Definition example_ops : list op :=
  [OpRecordAccess 1 Unknown; OpRecordAccess 2 Unknown; OpRecordAccess 3 Unknown;
   OpRecordAccess 4 Scan; OpRecordAccess 1 Lookup;
   OpSetEvictable 2 true; OpSetEvictable 3 true; OpSetEvictable 1 true].

Definition example_state : LRUKReplacer :=
  state_of (run example_ops (LRUKReplacer_new 7 2)).

Example example_state_lists :
  ptrs (fifo_list_ example_state) = [4; 3; 2] ∧
  ptrs (lru_list_ example_state) = [1] ∧
  Size example_state = 3 ∧ current_timestamp_ example_state = 5 ∧
  victim (Evict example_state) = Ok (Some 2).
Proof. by vm_compute. Qed.

Lemma example_ops_valid : Forall valid_op example_ops.
Proof. repeat constructor; unfold is_frame_id; lia. Qed.

(** ** C1: [Evict] when [fifo_list_] holds no evictable frame *)

(** Capacity 7, history depth 2: frame 1 is accessed once and stays pinned,
    frame 2 is accessed twice and becomes evictable. *)
Definition pinned_fifo_state : LRUKReplacer :=
  state_of (run [OpRecordAccess 1 Unknown; OpRecordAccess 2 Unknown;
                 OpRecordAccess 2 Unknown; OpSetEvictable 2 true]
            (LRUKReplacer_new 7 2)).

(** C1, at a failing input: [fifo_list_] holds frame 1 only, which is not
    evictable, and [lru_list_] holds the evictable frame 2; [Evict] returns
    no victim and leaves the state as it is, where the claim has it return
    frame 2. *)
Theorem Evict_stops_at_fifo_list :
  ptrs (fifo_list_ pinned_fifo_state) = [1] ∧
  evictable pinned_fifo_state 1 = false ∧
  ptrs (lru_list_ pinned_fifo_state) = [2] ∧
  evictable pinned_fifo_state 2 = true ∧
  Evict pinned_fifo_state = Ok (None, pinned_fifo_state).
Proof. by vm_compute. Qed.

(** ** C2: the place of a promoted frame in [lru_list_] *)

(** The insertion rule the spec gives for [lru_list_], on the frames of the
    list: immediately before the first entry, scanning from the head, whose
    oldest timestamp is smaller than that of the frame; at the head if none
    is smaller. *)
Fixpoint before_first_smaller (age : Z → option Z) (f : Z) (l : list Z) : option (list Z) :=
  match l with
  | [] => None
  | x :: l' =>
      match age x, age f with
      | Some tx, Some tf =>
          if tx <? tf then Some (f :: x :: l')
          else cons x <$> before_first_smaller age f l'
      | _, _ => cons x <$> before_first_smaller age f l'
      end
  end.

Definition spec_insert (age : Z → option Z) (f : Z) (l : list Z) : list Z :=
  default (f :: l) (before_first_smaller age f l).

(** Capacity 7, history depth 2: frame 1 is accessed at times 0 and 1,
    frame 3 at time 2, frame 2 at times 3 and 4. *)
Definition before_promotion : LRUKReplacer :=
  state_of (run [OpRecordAccess 1 Unknown; OpRecordAccess 1 Unknown;
                 OpRecordAccess 3 Unknown; OpRecordAccess 2 Unknown;
                 OpRecordAccess 2 Unknown]
            (LRUKReplacer_new 7 2)).

Definition after_promotion : LRUKReplacer :=
  state_of (RecordAccess 3 Unknown before_promotion).

(** C2, at a failing input: the second access of frame 3 makes its history
    reach K = 2, with oldest timestamp 2; [lru_list_] holds frame 2 (oldest
    timestamp 3) before frame 1 (oldest timestamp 0).  The code puts frame 3
    at the head; the rule of the claim puts it between frames 2 and 1. *)
Theorem promotion_inserts_at_head :
  ptrs (fifo_list_ before_promotion) = [3] ∧
  ptrs (lru_list_ before_promotion) = [2; 1] ∧
  oldest (node_store_ after_promotion) <$> [3; 2; 1] = [Some 2; Some 3; Some 0] ∧
  ptrs (fifo_list_ after_promotion) = [] ∧
  ptrs (lru_list_ after_promotion) = [3; 2; 1] ∧
  spec_insert (oldest (node_store_ after_promotion)) 3
    (ptrs (lru_list_ before_promotion)) = [2; 3; 1].
Proof. by vm_compute. Qed.

(** ** C3: the victim among the frames with K accesses *)

(** Capacity 7, history depth 2: frame 1 is accessed at times 0 and 3,
    frame 2 at times 1 and 2; both become evictable. *)
Definition two_full_frames : LRUKReplacer :=
  state_of (run [OpRecordAccess 1 Unknown; OpRecordAccess 2 Unknown;
                 OpRecordAccess 2 Unknown; OpRecordAccess 1 Unknown;
                 OpSetEvictable 1 true; OpSetEvictable 2 true]
            (LRUKReplacer_new 7 2)).

(** C3, at a failing input: no frame has fewer than K = 2 accesses, frames 1
    and 2 are evictable with backward k-distances 4 and 3; [Evict] returns
    frame 2, where the claim has it return frame 1. *)
Theorem Evict_misses_most_stale :
  fifo_list_ two_full_frames = [] ∧
  evictable two_full_frames 1 = true ∧ evictable two_full_frames 2 = true ∧
  backward_k_distance two_full_frames 1 = Some 4 ∧
  backward_k_distance two_full_frames 2 = Some 3 ∧
  victim (Evict two_full_frames) = Ok (Some 2).
Proof. by vm_compute. Qed.

(** ** C4: [Remove] of a frame that is not evictable *)

(** Capacity 7, history depth 2: frame 1 is accessed once and stays pinned;
    frame 2 is evictable. *)
Definition one_pinned_frame : LRUKReplacer :=
  state_of (run [OpRecordAccess 1 Unknown; OpRecordAccess 2 Unknown;
                 OpSetEvictable 2 true]
            (LRUKReplacer_new 7 2)).

(** C4, at a failing input: [Remove] of the tracked, non-evictable frame 1
    returns normally, where the claim has it signal a fatal error; the
    state, and [Size()] with it, is unchanged. *)
Theorem Remove_pinned_returns :
  evictable one_pinned_frame 1 = false ∧
  is_Some (node_store_ one_pinned_frame !! 1) ∧
  Remove 1 one_pinned_frame = Ok one_pinned_frame.
Proof. split_and!; [by vm_compute|by vm_compute; eauto|by vm_compute]. Qed.

(** ** C5: the range check of [RecordAccess] *)

(** The scan of [lru_list_] and the access itself hold no assertion. *)
Lemma insert_before_smaller_not_Fatal (store : gmap Z LRUKNode) (h : list Z)
    (e : element) (l : list element) :
  insert_before_smaller store h e l ≠ Fatal.
Proof.
  induction l as [|x l IH]; simpl; [done|].
  destruct (deref store (elem_ptr x)) as [node|]; simpl; [|done].
  destruct (back (history node)) as [b|]; simpl; [|done].
  destruct (back h) as [mine|]; simpl; [|done].
  destruct (b <? mine); [done|].
  by destruct (insert_before_smaller store h e l).
Qed.

Lemma touch_not_Fatal (f : Z) (s : LRUKReplacer) : touch f s ≠ Fatal.
Proof.
  unfold touch. destruct (deref (node_store_ s) f) as [node|]; simpl; [|done].
  match goal with |- context [if ?c then _ else _] => destruct c end.
  - match goal with |- context [defined ?o] => destruct o; simpl; [|done] end.
    match goal with |- context [defined ?o] => destruct o; simpl; [|done] end.
    match goal with
    | |- context [insert_before_smaller ?st ?h ?e ?l] =>
        pose proof (insert_before_smaller_not_Fatal st h e l);
        by destruct (insert_before_smaller st h e l)
    end.
  - match goal with |- context [if ?c then _ else _] => destruct c end; [|done].
    match goal with |- context [defined ?o] => destruct o; simpl; [|done] end.
    by match goal with |- context [defined ?o] => destruct o end.
Qed.

(** The only fatal error of [RecordAccess] is the failed range check: the
    call aborts exactly when [frame_id], converted to [size_t], is larger
    than [replacer_size_], in every state. *)
Lemma RecordAccess_Fatal (s : LRUKReplacer) (f : Z) (a : AccessType) :
  RecordAccess f a s = Fatal ↔ replacer_size_ s < static_cast_size_t f.
Proof.
  rewrite RecordAccess_touch. unfold BUSTUB_ASSERT.
  destruct (Z.leb_spec (static_cast_size_t f) (replacer_size_ s)) as [Hle|Hgt];
    [|by split].
  split; [|lia]. intros Hcall. exfalso. revert Hcall.
  change (touch f (enroll f s) ≠ Fatal). apply touch_not_Fatal.
Qed.

(** The conversion of a frame identifier to [size_t]: a non-negative one is
    kept, a negative one becomes a value of at least [2^64 - 2^31]. *)
Lemma static_cast_size_t_frame_id (f : Z) :
  is_frame_id f →
  (0 <= f → static_cast_size_t f = f) ∧
  (f < 0 → static_cast_size_t f = f + 2 ^ 64).
Proof.
  unfold is_frame_id, static_cast_size_t, SizeT.wrap. rewrite modulus_eq.
  intros Hid. split; intros Hf.
  - apply Z.mod_small. lia.
  - rewrite <-(Z_mod_plus_full f 1 18446744073709551616).
    rewrite Z.mod_small by lia. lia.
Qed.

(** C5, as the code has it.  In every state reachable from a freshly
    constructed replacer, a call [RecordAccess(frame_id, access_type)]
    signals a fatal error if and only if [frame_id], converted to [size_t]
    as the check converts it, is larger than the capacity; for a frame
    identifier of 32 bits and a capacity below [2^64 - 2^31] that is: if
    and only if [frame_id < 0] or [frame_id > capacity].  With a history
    depth of at least one, the calls that proceed normally are exactly the
    others, so every call with [0 <= frame_id <= capacity], the one with
    [frame_id = capacity] included, proceeds normally.  With a history
    depth of zero the other calls do not abort either: their behaviour is
    undefined. *)
Theorem RecordAccess_fatal_iff (num_frames k : Z) (s : LRUKReplacer)
    (frame_id : Z) (access_type : AccessType) :
  reachable num_frames k s →
  (RecordAccess frame_id access_type s = Fatal ↔
     num_frames < static_cast_size_t frame_id) ∧
  (is_frame_id frame_id → num_frames < 2 ^ 64 - 2 ^ 31 →
     (RecordAccess frame_id access_type s = Fatal ↔
        frame_id < 0 ∨ num_frames < frame_id)) ∧
  (1 <= k →
     ((∃ s', RecordAccess frame_id access_type s = Ok s') ↔
        static_cast_size_t frame_id <= num_frames)) ∧
  (1 <= k → is_frame_id frame_id → 0 <= frame_id <= num_frames →
     ∃ s', RecordAccess frame_id access_type s = Ok s') ∧
  (k = 0 → static_cast_size_t frame_id <= num_frames →
     RecordAccess frame_id access_type s = Undefined).
Proof.
  intros [Hwf Hacc _ Hk Hr]%reachable_inv. subst k num_frames.
  pose proof (RecordAccess_Fatal s frame_id access_type) as Hfatal.
  split_and!.
  - done.
  - intros Hid Hcap. rewrite Hfatal.
    destruct (static_cast_size_t_frame_id frame_id Hid) as [Hpos Hneg].
    unfold is_frame_id in Hid.
    destruct (Z.neg_nonneg_cases frame_id) as [Hlt|Hge].
    + rewrite (Hneg Hlt). lia.
    + rewrite (Hpos Hge). lia.
  - intros Hk1. split.
    + intros [s' Hs']. by apply RecordAccess_Ok in Hs' as [Hle _].
    + intros Hle. by apply RecordAccess_defined.
  - intros Hk1 Hid [Hge Hle]. apply RecordAccess_defined; [done..|].
    destruct (static_cast_size_t_frame_id frame_id Hid) as [Hpos _].
    by rewrite (Hpos Hge).
  - intros Hk0 Hle.
    destruct (RecordAccess frame_id access_type s) as [s'| |] eqn:Hcall.
    + exfalso. eapply (RecordAccess_depth_zero s s'); [done..|lia|done].
    + destruct Hfatal as [Hgt _]. specialize (Hgt eq_refl). lia.
    + done.
Qed.

Lemma RecordAccess_fatal_iff_witness :
  (RecordAccess 7 Lookup example_state = Fatal ↔ 7 < static_cast_size_t 7) ∧
  (is_frame_id 7 → 7 < 2 ^ 64 - 2 ^ 31 →
     (RecordAccess 7 Lookup example_state = Fatal ↔ 7 < 0 ∨ 7 < 7)) ∧
  (1 <= 2 →
     ((∃ s', RecordAccess 7 Lookup example_state = Ok s') ↔
        static_cast_size_t 7 <= 7)) ∧
  (1 <= 2 → is_frame_id 7 → 0 <= 7 <= 7 →
     ∃ s', RecordAccess 7 Lookup example_state = Ok s') ∧
  (2 = 0 → static_cast_size_t 7 <= 7 →
     RecordAccess 7 Lookup example_state = Undefined).
Proof.
  apply (RecordAccess_fatal_iff 7 2 example_state 7 Lookup).
  exists example_ops. split; [repeat constructor; unfold is_frame_id; lia|].
  by vm_compute.
Defined.

(** C5 as stated fails: with capacity 7, the call with [frame_id = 7], which
    is [>= capacity], does not abort. *)
Lemma RecordAccess_at_capacity_returns :
  replacer_size_ (LRUKReplacer_new 7 2) <= 7 ∧
  ∃ s', RecordAccess 7 Unknown (LRUKReplacer_new 7 2) = Ok s'.
Proof. split; [simpl; lia|]. eexists. by vm_compute. Qed.

(** ** C6: the victim among the frames with fewer than K accesses *)

(** C6: in every state reached before the 64-bit logical clock wraps, if
    some evictable frame has fewer than K accesses, then [Evict] returns an
    evictable frame with fewer than K accesses, rather than one with K
    accesses, and the first access of that frame is earlier than the first
    access of every other evictable frame with fewer than K accesses. *)
Theorem Evict_prefers_oldest_short (num_frames k : Z) (ops : list op)
    (s : LRUKReplacer) (f : Z) (node : LRUKNode) :
  Forall valid_op ops → accesses ops < SizeT.modulus →
  run ops (LRUKReplacer_new num_frames k) = Ok s →
  node_store_ s !! f = Some node → is_evictable node = true →
  history_size node < k →
  let log := logged ops (LRUKReplacer_new num_frames k) ∅ in
  ∃ v vnode t s', Evict s = Ok (Some v, s') ∧
    node_store_ s !! v = Some vnode ∧ is_evictable vnode = true ∧
    history_size vnode < k ∧ first_access log v = Some t ∧
    ∀ f' node' t', node_store_ s !! f' = Some node' →
      is_evictable node' = true → history_size node' < k →
      first_access log f' = Some t' → f' ≠ v → t < t'.
Proof.
  intros Hvalid Hwrap Hrun Hf Hev Hlt log.
  pose proof (inv_run num_frames k ops _ s Hvalid (inv_new num_frames k) Hrun) as Hinv.
  assert (logs s log) as Hlogs.
  { apply (logs_run num_frames k ops (LRUKReplacer_new num_frames k));
      [done|apply inv_new| |done].
    intros f0. simpl. by rewrite !lookup_empty. }
  destruct (Evict_short_victim num_frames k s f node)
    as (v & vnode & t & s' & Hevict & Hv & Hvev & Hvlt & Hback & Hmin); try done.
  { by exists ops. }
  pose proof (inv_k _ _ _ Hinv) as Hk. subst k.
  exists v, vnode, t, s'. split_and!; try done.
  - unfold first_access. by rewrite (logs_short s log v vnode).
  - intros f' node' t' Hf' Hev' Hlt' Hfirst. apply (Hmin f' node'); try done.
    unfold first_access in Hfirst. by rewrite (logs_short s log f' node') in Hfirst.
Qed.

Lemma Evict_prefers_oldest_short_witness :
  let log := logged example_ops (LRUKReplacer_new 7 2) ∅ in
  ∃ v vnode t s', Evict example_state = Ok (Some v, s') ∧
    node_store_ example_state !! v = Some vnode ∧ is_evictable vnode = true ∧
    history_size vnode < 2 ∧ first_access log v = Some t ∧
    ∀ f' node' t', node_store_ example_state !! f' = Some node' →
      is_evictable node' = true → history_size node' < 2 →
      first_access log f' = Some t' → f' ≠ v → t < t'.
Proof.
  apply (Evict_prefers_oldest_short 7 2 example_ops example_state 3
    {| is_evictable := true; history := [2]; fid := 3; node_k_ := 2 |}).
  - repeat constructor; unfold is_frame_id; lia.
  - by vm_compute.
  - by vm_compute.
  - by vm_compute.
  - reflexivity.
  - by vm_compute.
Defined.

(** ** C7: [Size] *)

(** C7: in every state reachable from a freshly constructed replacer by
    calls of RecordAccess, SetEvictable, Evict and Remove, [Size()] is the
    number of tracked nodes whose [is_evictable] flag is set; and a call of
    SetEvictable on a tracked frame changes [Size()] by one exactly when the
    flag changes (up when it becomes true, down when it becomes false) and
    leaves it alone when the flag keeps its value or the frame is not
    tracked. *)
Theorem Size_counts_evictable (num_frames k : Z) (s : LRUKReplacer) :
  reachable num_frames k s →
  Size s = Z.of_nat (evictable_count (node_store_ s)) ∧
  ∀ f b,
    Size (SetEvictable f b s) =
      match node_store_ s !! f with
      | None => Size s
      | Some node =>
          match is_evictable node, b with
          | false, true => Size s + 1
          | true, false => Size s - 1
          | _, _ => Size s
          end
      end.
Proof.
  intros [_ _ Hc _ _]%reachable_inv. split; [apply Hc|].
  intros f b. pose proof (counted_bound s Hc) as Hb. pose proof modulus_eq as Hmod.
  pose proof (evictable_count_delete (node_store_ s) f) as Hcount.
  unfold Size, SetEvictable. destruct (node_store_ s !! f) as [node|] eqn:Hf; [|done].
  simpl in Hcount. pose proof (counted_size s Hc) as Hsize.
  destruct (is_evictable node), b; cbn -[SizeT.decr SizeT.incr]; try done.
  - rewrite decr_small by lia. lia.
  - rewrite incr_small by lia. lia.
Qed.

Lemma Size_counts_evictable_witness :
  Size example_state = Z.of_nat (evictable_count (node_store_ example_state)) ∧
  ∀ f b,
    Size (SetEvictable f b example_state) =
      match node_store_ example_state !! f with
      | None => Size example_state
      | Some node =>
          match is_evictable node, b with
          | false, true => Size example_state + 1
          | true, false => Size example_state - 1
          | _, _ => Size example_state
          end
      end.
Proof.
  apply (Size_counts_evictable 7 2 example_state).
  exists example_ops. split; [repeat constructor; unfold is_frame_id; lia|].
  by vm_compute.
Defined.

(** ** C8: [Remove] of a frame of [lru_list_] *)

(** Capacity 7, history depth 2: frame 1 is accessed twice, which moves it
    from [fifo_list_] to [lru_list_], and becomes evictable; frame 2 is
    accessed once. *)
Definition one_promoted_frame : LRUKReplacer :=
  state_of (run [OpRecordAccess 1 Unknown; OpRecordAccess 2 Unknown;
                 OpRecordAccess 1 Unknown; OpSetEvictable 1 true]
            (LRUKReplacer_new 7 2)).

(** C8, at a failing input: frame 1 is in [lru_list_] and evictable, and
    [fid_to_fifo_iter_] still has the iterator of the element the frame had
    in [fifo_list_], which was erased at its promotion.  [Remove] erases
    from [fifo_list_] through it: the behaviour is undefined, where the
    claim has the frame erased from [lru_list_] only. *)
Theorem Remove_promoted_undefined :
  ptrs (lru_list_ one_promoted_frame) = [1] ∧
  evictable one_promoted_frame 1 = true ∧
  (∃ it, fid_to_fifo_iter_ one_promoted_frame !! 1 = Some it ∧
     it ∉ iters (fifo_list_ one_promoted_frame)) ∧
  Remove 1 one_promoted_frame = Undefined.
Proof.
  split_and!; try by vm_compute.
  exists 0%nat. split; [by vm_compute|]. vm_compute. intros H.
  apply elem_of_cons in H as [H|H]; [discriminate|by apply elem_of_nil in H].
Qed.

(** ** C9: histories *)

(** C9: in every state reachable from a freshly constructed replacer with
    history depth K, the history of every tracked frame has at most K
    entries: it is the access log of the frame, the timestamps of all its
    accesses since its record was created, most recent first, cut to its K
    first entries.  After a call of RecordAccess that returns, the history
    of the accessed frame is the timestamp of the call followed by the
    earlier log of the frame, cut to K entries.  The logs are in strictly
    decreasing order as long as the 64-bit logical clock has not wrapped. *)
Theorem history_keeps_recent_accesses (num_frames k : Z) (ops : list op)
    (s : LRUKReplacer) :
  Forall valid_op ops → run ops (LRUKReplacer_new num_frames k) = Ok s →
  let log := logged ops (LRUKReplacer_new num_frames k) ∅ in
  (∀ f node, node_store_ s !! f = Some node →
    history_size node <= k ∧
    ∃ l, log !! f = Some l ∧ history node = take (Z.to_nat k) l ∧
      (accesses ops < SizeT.modulus → StronglySorted Z.gt l)) ∧
  (∀ f a s', RecordAccess f a s = Ok s' →
    let l' := current_timestamp_ s :: default [] (log !! f) in
    ∃ node', node_store_ s' !! f = Some node' ∧
      history node' = take (Z.to_nat k) l' ∧
      (accesses ops < SizeT.modulus → StronglySorted Z.gt l')).
Proof.
  intros Hvalid Hrun log.
  pose proof (inv_run num_frames k ops _ s Hvalid (inv_new num_frames k) Hrun) as Hinv.
  assert (logs s log) as Hlogs.
  { apply (logs_run num_frames k ops (LRUKReplacer_new num_frames k));
      [done|apply inv_new| |done].
    intros f. simpl. by rewrite !lookup_empty. }
  assert (accesses ops < SizeT.modulus → log_timed s log) as Hlt.
  { intros Hwrap.
    apply (log_timed_run num_frames k ops (LRUKReplacer_new num_frames k));
      [done|apply inv_new|apply timed_new| |done..].
    intros f0 l0. by rewrite lookup_empty. }
  pose proof Hinv as [Hwf Hacc _ Hk _]. subst k. split.
  - intros f node Hf. split; [by apply (wf_node s Hwf f node)|].
    specialize (Hlogs f). rewrite Hf in Hlogs.
    destruct (log !! f) as [l|] eqn:Hl; [|done]. injection Hlogs as Hh.
    exists l. split_and!; try done. intros Hwrap. by apply (Hlt Hwrap f l).
  - intros f a s' H l'. destruct (Z.le_gt_cases 1 (k_ s)) as [Hk1|Hk0].
    + pose proof (RecordAccess_store s s' f a Hwf Hk1 H) as (node' & Hst & _ & _ & Hh & _).
      exists node'. rewrite Hst, lookup_insert_eq. split_and!; [done| |].
      * rewrite Hh. unfold l'. specialize (Hlogs f). destruct (log !! f) as [l|];
          destruct (node_store_ s !! f) as [n0|]; simplify_eq/=; try done.
        rewrite Hlogs. apply take_cons_take.
      * intros Hwrap. specialize (Hlt Hwrap f). unfold l'.
        destruct (log !! f) as [l|]; simpl; [|repeat constructor].
        destruct (Hlt l eq_refl) as [Hs Hp]. constructor; [done|].
        apply Forall_forall. intros t Hin. specialize (Hp t Hin). lia.
    + exfalso. eapply RecordAccess_depth_zero; [done..| |done]. lia.
Qed.

Lemma history_keeps_recent_accesses_witness :
  let log := logged example_ops (LRUKReplacer_new 7 2) ∅ in
  (∀ f node, node_store_ example_state !! f = Some node →
    history_size node <= 2 ∧
    ∃ l, log !! f = Some l ∧ history node = take (Z.to_nat 2) l ∧
      (accesses example_ops < SizeT.modulus → StronglySorted Z.gt l)) ∧
  (∀ f a s', RecordAccess f a example_state = Ok s' →
    let l' := current_timestamp_ example_state :: default [] (log !! f) in
    ∃ node', node_store_ s' !! f = Some node' ∧
      history node' = take (Z.to_nat 2) l' ∧
      (accesses example_ops < SizeT.modulus → StronglySorted Z.gt l')).
Proof.
  apply (history_keeps_recent_accesses 7 2 example_ops example_state).
  - repeat constructor; unfold is_frame_id; lia.
  - by vm_compute.
Defined.

(** ** C10: the two lists *)

(** C10: in every reachable state, a tracked frame is in [fifo_list_]
    exactly when its history is shorter than K and in [lru_list_] exactly
    when its history has K entries, and it is in one of them; no frame is
    in both lists, an untracked frame is in neither, and no list holds a
    frame twice. *)
Theorem lists_partition_tracked (num_frames k : Z) (s : LRUKReplacer) :
  reachable num_frames k s →
  (∀ f node, node_store_ s !! f = Some node →
    (f ∈ ptrs (fifo_list_ s) ↔ history_size node < k) ∧
    (f ∈ ptrs (lru_list_ s) ↔ history_size node = k) ∧
    (f ∈ ptrs (fifo_list_ s) ∨ f ∈ ptrs (lru_list_ s))) ∧
  (∀ f, ¬ (f ∈ ptrs (fifo_list_ s) ∧ f ∈ ptrs (lru_list_ s))) ∧
  (∀ f, node_store_ s !! f = None →
    (f ∉ ptrs (fifo_list_ s)) ∧ (f ∉ ptrs (lru_list_ s))) ∧
  NoDup (ptrs (fifo_list_ s)) ∧ NoDup (ptrs (lru_list_ s)).
Proof.
  intros [Hwf _ _ Hk _]%reachable_inv. subst k.
  assert (∀ f, f ∈ ptrs (fifo_list_ s) →
    ∃ node, node_store_ s !! f = Some node ∧ history_size node < k_ s) as Hfifo.
  { intros f [it Hin]%elem_of_ptrs.
    destruct (wf_fifo s Hwf it f Hin) as (node & ? & ? & _). eauto. }
  assert (∀ f, f ∈ ptrs (lru_list_ s) →
    ∃ node, node_store_ s !! f = Some node ∧ history_size node = k_ s) as Hlru.
  { intros f [it Hin]%elem_of_ptrs.
    destruct (wf_lru s Hwf it f Hin) as (node & ? & ? & _). eauto. }
  split_and!; try apply Hwf.
  - intros f node Hf. pose proof (wf_node s Hwf f node Hf) as [_ Hle]. split_and!.
    + split; [|by apply (wf_short s Hwf)].
      intros (n0 & Hn0 & Hlt)%Hfifo. by simplify_eq.
    + split; [|by apply (wf_full s Hwf)].
      intros (n0 & Hn0 & Hlt)%Hlru. by simplify_eq.
    + destruct (decide (history_size node < k_ s)).
      * left. by apply (wf_short s Hwf f node).
      * right. apply (wf_full s Hwf f node); [done|lia].
  - intros f [(n1 & Hn1 & Hlt)%Hfifo (n2 & Hn2 & Heq)%Hlru]. simplify_eq. lia.
  - intros f Hf. split.
    + intros (n0 & Hn0 & _)%Hfifo. congruence.
    + intros (n0 & Hn0 & _)%Hlru. congruence.
Qed.

Lemma lists_partition_tracked_witness :
  (∀ f node, node_store_ example_state !! f = Some node →
    (f ∈ ptrs (fifo_list_ example_state) ↔ history_size node < 2) ∧
    (f ∈ ptrs (lru_list_ example_state) ↔ history_size node = 2) ∧
    (f ∈ ptrs (fifo_list_ example_state) ∨ f ∈ ptrs (lru_list_ example_state))) ∧
  (∀ f, ¬ (f ∈ ptrs (fifo_list_ example_state) ∧ f ∈ ptrs (lru_list_ example_state))) ∧
  (∀ f, node_store_ example_state !! f = None →
    (f ∉ ptrs (fifo_list_ example_state)) ∧ (f ∉ ptrs (lru_list_ example_state))) ∧
  NoDup (ptrs (fifo_list_ example_state)) ∧ NoDup (ptrs (lru_list_ example_state)).
Proof.
  apply (lists_partition_tracked 7 2 example_state).
  exists example_ops. split; [repeat constructor; unfold is_frame_id; lia|].
  by vm_compute.
Defined.

(** * Further properties of the operations *)

(** ** [Evict] *)

Lemma evictable_count_pos (store : gmap Z LRUKNode) (f : Z) (node : LRUKNode) :
  store !! f = Some node → is_evictable node = true → (1 ≤ evictable_count store)%nat.
Proof.
  intros Hf Hev. rewrite (evictable_count_delete store f), Hf. simpl. rewrite Hev. lia.
Qed.

(** The counter after the loss of an evictable node. *)
Lemma decr_curr_size (s : LRUKReplacer) (f : Z) (node : LRUKNode) :
  counted s → node_store_ s !! f = Some node → is_evictable node = true →
  SizeT.decr (curr_size_ s) = curr_size_ s - 1.
Proof.
  intros Hc Hf Hev. pose proof (counted_bound s Hc) as Hb.
  pose proof (evictable_count_pos _ f node Hf Hev) as Hpos.
  pose proof (counted_size s Hc) as Hsize. pose proof modulus_eq as Hmod.
  apply decr_small; lia.
Qed.

(** X1: in a reachable state [Evict] always returns: it never dereferences a
    dangling pointer and never erases through an invalid iterator. *)
Theorem Evict_returns (num_frames k : Z) (s : LRUKReplacer) :
  reachable num_frames k s → ∃ r s', Evict s = Ok (r, s').
Proof. intros [Hwf _ _ _ _]%reachable_inv. by apply Evict_defined. Qed.

Lemma Evict_returns_witness : ∃ r s', Evict example_state = Ok (r, s').
Proof.
  apply (Evict_returns 7 2 example_state).
  exists example_ops. split; [repeat constructor; unfold is_frame_id; lia|].
  by vm_compute.
Defined.

(** X2: when [Evict] returns a victim in a reachable state, the victim was
    tracked and evictable; afterwards its node is gone and every other node
    is as before, [Size()] is one less, the clock has not moved, and the
    victim's element has left the one list that held it, the order of the
    other elements and the other list being unchanged. *)
Theorem Evict_victim_effect (num_frames k : Z) (s s' : LRUKReplacer) (v : Z) :
  reachable num_frames k s → Evict s = Ok (Some v, s') →
  (∃ node, node_store_ s !! v = Some node ∧ is_evictable node = true) ∧
  node_store_ s' = delete v (node_store_ s) ∧
  Size s' = Size s - 1 ∧
  current_timestamp_ s' = current_timestamp_ s ∧
  ((∃ l1 it l2, fifo_list_ s = l1 ++ (it, v) :: l2 ∧ fifo_list_ s' = l1 ++ l2 ∧
      lru_list_ s' = lru_list_ s) ∨
   (∃ l1 it l2, lru_list_ s = l1 ++ (it, v) :: l2 ∧ lru_list_ s' = l1 ++ l2 ∧
      fifo_list_ s' = fifo_list_ s)) ∧
  (v ∉ ptrs (fifo_list_ s')) ∧ (v ∉ ptrs (lru_list_ s')).
Proof.
  intros Hreach Hev. pose proof (reachable_inv _ _ _ Hreach) as [Hwf _ Hc _ _].
  pose proof (wf_Evict s s' (Some v) Hwf Hev) as Hwf'.
  assert (node_store_ s' !! v = None →
    (v ∉ ptrs (fifo_list_ s')) ∧ (v ∉ ptrs (lru_list_ s'))) as Hgone.
  { intros Hnone. split; intros [it Hin]%elem_of_ptrs.
    - destruct (wf_fifo s' Hwf' it v Hin) as (? & ? & _). congruence.
    - destruct (wf_lru s' Hwf' it v Hin) as (? & ? & _). congruence. }
  pose proof (Evict_Ok s s' (Some v) Hwf Hev) as Hspec.
  inversion Hspec as [| l1 [it p] l2 node Hl Hn Hevn Hpin Hv Hs'
                      | | l1 [it p] l2 node Hfifo Hl Hn Hevn Hpin Hv Hs'];
    simpl in *; subst p;
    (destruct Hgone as [Hg1 Hg2]; [rewrite <-Hs'; simpl; apply lookup_delete_eq|]);
    subst s'.
  - split_and!; try done.
    + eauto.
    + unfold Size. simpl. by apply (decr_curr_size s v node).
    + left. by exists l1, it, l2.
  - split_and!; try done.
    + eauto.
    + unfold Size. simpl. by apply (decr_curr_size s v node).
    + right. by exists l1, it, l2.
Qed.

(** The state [Evict] leaves, for the examples. *)
Definition after_Evict (s : LRUKReplacer) : LRUKReplacer :=
  match Evict s with
  | Ok (_, s') => s'
  | _ => s
  end.

Lemma Evict_victim_effect_witness :
  (∃ node, node_store_ example_state !! 2 = Some node ∧ is_evictable node = true) ∧
  node_store_ (after_Evict example_state) = delete 2 (node_store_ example_state) ∧
  Size (after_Evict example_state) = Size example_state - 1 ∧
  current_timestamp_ (after_Evict example_state) = current_timestamp_ example_state ∧
  ((∃ l1 it l2, fifo_list_ example_state = l1 ++ (it, 2) :: l2 ∧
      fifo_list_ (after_Evict example_state) = l1 ++ l2 ∧
      lru_list_ (after_Evict example_state) = lru_list_ example_state) ∨
   (∃ l1 it l2, lru_list_ example_state = l1 ++ (it, 2) :: l2 ∧
      lru_list_ (after_Evict example_state) = l1 ++ l2 ∧
      fifo_list_ (after_Evict example_state) = fifo_list_ example_state)) ∧
  (2 ∉ ptrs (fifo_list_ (after_Evict example_state))) ∧
  (2 ∉ ptrs (lru_list_ (after_Evict example_state))).
Proof.
  apply (Evict_victim_effect 7 2 example_state (after_Evict example_state) 2).
  - exists example_ops. split; [repeat constructor; unfold is_frame_id; lia|].
    by vm_compute.
  - by vm_compute.
Defined.

Lemma Evict_None_inv (s s' : LRUKReplacer) :
  wf s → Evict s = Ok (None, s') →
  s' = s ∧
  ((fifo_list_ s ≠ [] ∧ Forall (pinned (node_store_ s)) (fifo_list_ s)) ∨
   (fifo_list_ s = [] ∧ Forall (pinned (node_store_ s)) (lru_list_ s))).
Proof.
  intros Hwf Hev. pose proof (Evict_Ok s s' None Hwf Hev) as Hspec.
  remember None as r eqn:Hr. destruct Hspec; try discriminate; auto.
Qed.

Lemma Evict_Some_inv (s s' : LRUKReplacer) (v : Z) :
  wf s → Evict s = Ok (Some v, s') →
  ∃ (l1 : list element) it (l2 : list element) node,
    node_store_ s !! v = Some node ∧ is_evictable node = true ∧
    ((fifo_list_ s = l1 ++ (it, v) :: l2 ∧ s' = evicted_fifo l1 l2 (it, v) s) ∨
     (fifo_list_ s = [] ∧ lru_list_ s = l1 ++ (it, v) :: l2 ∧
      s' = evicted_lru l1 l2 (it, v) s)).
Proof.
  intros Hwf Hev. pose proof (Evict_Ok s s' (Some v) Hwf Hev) as Hspec.
  remember (Some v) as r eqn:Hr.
  destruct Hspec as [| l1 [it p] l2 node Hl Hn Hevn Hpin
                     | | l1 [it p] l2 node Hfifo Hl Hn Hevn Hpin];
    try discriminate; injection Hr as <-; simpl in *;
    exists l1, it, l2, node; split_and!; auto.
Qed.

(** X3: in a reachable state [Evict] returns no victim exactly when
    no evictable frame has fewer than K accesses and, besides, either some
    frame has fewer than K accesses or no frame is evictable at all; the
    state is then unchanged. *)
Theorem Evict_none_iff (num_frames k : Z) (s : LRUKReplacer) :
  reachable num_frames k s →
  (victim (Evict s) = Ok None ↔
    (∀ f node, node_store_ s !! f = Some node → is_evictable node = true →
      history_size node = k) ∧
    ((∃ f node, node_store_ s !! f = Some node ∧ history_size node < k) ∨
     (∀ f node, node_store_ s !! f = Some node → is_evictable node = false))) ∧
  (∀ s', Evict s = Ok (None, s') → s' = s).
Proof.
  intros [Hwf _ _ Hk _]%reachable_inv. subst k.
  assert (∀ l f node, Forall (pinned (node_store_ s)) l → f ∈ ptrs l →
    node_store_ s !! f = Some node → is_evictable node = false) as Hpinned.
  { intros l f node Hpin [it Hin]%elem_of_ptrs Hf. rewrite Forall_forall in Hpin.
    destruct (Hpin _ Hin) as (n0 & Hn0 & Hev). simpl in Hn0. congruence. }
  split; [split|].
  - intros H. unfold victim in H. apply bind_Ok in H as ([r s'] & Hev & [= ->]).
    destruct (Evict_None_inv s s' Hwf Hev) as [_ [[Hne Hpin]|[Hnil Hpin]]].
    + split.
      * intros f node Hf Hevn. pose proof (wf_node s Hwf f node Hf) as [_ Hle].
        destruct (decide (history_size node < k_ s)) as [Hlt|]; [|lia].
        pose proof (wf_short s Hwf f node Hf Hlt) as Hin.
        pose proof (Hpinned _ f node Hpin Hin Hf). congruence.
      * left. destruct (fifo_list_ s) as [|[it p] l] eqn:Hl; [done|].
        destruct (wf_fifo s Hwf it p) as (node & Hn & Hlt & _); [rewrite Hl; set_solver|].
        eauto.
    + assert (∀ f node, node_store_ s !! f = Some node → is_evictable node = false) as Hall.
      { intros f node Hf. pose proof (wf_node s Hwf f node Hf) as [_ Hle].
        destruct (decide (history_size node < k_ s)) as [Hlt|].
        - pose proof (wf_short s Hwf f node Hf Hlt) as Hin.
          rewrite Hnil in Hin. by apply elem_of_nil in Hin.
        - apply (Hpinned (lru_list_ s) f node); [done| |done].
          apply (wf_full s Hwf f node); [done|lia]. }
      split; [|by right]. intros f node Hf Hevn. rewrite (Hall f node Hf) in Hevn. done.
  - intros [Hfull Hor]. destruct (Evict_defined s Hwf) as ([v|] & s' & Hev);
      unfold victim; rewrite Hev; [exfalso|done].
    destruct (Evict_Some_inv s s' v Hwf Hev)
      as (l1 & it & l2 & node & Hn & Hevn & [[Hl _]|(Hfifo & Hl & _)]).
    + destruct (wf_fifo s Hwf it v) as (n0 & Hn0 & Hlt & _); [rewrite Hl; set_solver|].
      simplify_eq. pose proof (Hfull v node Hn Hevn). lia.
    + destruct Hor as [(f & n0 & Hf & Hlt)|Hall].
      * pose proof (wf_short s Hwf f n0 Hf Hlt) as Hin. rewrite Hfifo in Hin.
        by apply elem_of_nil in Hin.
      * rewrite (Hall v node Hn) in Hevn. done.
  - intros s' Hev. by destruct (Evict_None_inv s s' Hwf Hev).
Qed.

Lemma Evict_none_iff_witness :
  (victim (Evict pinned_fifo_state) = Ok None ↔
    (∀ f node, node_store_ pinned_fifo_state !! f = Some node →
      is_evictable node = true → history_size node = 2) ∧
    ((∃ f node, node_store_ pinned_fifo_state !! f = Some node ∧ history_size node < 2) ∨
     (∀ f node, node_store_ pinned_fifo_state !! f = Some node →
       is_evictable node = false))) ∧
  (∀ s', Evict pinned_fifo_state = Ok (None, s') → s' = pinned_fifo_state).
Proof.
  apply (Evict_none_iff 7 2 pinned_fifo_state).
  exists [OpRecordAccess 1 Unknown; OpRecordAccess 2 Unknown;
          OpRecordAccess 2 Unknown; OpSetEvictable 2 true].
  split; [repeat constructor; unfold is_frame_id; lia|]. by vm_compute.
Defined.

(** X4: in a reachable state with [Size() = 0], [Evict] returns no victim
    and changes nothing. *)
Theorem Evict_of_size_zero (num_frames k : Z) (s : LRUKReplacer) :
  reachable num_frames k s → Size s = 0 → Evict s = Ok (None, s).
Proof.
  intros [Hwf _ Hc _ _]%reachable_inv Hzero.
  destruct (Evict_defined s Hwf) as ([v|] & s' & Hev); rewrite Hev.
  - destruct (Evict_Some_inv s s' v Hwf Hev) as (_ & _ & _ & node & Hn & Hevn & _).
    pose proof (evictable_count_pos _ _ node Hn Hevn).
    pose proof (counted_size s Hc). unfold Size in Hzero. lia.
  - by destruct (Evict_None_inv s s' Hwf Hev) as [-> _].
Qed.

(** Capacity 7, history depth 2: frame 1 is accessed twice and frame 2 once;
    no frame is evictable. *)
Definition all_pinned_state : LRUKReplacer :=
  state_of (run [OpRecordAccess 1 Unknown; OpRecordAccess 1 Unknown;
                 OpRecordAccess 2 Unknown]
            (LRUKReplacer_new 7 2)).

Lemma Evict_of_size_zero_witness :
  Evict all_pinned_state = Ok (None, all_pinned_state).
Proof.
  apply (Evict_of_size_zero 7 2 all_pinned_state).
  - exists [OpRecordAccess 1 Unknown; OpRecordAccess 1 Unknown;
            OpRecordAccess 2 Unknown].
    split; [repeat constructor; unfold is_frame_id; lia|]. by vm_compute.
  - by vm_compute.
Defined.

(** The node store, the counter and the clock after an eviction. *)
Lemma Evict_victim_effect_aux (s s' : LRUKReplacer) (v : Z) :
  wf s ∧ counted s → Evict s = Ok (Some v, s') →
  node_store_ s' = delete v (node_store_ s) ∧
  curr_size_ s' = curr_size_ s - 1 ∧
  current_timestamp_ s' = current_timestamp_ s.
Proof.
  intros [Hwf Hc] Hev.
  destruct (Evict_Some_inv s s' v Hwf Hev)
    as (l1 & it & l2 & node & Hn & Hevn & [[_ ->]|(_ & _ & ->)]); simpl;
    by rewrite (decr_curr_size s v node).
Qed.

(** ** [SetEvictable] *)

(** The counter after [SetEvictable] found the flag [old] and set it to [b]. *)
Definition size_after (old b : bool) (size : Z) : Z :=
  if old && negb b then SizeT.decr size
  else if negb old && b then SizeT.incr size
  else size.

(** [SetEvictable] on a tracked frame, field by field. *)
Lemma SetEvictable_tracked (f : Z) (b : bool) (s : LRUKReplacer) (node : LRUKNode) :
  node_store_ s !! f = Some node →
  SetEvictable f b s =
    mkLRUKReplacer (lru_list_ s) (fifo_list_ s)
      (<[f := set_is_evictable b node]> (node_store_ s))
      (fid_to_lru_iter_ s) (fid_to_fifo_iter_ s) (current_timestamp_ s)
      (size_after (is_evictable node) b (curr_size_ s))
      (replacer_size_ s) (k_ s) (next_iter_ s).
Proof.
  intros Hf. unfold SetEvictable, size_after. rewrite Hf.
  by destruct (is_evictable node), b.
Qed.

(** X5: setting the flag of a frame twice to the same value is the same as
    setting it once, in every state. *)
Theorem SetEvictable_idempotent (f : Z) (b : bool) (s : LRUKReplacer) :
  SetEvictable f b (SetEvictable f b s) = SetEvictable f b s.
Proof.
  destruct (node_store_ s !! f) as [node|] eqn:Hf.
  - rewrite (SetEvictable_tracked f b s node Hf).
    erewrite SetEvictable_tracked by (simpl; apply lookup_insert_eq).
    simpl. rewrite insert_insert_eq. f_equal. unfold size_after.
    by destruct b.
  - assert (SetEvictable f b s = s) as Hs by (unfold SetEvictable; by rewrite Hf).
    by rewrite !Hs.
Qed.

Lemma set_is_evictable_same (node : LRUKNode) :
  set_is_evictable (is_evictable node) node = node.
Proof. by destruct node. Qed.

(** X6: in a reachable state, changing the flag of a tracked frame and then
    setting it back to what it was restores the state, [Size()] included. *)
Theorem SetEvictable_back (num_frames k : Z) (s : LRUKReplacer) (f : Z)
    (node : LRUKNode) (b : bool) :
  reachable num_frames k s → node_store_ s !! f = Some node →
  SetEvictable f (is_evictable node) (SetEvictable f b s) = s.
Proof.
  intros [_ _ Hc _ _]%reachable_inv Hf.
  pose proof (counted_bound s Hc) as Hb. pose proof modulus_eq as Hmod.
  pose proof (counted_size s Hc) as Hsize.
  rewrite (SetEvictable_tracked f b s node Hf).
  erewrite SetEvictable_tracked by (simpl; apply lookup_insert_eq).
  simpl. rewrite insert_insert_eq.
  assert (set_is_evictable (is_evictable node) (set_is_evictable b node) = node) as ->
    by by destruct node.
  rewrite insert_id by done.
  assert (size_after b (is_evictable node)
    (size_after (is_evictable node) b (curr_size_ s)) = curr_size_ s) as ->;
    [|by destruct s].
  unfold size_after. destruct (is_evictable node) eqn:Hev, b; simpl; try done.
  - pose proof (evictable_count_pos _ f node Hf Hev).
    rewrite decr_small by lia. rewrite incr_small by lia. lia.
  - rewrite incr_small by lia. rewrite decr_small by lia. lia.
Qed.

Lemma SetEvictable_back_witness :
  SetEvictable 1 (is_evictable {| is_evictable := true; history := [4; 0]; fid := 1; node_k_ := 2 |})
    (SetEvictable 1 false example_state) = example_state.
Proof.
  apply (SetEvictable_back 7 2 example_state 1
    {| is_evictable := true; history := [4; 0]; fid := 1; node_k_ := 2 |} false).
  - exists example_ops. split; [repeat constructor; unfold is_frame_id; lia|].
    by vm_compute.
  - by vm_compute.
Defined.

(** ** [Remove] *)

(** X7: when [Remove] returns in a reachable state, either the frame was not
    tracked or not evictable and nothing has changed, or the frame was
    evictable with fewer than K accesses: then its node is gone and every
    other node is as before, its element has left [fifo_list_], the order
    of the other elements and [lru_list_] being unchanged, [Size()] is one
    less and the clock has not moved. *)
Theorem Remove_effect (num_frames k : Z) (s s' : LRUKReplacer) (f : Z) :
  reachable num_frames k s → Remove f s = Ok s' →
  (s' = s ∧ evictable s f = false) ∨
  (∃ node (l1 : list element) it (l2 : list element),
    node_store_ s !! f = Some node ∧ is_evictable node = true ∧
    history_size node < k ∧
    fifo_list_ s = l1 ++ (it, f) :: l2 ∧ fifo_list_ s' = l1 ++ l2 ∧
    lru_list_ s' = lru_list_ s ∧
    node_store_ s' = delete f (node_store_ s) ∧
    Size s' = Size s - 1 ∧ current_timestamp_ s' = current_timestamp_ s).
Proof.
  intros [Hwf _ Hc Hk _]%reachable_inv H. subst k.
  destruct (Remove_Ok s s' f Hwf H) as [Hf|node Hf Hev|node l1 it l2 Hf Hev Hlt Hl].
  - left. split; [done|]. unfold evictable. by rewrite Hf.
  - left. split; [done|]. unfold evictable. by rewrite Hf.
  - right. exists node, l1, it, l2. split_and!; try done.
    unfold Size. simpl. by apply (decr_curr_size s f node).
Qed.

(** The state [Remove] leaves, for the examples. *)
Definition after_Remove (f : Z) (s : LRUKReplacer) : LRUKReplacer :=
  state_of (Remove f s).

Lemma Remove_effect_witness :
  (after_Remove 3 example_state = example_state ∧ evictable example_state 3 = false) ∨
  (∃ node (l1 : list element) it (l2 : list element),
    node_store_ example_state !! 3 = Some node ∧ is_evictable node = true ∧
    history_size node < 2 ∧
    fifo_list_ example_state = l1 ++ (it, 3) :: l2 ∧
    fifo_list_ (after_Remove 3 example_state) = l1 ++ l2 ∧
    lru_list_ (after_Remove 3 example_state) = lru_list_ example_state ∧
    node_store_ (after_Remove 3 example_state) = delete 3 (node_store_ example_state) ∧
    Size (after_Remove 3 example_state) = Size example_state - 1 ∧
    current_timestamp_ (after_Remove 3 example_state)
      = current_timestamp_ example_state).
Proof.
  apply (Remove_effect 7 2 example_state (after_Remove 3 example_state) 3).
  - exists example_ops. split; [repeat constructor; unfold is_frame_id; lia|].
    by vm_compute.
  - by vm_compute.
Defined.



(** Capacity 7, history depth 2: frame 1 reaches two accesses, is evicted,
    and is accessed again once; [fid_to_lru_iter_] still has its entry. *)
Definition reenrolled_state : LRUKReplacer :=
  state_of (run [OpRecordAccess 1 Unknown; OpRecordAccess 1 Unknown;
                 OpSetEvictable 1 true; OpEvict;
                 OpRecordAccess 1 Unknown; OpSetEvictable 1 true]
            (LRUKReplacer_new 7 2)).


Example Remove_reenrolled_undefined :
  ptrs (fifo_list_ reenrolled_state) = [1] ∧ ptrs (lru_list_ reenrolled_state) = [] ∧
  Remove 1 reenrolled_state = Undefined.
Proof. by vm_compute. Qed.

(** ** [RecordAccess] *)

(** An access that returns implies a history depth of at least one. *)
Lemma RecordAccess_Ok_depth (num_frames k : Z) (s s' : LRUKReplacer) (f : Z)
    (a : AccessType) :
  inv num_frames k s → RecordAccess f a s = Ok s' → 1 <= k_ s.
Proof.
  intros [Hwf Hacc _ _ _] H. destruct (Z.le_gt_cases 1 (k_ s)) as [|Hk0]; [done|].
  exfalso. eapply RecordAccess_depth_zero; [done..| |done]. lia.
Qed.

(** X9: a call of [RecordAccess] that returns in a reachable state changes
    no record but that of the accessed frame, whose evictable flag it
    keeps; a record it creates is not evictable.  [Size()] is unchanged and
    the clock advances by one, modulo [2^64]. *)
Theorem RecordAccess_effect (num_frames k : Z) (s s' : LRUKReplacer) (f : Z)
    (a : AccessType) :
  reachable num_frames k s → RecordAccess f a s = Ok s' →
  (∀ f', f' ≠ f → node_store_ s' !! f' = node_store_ s !! f') ∧
  (∃ node', node_store_ s' !! f = Some node' ∧ fid node' = f ∧
     is_evictable node' = evictable s f) ∧
  Size s' = Size s ∧
  current_timestamp_ s' = SizeT.incr (current_timestamp_ s).
Proof.
  intros Hinv%reachable_inv H.
  pose proof (RecordAccess_Ok_depth _ _ _ _ _ _ Hinv H) as Hk1.
  destruct (RecordAccess_store s s' f a (inv_wf _ _ _ Hinv) Hk1 H)
    as (node' & Hst & Hfid & Hev & _ & Hts & Hsz & _).
  split_and!; try done.
  - intros f' Hne. rewrite Hst. by apply lookup_insert_ne.
  - exists node'. rewrite Hst, lookup_insert_eq. by split_and!.
Qed.

(** The state [RecordAccess] leaves, for the examples. *)
Definition after_RecordAccess (f : Z) (a : AccessType) (s : LRUKReplacer) : LRUKReplacer :=
  state_of (RecordAccess f a s).

Lemma RecordAccess_effect_witness :
  (∀ f', f' ≠ 5 →
    node_store_ (after_RecordAccess 5 Index example_state) !! f'
    = node_store_ example_state !! f') ∧
  (∃ node', node_store_ (after_RecordAccess 5 Index example_state) !! 5 = Some node' ∧
     fid node' = 5 ∧ is_evictable node' = evictable example_state 5) ∧
  Size (after_RecordAccess 5 Index example_state) = Size example_state ∧
  current_timestamp_ (after_RecordAccess 5 Index example_state)
    = SizeT.incr (current_timestamp_ example_state).
Proof.
  apply (RecordAccess_effect 7 2 example_state
    (after_RecordAccess 5 Index example_state) 5 Index).
  - exists example_ops. split; [repeat constructor; unfold is_frame_id; lia|].
    by vm_compute.
  - by vm_compute.
Defined.

(** X10: after [Evict] returned the frame [v] in a reachable state, a call
    of [RecordAccess] on [v] that returns starts a new record: it is not
    evictable and its history holds the timestamp of that call only;
    [Size()] is one less than before the eviction. *)
Theorem RecordAccess_after_Evict (num_frames k : Z) (s s1 s2 : LRUKReplacer)
    (v : Z) (a : AccessType) :
  reachable num_frames k s →
  Evict s = Ok (Some v, s1) → RecordAccess v a s1 = Ok s2 →
  (∃ node, node_store_ s2 !! v = Some node ∧ is_evictable node = false ∧
     history node = [current_timestamp_ s]) ∧
  Size s2 = Size s - 1.
Proof.
  intros Hreach Hev Hacc.
  destruct (Evict_victim_effect_aux s s1 v) as (Hst & Hsz & Hts);
    [by apply reachable_inv in Hreach as []|done|].
  assert (inv num_frames k s1) as Hinv1.
  { apply (inv_exec num_frames k OpEvict s); [done|by apply reachable_inv|].
    simpl. by rewrite Hev. }
  pose proof (RecordAccess_Ok_depth _ _ _ _ _ _ Hinv1 Hacc) as Hk1.
  destruct (RecordAccess_store s1 s2 v a (inv_wf _ _ _ Hinv1) Hk1 Hacc)
    as (node' & Hst2 & _ & Hevn & Hh & _ & Hsz2 & _).
  rewrite Hst, lookup_delete_eq in Hevn, Hh. simpl in Hevn, Hh.
  split.
  - exists node'. rewrite Hst2, lookup_insert_eq. split_and!; try done.
    rewrite Hh, Hts. apply take_ge. simpl. lia.
  - unfold Size. by rewrite Hsz2.
Qed.

Lemma RecordAccess_after_Evict_witness :
  (∃ node,
     node_store_ (after_RecordAccess 2 Unknown (after_Evict example_state)) !! 2
       = Some node ∧
     is_evictable node = false ∧
     history node = [current_timestamp_ example_state]) ∧
  Size (after_RecordAccess 2 Unknown (after_Evict example_state))
    = Size example_state - 1.
Proof.
  apply (RecordAccess_after_Evict 7 2 example_state (after_Evict example_state)
    (after_RecordAccess 2 Unknown (after_Evict example_state)) 2 Unknown).
  - exists example_ops. split; [repeat constructor; unfold is_frame_id; lia|].
    by vm_compute.
  - by vm_compute.
  - by vm_compute.
Defined.

(** The clock after one call. *)
Lemma clock_exec (num_frames k : Z) (o : op) (s s' : LRUKReplacer) :
  inv num_frames k s → exec o s = Ok s' →
  current_timestamp_ s' =
    match o with
    | OpRecordAccess _ _ => SizeT.incr (current_timestamp_ s)
    | _ => current_timestamp_ s
    end.
Proof.
  intros Hinv. pose proof Hinv as [Hwf _ _ _ _].
  destruct o as [f a|f b| |f]; simpl.
  - intros H. pose proof (RecordAccess_Ok_depth _ _ _ _ _ _ Hinv H) as Hk1.
    by destruct (RecordAccess_store s s' f a Hwf Hk1 H) as (_ & _ & _ & _ & _ & -> & _).
  - intros [= <-]. by destruct (SetEvictable_fields f b s) as (_ & _ & -> & _).
  - intros H. apply bind_Ok in H as ([r s0] & Hev & [= <-]).
    by destruct (Evict_Ok s s0 r Hwf Hev).
  - intros H. by destruct (Remove_Ok s s' f Hwf H).
Qed.

Lemma clock_run (num_frames k : Z) (ops : list op) (s s' : LRUKReplacer) :
  Forall valid_op ops → inv num_frames k s →
  0 <= current_timestamp_ s < SizeT.modulus → run ops s = Ok s' →
  current_timestamp_ s' = SizeT.wrap (current_timestamp_ s + accesses ops).
Proof.
  intros Hvalid. revert s.
  induction Hvalid as [|o ops Ho _ IH]; intros s Hinv Hrange; simpl run.
  - intros [= <-]. unfold SizeT.wrap. simpl. rewrite Z.add_0_r.
    by rewrite Z.mod_small.
  - intros H. apply bind_Ok in H as (s1 & Hs1 & H).
    pose proof (clock_exec num_frames k o s s1 Hinv Hs1) as Hts1.
    pose proof (inv_exec num_frames k o s s1 Ho Hinv Hs1) as Hinv1.
    assert (SizeT.modulus > 0) as Hpos by (rewrite modulus_eq; lia).
    rewrite accesses_cons.
    destruct o as [f a|f b| |f]; simpl accesses; rewrite ?Z.add_0_r in *;
      try (rewrite <-Hts1; simpl; apply IH; [done|by rewrite Hts1|done]).
    rewrite (IH s1 Hinv1); [|rewrite Hts1; apply Z.mod_pos_bound; lia|done].
    rewrite Hts1. unfold SizeT.incr, SizeT.wrap.
    rewrite Zplus_mod_idemp_l. f_equal. lia.
Qed.

(** X11: after a run of calls on a freshly constructed replacer,
    [current_timestamp_] is the number of [RecordAccess] calls of the run,
    modulo [2^64]: every access advances the clock by one, and no other
    operation touches it. *)
Theorem clock_counts_accesses (num_frames k : Z) (ops : list op) (s : LRUKReplacer) :
  Forall valid_op ops → run ops (LRUKReplacer_new num_frames k) = Ok s →
  current_timestamp_ s = accesses ops mod 2 ^ 64.
Proof.
  intros Hvalid Hrun.
  rewrite (clock_run num_frames k ops (LRUKReplacer_new num_frames k) s);
    [done|done|apply inv_new|simpl; rewrite modulus_eq; lia|done].
Qed.

Lemma clock_counts_accesses_witness :
  current_timestamp_ example_state = accesses example_ops mod 2 ^ 64.
Proof.
  apply (clock_counts_accesses 7 2 example_ops example_state).
  - repeat constructor; unfold is_frame_id; lia.
  - by vm_compute.
Defined.

(** The frames of a list other than [f], in order. *)
Definition others (f : Z) (l : list Z) : list Z := filter (λ p, p ≠ f) l.

Lemma others_notin (f : Z) (l : list Z) : f ∉ l → others f l = l.
Proof.
  unfold others. induction l as [|x l IH]; [done|].
  intros [Hne Hnin]%not_elem_of_cons. rewrite filter_cons_True by done.
  by rewrite IH.
Qed.

Lemma others_middle (f : Z) (l1 l2 : list Z) :
  f ∉ l1 ++ l2 → others f (l1 ++ f :: l2) = l1 ++ l2.
Proof.
  intros [H1 H2]%not_elem_of_app. unfold others.
  rewrite filter_app, filter_cons_False by (intros ?; done).
  fold (others f l1) (others f l2). by rewrite !others_notin.
Qed.

Lemma ptrs_enroll (f : Z) (s : LRUKReplacer) :
  lru_list_ (enroll f s) = lru_list_ s ∧
  ptrs (fifo_list_ (enroll f s)) =
    match node_store_ s !! f with
    | Some _ => ptrs (fifo_list_ s)
    | None => f :: ptrs (fifo_list_ s)
    end.
Proof. unfold enroll. by destruct (node_store_ s !! f). Qed.

(** The lists after the access of a frame that has a node. *)
Lemma touch_spec_lists (s s' : LRUKReplacer) (f : Z) :
  wf s → touch_spec s f s' →
  ∃ node, node_store_ s !! f = Some node ∧
    ((history_size node + 1 < k_ s ∧ lru_list_ s' = lru_list_ s ∧
      fifo_list_ s' = fifo_list_ s) ∨
     (history_size node + 1 = k_ s ∧
      ptrs (lru_list_ s') = f :: ptrs (lru_list_ s) ∧
      ptrs (fifo_list_ s') = others f (ptrs (fifo_list_ s))) ∨
     (history_size node = k_ s ∧ fifo_list_ s' = fifo_list_ s ∧
      f ∈ ptrs (lru_list_ s') ∧
      others f (ptrs (lru_list_ s')) = others f (ptrs (lru_list_ s)))).
Proof.
  intros Hwf Hspec.
  destruct Hspec as [node Hf Hlt|node l1 it l2 Hf Heq Hl|node l1 it l2 l1' l2' Hf Heq Hl Hsplit];
    exists node; (split; [done|]).
  - left. by split_and!.
  - right. left. split_and!; [done|done|]. simpl.
    pose proof (wf_fifo_ptrs s Hwf) as Hnd. rewrite Hl, ptrs_middle in Hnd |- *.
    apply NoDup_middle in Hnd as [Hnin _]. simpl. rewrite ptrs_app.
    symmetry. by apply others_middle.
  - right. right. split_and!; [done|done| |]; simpl.
    + rewrite ptrs_middle. set_solver.
    + pose proof (wf_lru_ptrs s Hwf) as Hnd. rewrite Hl in Hnd |- *.
      rewrite !ptrs_middle in *. apply NoDup_middle in Hnd as [Hnin _]. simpl.
      rewrite (others_middle f (ptrs l1) (ptrs l2)) by done.
      rewrite <-ptrs_app, Hsplit, ptrs_app in Hnin |- *.
      by apply others_middle.
Qed.

(** X12: what a call of [RecordAccess] that returns in a reachable state
    does to the two lists, by the number of accesses the frame had before
    (none if it was not tracked).  If the frame stays below K accesses,
    [lru_list_] is unchanged and [fifo_list_] is unchanged too, but for a
    new frame, which is put at its head.  If the frame reaches K accesses,
    it leaves [fifo_list_] and is put at the head of [lru_list_].  If the
    frame had K accesses, [fifo_list_] is unchanged and the frame is in
    [lru_list_], where the other frames keep their order. *)
Theorem RecordAccess_lists (num_frames k : Z) (s s' : LRUKReplacer) (f : Z)
    (a : AccessType) :
  reachable num_frames k s → RecordAccess f a s = Ok s' →
  let before := default 0 (history_size <$> node_store_ s !! f) in
  (before + 1 < k →
    ptrs (lru_list_ s') = ptrs (lru_list_ s) ∧
    ptrs (fifo_list_ s') =
      match node_store_ s !! f with
      | Some _ => ptrs (fifo_list_ s)
      | None => f :: ptrs (fifo_list_ s)
      end) ∧
  (before + 1 = k →
    ptrs (lru_list_ s') = f :: ptrs (lru_list_ s) ∧
    ptrs (fifo_list_ s') = others f (ptrs (fifo_list_ s))) ∧
  (before = k →
    ptrs (fifo_list_ s') = ptrs (fifo_list_ s) ∧
    f ∈ ptrs (lru_list_ s') ∧
    others f (ptrs (lru_list_ s')) = others f (ptrs (lru_list_ s))).
Proof.
  intros Hinv%reachable_inv H before.
  pose proof (RecordAccess_Ok_depth _ _ _ _ _ _ Hinv H) as Hk1.
  pose proof Hinv as [Hwf _ _ Hk _]. subst k.
  destruct (RecordAccess_Ok s s' f a Hwf Hk1 H) as [_ Hspec].
  apply touch_spec_lists in Hspec as (node & Hnode & Hcases); [|by apply wf_enroll].
  rewrite lookup_enroll in Hnode. injection Hnode as Hnode.
  rewrite k_enroll in Hcases. destruct (ptrs_enroll f s) as [Hlru Hfifo].
  assert (history_size node = before) as Hbefore.
  { rewrite <-Hnode. unfold before. by destruct (node_store_ s !! f). }
  assert (others f (ptrs (fifo_list_ (enroll f s))) = others f (ptrs (fifo_list_ s)))
    as Hothers.
  { rewrite Hfifo. destruct (node_store_ s !! f); [done|].
    unfold others. by rewrite filter_cons_False by (intros ?; done). }
  assert (node_store_ s !! f = None → before = 0) as Hnew.
  { intros Hf. unfold before. by rewrite Hf. }
  rewrite Hbefore, Hlru in Hcases.
  destruct Hcases as [(Hc & Hl1 & Hl2)|[(Hc & Hl1 & Hl2)|(Hc & Hl1 & Hin & Hl2)]];
    (split_and!; intros Hb; try lia).
  - by rewrite Hl1, Hl2, Hfifo.
  - by rewrite Hl1, Hl2, Hothers.
  - split_and!; try done. rewrite Hl1, Hfifo.
    destruct (node_store_ s !! f) eqn:Hf; [done|]. specialize (Hnew eq_refl). lia.
Qed.

Lemma RecordAccess_lists_witness :
  let s' := after_RecordAccess 3 Lookup example_state in
  let before := default 0 (history_size <$> node_store_ example_state !! 3) in
  (before + 1 < 2 →
    ptrs (lru_list_ s') = ptrs (lru_list_ example_state) ∧
    ptrs (fifo_list_ s') =
      match node_store_ example_state !! 3 with
      | Some _ => ptrs (fifo_list_ example_state)
      | None => 3 :: ptrs (fifo_list_ example_state)
      end) ∧
  (before + 1 = 2 →
    ptrs (lru_list_ s') = 3 :: ptrs (lru_list_ example_state) ∧
    ptrs (fifo_list_ s') = others 3 (ptrs (fifo_list_ example_state))) ∧
  (before = 2 →
    ptrs (fifo_list_ s') = ptrs (fifo_list_ example_state) ∧
    3 ∈ ptrs (lru_list_ s') ∧
    others 3 (ptrs (lru_list_ s')) = others 3 (ptrs (lru_list_ example_state))).
Proof.
  apply (RecordAccess_lists 7 2 example_state
    (after_RecordAccess 3 Lookup example_state) 3 Lookup).
  - exists example_ops. split; [repeat constructor; unfold is_frame_id; lia|].
    by vm_compute.
  - by vm_compute.
Defined.

(** ** The order of [lru_list_] *)

(** [e1] may stand before [e2] in [lru_list_]: both nodes have timestamps,
    and the oldest timestamp of [e2] is not the larger one. *)
Definition not_older (store : gmap Z LRUKNode) (e1 e2 : element) : Prop :=
  ∃ t1 t2, oldest store (elem_ptr e1) = Some t1 ∧
    oldest store (elem_ptr e2) = Some t2 ∧ t2 <= t1.

(** [lru_list_] has the most stale frame at its tail. *)
Definition stale_at_tail (s : LRUKReplacer) : Prop :=
  StronglySorted (not_older (node_store_ s)) (lru_list_ s).

Lemma sorted_not_older_ext (st st' : gmap Z LRUKNode) (l : list element) :
  (∀ e, e ∈ l → oldest st' (elem_ptr e) = oldest st (elem_ptr e)) →
  StronglySorted (not_older st) l → StronglySorted (not_older st') l.
Proof.
  intros Hext Hs. induction Hs as [|x l Hs IH Hx]; constructor.
  - apply IH. intros e He. apply Hext. by apply elem_of_cons; right.
  - apply Forall_forall. intros e He. rewrite Forall_forall in Hx.
    destruct (Hx e He) as (t1 & t2 & H1 & H2 & Hle). exists t1, t2.
    rewrite !Hext; [done|by apply elem_of_cons; right|by apply elem_of_cons; left].
Qed.

(** Where the loop of [RecordAccess] stops: every element it passes has an
    oldest timestamp that is not smaller than that of [h], and the element
    it stops at, if any, has a smaller one. *)
Lemma insert_before_smaller_place (store : gmap Z LRUKNode) (h : list Z)
    (e : element) (l l' : list element) (mine : Z) :
  back h = Some mine → insert_before_smaller store h e l = Ok l' →
  ∃ l1 l2, l = l1 ++ l2 ∧ l' = l1 ++ e :: l2 ∧
    Forall (λ x, ∃ b, oldest store (elem_ptr x) = Some b ∧ mine <= b) l1 ∧
    (∀ x l2', l2 = x :: l2' → ∃ b, oldest store (elem_ptr x) = Some b ∧ b < mine).
Proof.
  intros Hmine. revert l'. induction l as [|x l IH]; intros l'; simpl.
  - intros [= <-]. exists [], []. by split_and!.
  - intros H. apply bind_Ok in H as (node & Hn%defined_Ok & H).
    apply bind_Ok in H as (b & Hb%defined_Ok & H). rewrite Hmine in H. simpl in H.
    assert (oldest store (elem_ptr x) = Some b) as Hold.
    { unfold oldest. unfold deref in Hn. by rewrite Hn. }
    destruct (Z.ltb_spec b mine) as [Hlt|Hge].
    + injection H as <-. exists [], (x :: l). split_and!; try done.
      intros x0 l2' [= <- <-]. eauto.
    + apply bind_Ok in H as (l'' & Hl'' & [= <-]).
      destruct (IH l'' Hl'') as (l1 & l2 & -> & -> & Hall & Hstop).
      exists (x :: l1), l2. split_and!; try done. constructor; eauto.
Qed.

Lemma sorted_insert_place (store : gmap Z LRUKNode) (e : element)
    (l1 l2 : list element) (mine : Z) :
  StronglySorted (not_older store) (l1 ++ l2) →
  oldest store (elem_ptr e) = Some mine →
  Forall (λ x, ∃ b, oldest store (elem_ptr x) = Some b ∧ mine <= b) l1 →
  (∀ x l2', l2 = x :: l2' → ∃ b, oldest store (elem_ptr x) = Some b ∧ b < mine) →
  StronglySorted (not_older store) (l1 ++ e :: l2).
Proof.
  intros (Hcross & Hs1 & Hs2)%StronglySorted_app Hmine Hbefore Hstop.
  apply StronglySorted_app. split_and!; [|done|].
  - intros x1 x2 Hx1 [->|Hx2]%elem_of_cons; [|by apply Hcross].
    rewrite Forall_forall in Hbefore. destruct (Hbefore x1 Hx1) as (b & Hb & Hle).
    by exists b, mine.
  - constructor; [done|]. destruct l2 as [|x l2']; [constructor|].
    destruct (Hstop x l2' eq_refl) as (b & Hb & Hlt).
    apply StronglySorted_cons in Hs2 as [Hx _]. constructor.
    + exists mine, b. split_and!; [done|done|lia].
    + apply Forall_forall. intros y Hy. rewrite Forall_forall in Hx.
      destruct (Hx y Hy) as (t1 & t2 & Ht1 & Ht2 & Hle). exists mine, t2.
      split_and!; [done|done|]. rewrite Hb in Ht1. injection Ht1 as <-. lia.
Qed.

(** The access of a frame of [lru_list_], with the place of its new
    element. *)
Lemma touch_full (s s' : LRUKReplacer) (f : Z) (node : LRUKNode) :
  wf s → 1 <= k_ s → node_store_ s !! f = Some node → history_size node = k_ s →
  touch f s = Ok s' →
  let node' := trimmed (k_ s) (current_timestamp_ s) node in
  let store' := <[f := node']> (node_store_ s) in
  ∃ (l1 : list element) it (l2 : list element),
    lru_list_ s = l1 ++ (it, f) :: l2 ∧
    insert_before_smaller store' (history node') (next_iter_ s, f) (l1 ++ l2)
      = Ok (lru_list_ s') ∧
    node_store_ s' = store' ∧ history node' ≠ [].
Proof.
  intros Hwf Hk Hf Hsize. unfold touch. intros H.
  apply bind_Ok in H as (n0 & Hn0%defined_Ok & H). unfold deref in Hn0.
  rewrite Hf in Hn0. injection Hn0 as <-. unfold history_size in Hsize.
  cbn [history set_history length] in H.
  destruct (Z.gtb_spec (Z.of_nat (S (length (history node)))) (k_ s)) as [Hgt|Hngt]; [|lia].
  rewrite pop_back_while_take in H by (simpl; lia).
  apply bind_Ok in H as (it & Hit%defined_Ok & H).
  apply bind_Ok in H as (lru & Hlru%defined_Ok & H).
  apply bind_Ok in H as (lru' & Hlru' & [= <-]).
  unfold iter_at in Hit. simpl in Hit, Hlru, Hlru'.
  destruct (lru_erase_inv s f it lru Hwf Hit Hlru) as (l1 & l2 & Hl & ->).
  exists l1, it, l2. split_and!; try done.
  simpl. intros Hnil%(f_equal length). rewrite length_take in Hnil. simpl in Hnil. lia.
Qed.

Lemma oldest_SetEvictable (f : Z) (b : bool) (s : LRUKReplacer) (p : Z) :
  oldest (node_store_ (SetEvictable f b s)) p = oldest (node_store_ s) p.
Proof.
  rewrite SetEvictable_store. destruct (node_store_ s !! f) as [node|] eqn:Hf; [|done].
  destruct (decide (p = f)) as [->|Hne].
  - rewrite oldest_insert_eq. unfold oldest. by rewrite Hf.
  - by apply oldest_insert_ne.
Qed.

(** The access of a frame that already has K accesses keeps an ordered
    [lru_list_] ordered. *)
Lemma stale_at_tail_reaccess (num_frames k : Z) (s s' : LRUKReplacer)
    (f : Z) (node : LRUKNode) (a : AccessType) :
  reachable num_frames k s → stale_at_tail s →
  node_store_ s !! f = Some node → history_size node = k →
  RecordAccess f a s = Ok s' → stale_at_tail s'.
Proof.
  intros Hinv%reachable_inv Hsorted Hf Hsize H.
  pose proof (RecordAccess_Ok_depth _ _ _ _ _ _ Hinv H) as Hk1.
  pose proof Hinv as [Hwf _ _ Hk _]. rewrite <-Hk in Hsize.
  rewrite RecordAccess_touch in H. apply bind_Ok in H as (_ & _ & H).
  assert (enroll f s = s) as Hen by (unfold enroll; by rewrite Hf).
  rewrite Hen in H.
  destruct (touch_full s s' f node Hwf Hk1 Hf Hsize H)
    as (l1 & it & l2 & Hl & Hins & Hst & Hne).
  destruct (last (history (trimmed (k_ s) (current_timestamp_ s) node)))
    as [mine|] eqn:Hmine; [|by apply last_None in Hmine].
  destruct (insert_before_smaller_place _ _ _ _ _ mine Hmine Hins)
    as (l1' & l2' & Hsplit & Hl' & Hbefore & Hstop).
  unfold stale_at_tail in *. rewrite Hl', Hst. rewrite Hl in Hsorted.
  apply sorted_insert_place with (mine := mine); try done.
  - rewrite <-Hsplit. apply StronglySorted_remove_middle in Hsorted.
    apply (sorted_not_older_ext (node_store_ s)); [|done].
    intros e He. apply oldest_insert_ne.
    pose proof (wf_lru_ptrs s Hwf) as Hnd. rewrite Hl in Hnd.
    by apply (not_elem_of_remove_middle l1 l2 (it, f) Hnd).
  - simpl. by rewrite oldest_insert_eq.
Qed.

(** X13: in a reachable state whose [lru_list_] is ordered by oldest
    timestamp, the most stale frame at the tail, every call that returns
    leaves [lru_list_] ordered in that way, unless it is the access that
    brings a frame to exactly K accesses. *)
Theorem order_kept_without_promotion (num_frames k : Z) (o : op)
    (s s' : LRUKReplacer) :
  reachable num_frames k s → stale_at_tail s → exec o s = Ok s' →
  (∀ f a, o = OpRecordAccess f a →
    default 0 (history_size <$> node_store_ s !! f) + 1 ≠ k) →
  stale_at_tail s'.
Proof.
  intros Hreach Hsorted Hexec Hnot.
  pose proof (reachable_inv _ _ _ Hreach) as Hinv.
  pose proof Hinv as [Hwf _ _ Hk _].
  assert (∀ st', (∀ e, e ∈ lru_list_ s →
      oldest st' (elem_ptr e) = oldest (node_store_ s) (elem_ptr e)) →
    StronglySorted (not_older st') (lru_list_ s)) as Hext.
  { intros st' Hsame. by apply (sorted_not_older_ext (node_store_ s)). }
  destruct o as [f a|f b| |f]; simpl in Hexec.
  - specialize (Hnot f a eq_refl).
    pose proof (RecordAccess_Ok_depth _ _ _ _ _ _ Hinv Hexec) as Hk1.
    destruct (node_store_ s !! f) as [node|] eqn:Hf; simpl in Hnot.
    + pose proof (wf_node s Hwf f node Hf) as [_ Hle].
      destruct (decide (history_size node = k)) as [Heq|Hne];
        [by apply (stale_at_tail_reaccess num_frames k s s' f node a)|].
      destruct (RecordAccess_Ok s s' f a Hwf Hk1 Hexec) as [_ Hspec].
      assert (enroll f s = s) as Hen by (unfold enroll; by rewrite Hf).
      rewrite Hen in Hspec.
      destruct (RecordAccess_store s s' f a Hwf Hk1 Hexec) as (node' & Hst & _).
      apply touch_spec_lists in Hspec as (n0 & Hn0 & Hcases); [|done].
      rewrite Hf in Hn0. injection Hn0 as <-.
      destruct Hcases as [(_ & Hl & _)|[(? & _)|(? & _)]]; [|lia..].
      unfold stale_at_tail. rewrite Hl, Hst. apply Hext.
      intros [it p] He. simpl. apply oldest_insert_ne. intros ->.
      destruct (wf_lru s Hwf it f He) as (n1 & Hn1 & Hsz & _). simplify_eq; try lia.
    + destruct (RecordAccess_Ok s s' f a Hwf Hk1 Hexec) as [_ Hspec].
      destruct (RecordAccess_store s s' f a Hwf Hk1 Hexec) as (node' & Hst & _).
      apply touch_spec_lists in Hspec as (n0 & Hn0 & Hcases); [|by apply wf_enroll].
      rewrite lookup_enroll, Hf in Hn0. injection Hn0 as <-.
      rewrite k_enroll in Hcases. destruct (ptrs_enroll f s) as [Hlru _].
      unfold history_size in Hcases. simpl in Hcases.
      destruct Hcases as [(_ & Hl & _)|[(? & _)|(? & _)]]; [|lia..].
      unfold stale_at_tail. rewrite Hl, Hlru, Hst. apply Hext.
      intros [it p] He. simpl. apply oldest_insert_ne. intros ->.
      destruct (wf_lru s Hwf it f He) as (n1 & Hn1 & _). congruence.
  - injection Hexec as <-. unfold stale_at_tail.
    destruct (SetEvictable_fields f b s) as (_ & _ & _ & _ & ->).
    apply Hext. intros e _. apply oldest_SetEvictable.
  - apply bind_Ok in Hexec as ([[v|] s0] & Hev & [= <-]).
    + destruct (Evict_Some_inv s s0 v Hwf Hev)
        as (l1 & it & l2 & node & Hn & _ & [[Hl ->]|(_ & Hl & ->)]);
        unfold stale_at_tail in *; simpl.
      * apply Hext. intros [it' p] He. simpl. apply oldest_delete_ne. intros ->.
        destruct (wf_lru s Hwf it' v He) as (n1 & Hn1 & Hsz & _).
        destruct (wf_fifo s Hwf it v) as (n2 & Hn2 & Hlt & _); [rewrite Hl; set_solver|].
        simplify_eq; try lia.
      * pose proof (wf_lru_ptrs s Hwf) as Hnd. rewrite Hl in Hnd, Hsorted.
        apply (sorted_not_older_ext (node_store_ s)).
        -- intros e He. apply oldest_delete_ne.
           by apply (not_elem_of_remove_middle l1 l2 (it, v) Hnd).
        -- by apply StronglySorted_remove_middle in Hsorted.
    + by destruct (Evict_None_inv s s0 Hwf Hev) as [-> _].
  - destruct (Remove_Ok s s' f Hwf Hexec) as [| |node l1 it l2 Hf Hev Hlt Hl]; try done.
    unfold stale_at_tail. simpl. apply Hext.
    intros [it' p] He. simpl. apply oldest_delete_ne. intros ->.
    destruct (wf_lru s Hwf it' f He) as (n1 & Hn1 & Hsz & _). simplify_eq; try lia.
Qed.

(** Capacity 7, history depth 2: frames 1 and 2 are accessed twice each, in
    turn. *)
Definition two_ordered_frames : LRUKReplacer :=
  state_of (run [OpRecordAccess 1 Unknown; OpRecordAccess 1 Unknown;
                 OpRecordAccess 2 Unknown; OpRecordAccess 2 Unknown]
            (LRUKReplacer_new 7 2)).

Lemma order_kept_without_promotion_witness :
  stale_at_tail (after_RecordAccess 1 Unknown two_ordered_frames).
Proof.
  apply (order_kept_without_promotion 7 2 (OpRecordAccess 1 Unknown)
    two_ordered_frames (after_RecordAccess 1 Unknown two_ordered_frames)).
  - exists [OpRecordAccess 1 Unknown; OpRecordAccess 1 Unknown;
            OpRecordAccess 2 Unknown; OpRecordAccess 2 Unknown].
    split; [repeat constructor; unfold is_frame_id; lia|]. by vm_compute.
  - unfold stale_at_tail.
    change (lru_list_ two_ordered_frames) with [(3%nat, 2); (1%nat, 1)].
    repeat constructor. exists 2, 0. by vm_compute.
  - by vm_compute.
  - intros f a [= <- <-]. by vm_compute.
Defined.

(** ** History depth one: plain LRU *)

(** [lru_list_] is in strictly decreasing order of oldest timestamp. *)
Definition lru_ordered (s : LRUKReplacer) : Prop :=
  StronglySorted (newer (node_store_ s)) (lru_list_ s).

(** With a history depth of one, a tracked frame has exactly one timestamp
    and [fifo_list_] is empty. *)
Lemma depth_one_full (s : LRUKReplacer) (f : Z) (node : LRUKNode) :
  wf s → accessed s → k_ s = 1 → node_store_ s !! f = Some node →
  history_size node = 1.
Proof.
  intros Hwf Hacc Hk Hf. pose proof (wf_node s Hwf f node Hf) as [_ Hle].
  specialize (Hacc f node Hf). unfold history_size in *.
  destruct (history node); [done|simpl in *; lia].
Qed.

Lemma depth_one_fifo (s : LRUKReplacer) :
  wf s → accessed s → k_ s = 1 → fifo_list_ s = [].
Proof.
  intros Hwf Hacc Hk. destruct (fifo_list_ s) as [|[it p] l] eqn:Hl; [done|].
  destruct (wf_fifo s Hwf it p) as (node & Hn & Hlt & _); [rewrite Hl; set_solver|].
  pose proof (depth_one_full s p node Hwf Hacc Hk Hn). lia.
Qed.

(** A frame accessed now goes in front of frames accessed in the past. *)
Lemma sorted_newer_cons_now (st st' : gmap Z LRUKNode) (e : element)
    (l : list element) (ts : Z) :
  StronglySorted (newer st) l →
  (∀ x, x ∈ l → oldest st' (elem_ptr x) = oldest st (elem_ptr x) ∧
    ∃ t, oldest st (elem_ptr x) = Some t ∧ t < ts) →
  oldest st' (elem_ptr e) = Some ts →
  StronglySorted (newer st') (e :: l).
Proof.
  intros Hs Hl He. constructor.
  - apply (sorted_newer_ext st); [|done]. intros x Hx. by apply Hl.
  - apply Forall_forall. intros x Hx. unfold newer. rewrite He.
    destruct (Hl x Hx) as (-> & t & -> & Hlt). done.
Qed.

Lemma lru_ordered_RecordAccess (s s' : LRUKReplacer) (f : Z) (a : AccessType) :
  wf s → accessed s → timed s → k_ s = 1 → lru_ordered s →
  RecordAccess f a s = Ok s' → lru_ordered s'.
Proof.
  intros Hwf Hacc Ht Hk Hsorted H. unfold lru_ordered in *.
  assert (∀ x, x ∈ lru_list_ s → elem_ptr x ≠ f →
    ∃ t, oldest (node_store_ s) (elem_ptr x) = Some t ∧ t < current_timestamp_ s)
    as Hpast.
  { intros [it p] Hx _. destruct (wf_lru s Hwf it p Hx) as (n0 & Hn0 & _).
    destruct (oldest_accessed s p n0 Ht Hn0) as (t & Hold & Hrange); [by eapply Hacc|].
    exists t. split; [done|lia]. }
  rewrite RecordAccess_touch in H. apply bind_Ok in H as (_ & _ & H).
  destruct (node_store_ s !! f) as [node|] eqn:Hf.
  - assert (enroll f s = s) as Hen by (unfold enroll; by rewrite Hf).
    rewrite Hen in H.
    pose proof (depth_one_full s f node Hwf Hacc Hk Hf) as Hsize.
    destruct (touch_full s s' f node Hwf) as (l1 & it & l2 & Hl & Hins & Hst & _);
      [lia|done|lia|done|].
    pose proof (wf_lru_ptrs s Hwf) as Hnd. rewrite Hl in Hnd, Hsorted.
    assert (∀ x, x ∈ l1 ++ l2 → elem_ptr x ≠ f) as Hother.
    { intros x Hx. by apply (not_elem_of_remove_middle l1 l2 (it, f) Hnd). }
    assert (history (trimmed (k_ s) (current_timestamp_ s) node)
      = [current_timestamp_ s]) as Hh by (simpl; by rewrite Hk).
    rewrite Hh in Hins.
    assert (back [current_timestamp_ s] = Some (current_timestamp_ s)) as Hmine by done.
    destruct (insert_before_smaller_place _ _ _ _ _ (current_timestamp_ s) Hmine Hins)
      as (l1' & l2' & Hsplit & Hl' & Hbefore & _).
    destruct l1' as [|x l1'].
    + simpl in Hsplit, Hl'. subst l2'. rewrite Hl', Hst.
      apply (sorted_newer_cons_now (node_store_ s) _ _ _ (current_timestamp_ s)).
      * by apply StronglySorted_remove_middle in Hsorted.
      * intros x Hx. split; [apply oldest_insert_ne; by apply Hother|].
        apply Hpast; [|by apply Hother]. rewrite Hl.
        apply elem_of_middle. by right.
      * simpl. rewrite oldest_insert_eq. by rewrite Hh.
    + exfalso. apply Forall_cons in Hbefore as [(b & Hb & Hle) _].
      assert (x ∈ l1 ++ l2) as Hx by (rewrite Hsplit; set_solver).
      rewrite oldest_insert_ne in Hb by by apply Hother.
      destruct (Hpast x) as (t & Hold & Hlt); [|by apply Hother|].
      { rewrite Hl. apply elem_of_middle. by right. }
      rewrite Hold in Hb. injection Hb as <-. lia.
  - assert (wf (enroll f s)) as Hwf1 by (apply wf_enroll; [done|lia]).
    pose proof (lookup_enroll f s) as Hnew. rewrite Hf in Hnew. simpl in Hnew.
    pose proof (ptrs_enroll f s) as [Hlru1 _].
    pose proof (current_timestamp_enroll f s) as Hts1.
    assert (node_store_ (enroll f s) = <[f := LRUKNode_new f (k_ s)]> (node_store_ s))
      as Hst1 by (unfold enroll; by rewrite Hf).
    assert (∀ x, x ∈ lru_list_ s → elem_ptr x ≠ f) as Hother.
    { intros [it p] Hx. simpl. intros ->.
      destruct (wf_lru s Hwf it f Hx) as (? & ? & _). congruence. }
    apply touch_Ok in H; [|done|rewrite k_enroll; lia].
    destruct H as [node Hn Hlt|node l1 it l2 Hn Heq Hl|node l1 it l2 l1' l2' Hn Heq Hl Hsplit];
      rewrite Hnew in Hn; injection Hn as <-; rewrite ?k_enroll in *;
      unfold history_size in *; simpl in *; try lia.
    rewrite Hlru1, Hst1, Hts1.
    apply (sorted_newer_cons_now (node_store_ s) _ _ _ (current_timestamp_ s)); [done| |].
    + intros x Hx. split; [|by apply Hpast; [|apply Hother]].
      rewrite !oldest_insert_ne by by apply Hother. done.
    + simpl. by rewrite oldest_insert_eq.
Qed.

Lemma lru_ordered_exec (num_frames : Z) (o : op) (s s' : LRUKReplacer) :
  inv num_frames 1 s → timed s → lru_ordered s → exec o s = Ok s' → lru_ordered s'.
Proof.
  intros [Hwf Hacc _ Hk _] Ht Hsorted. unfold lru_ordered in *.
  destruct o as [f a|f b| |f]; simpl.
  - by apply lru_ordered_RecordAccess.
  - intros [= <-]. destruct (SetEvictable_fields f b s) as (_ & _ & _ & _ & ->).
    apply (sorted_newer_ext (node_store_ s)); [|done].
    intros e _. apply oldest_SetEvictable.
  - intros H. apply bind_Ok in H as ([[v|] s0] & Hev & [= <-]).
    + destruct (Evict_Some_inv s s0 v Hwf Hev)
        as (l1 & it & l2 & node & _ & _ & [[Hl _]|(_ & Hl & ->)]).
      { rewrite (depth_one_fifo s Hwf Hacc Hk) in Hl. by destruct l1. }
      simpl. pose proof (wf_lru_ptrs s Hwf) as Hnd. rewrite Hl in Hnd, Hsorted.
      apply (sorted_newer_ext (node_store_ s)).
      * intros e He. apply oldest_delete_ne.
        by apply (not_elem_of_remove_middle l1 l2 (it, v) Hnd).
      * by apply StronglySorted_remove_middle in Hsorted.
    + by destruct (Evict_None_inv s s0 Hwf Hev) as [-> _].
  - intros H.
    destruct (Remove_Ok s s' f Hwf H) as [| |node l1 it l2 Hf Hev Hlt]; try done.
    pose proof (depth_one_full s f node Hwf Hacc Hk Hf). lia.
Qed.

Lemma lru_ordered_run (num_frames : Z) (ops : list op) (s s' : LRUKReplacer) :
  Forall valid_op ops → inv num_frames 1 s → timed s → lru_ordered s →
  current_timestamp_ s + accesses ops < SizeT.modulus →
  run ops s = Ok s' → lru_ordered s'.
Proof.
  intros Hvalid. revert s.
  induction Hvalid as [|o ops Ho _ IH]; intros s Hinv Ht Hsorted Hwrap.
  - by intros [= <-].
  - rewrite accesses_cons in Hwrap. pose proof (accesses_nonneg ops) as Hops.
    pose proof (accesses_nonneg [o]) as Ho1.
    simpl. intros H. apply bind_Ok in H as (s1 & Hs1 & H).
    destruct (timed_exec num_frames 1 o s s1) as [Ht1 Hts1]; [done|done|lia|done|].
    apply (IH s1); try done.
    + by eapply inv_exec.
    + by eapply lru_ordered_exec.
    + lia.
Qed.

(** The most recent access of a frame since its record was created: the
    first entry of its access log. *)
Definition last_access (log : gmap Z (list Z)) (f : Z) : option Z :=
  l ← log !! f; head l.

Lemma oldest_last_access (s : LRUKReplacer) (log : gmap Z (list Z)) (f : Z) :
  logs s log → k_ s = 1 → oldest (node_store_ s) f = last_access log f.
Proof.
  intros Hlogs Hk. specialize (Hlogs f). rewrite Hk in Hlogs.
  unfold oldest, last_access, back.
  destruct (node_store_ s !! f) as [node|], (log !! f) as [l|]; simplify_eq/=; try done.
  rewrite Hlogs. by destruct l.
Qed.

(** X14: with a history depth of one the replacer is a plain LRU.  In every
    state reached before the 64-bit logical clock wraps, if some frame is
    evictable then [Evict] returns an evictable frame, and the most recent
    access of that frame is earlier than the most recent access of every
    other evictable frame. *)
Theorem depth_one_Evict_least_recent (num_frames : Z) (ops : list op)
    (s : LRUKReplacer) (f : Z) :
  Forall valid_op ops → accesses ops < SizeT.modulus →
  run ops (LRUKReplacer_new num_frames 1) = Ok s →
  evictable s f = true →
  let log := logged ops (LRUKReplacer_new num_frames 1) ∅ in
  ∃ v t s', Evict s = Ok (Some v, s') ∧ evictable s v = true ∧
    last_access log v = Some t ∧
    ∀ f' t', evictable s f' = true → last_access log f' = Some t' →
      f' ≠ v → t < t'.
Proof.
  intros Hvalid Hwrap Hrun Hev log.
  pose proof (inv_run num_frames 1 ops _ s Hvalid (inv_new num_frames 1) Hrun) as Hinv.
  pose proof Hinv as [Hwf Hacc _ Hk _].
  assert (logs s log) as Hlogs.
  { apply (logs_run num_frames 1 ops (LRUKReplacer_new num_frames 1));
      [done|apply inv_new| |done].
    intros f0. simpl. by rewrite !lookup_empty. }
  assert (timed s) as Ht.
  { eapply (timed_run num_frames 1 ops); [done|apply inv_new|apply timed_new| |done].
    simpl. lia. }
  assert (lru_ordered s) as Hsorted.
  { apply (lru_ordered_run num_frames ops (LRUKReplacer_new num_frames 1));
      [done|apply inv_new|apply timed_new|constructor| |done].
    simpl. lia. }
  assert (∀ p, evictable s p = true → ∃ node it, node_store_ s !! p = Some node ∧
    is_evictable node = true ∧ (it, p) ∈ lru_list_ s) as Hin.
  { intros p Hp. unfold evictable in Hp.
    destruct (node_store_ s !! p) as [node|] eqn:Hn; [|done]. simpl in Hp.
    pose proof (depth_one_full s p node Hwf Hacc Hk Hn) as Hsize.
    pose proof (wf_full s Hwf p node Hn) as [it Hit]%elem_of_ptrs; [|lia].
    by exists node, it. }
  pose proof (depth_one_fifo s Hwf Hacc Hk) as Hfifo.
  destruct (Hin f Hev) as (node & itf & Hf & Hevn & Hitf).
  destruct (Evict_defined s Hwf) as (r & s' & Hevict).
  destruct (Evict_Ok s s' r Hwf Hevict)
    as [Hne|l1 e l2 vnode Hl|_ Hpin|l1 [ite v] l2 vnode _ Hl Hv Hvev Hpin].
  - done.
  - rewrite Hfifo in Hl. by destruct l1.
  - rewrite Forall_forall in Hpin. destruct (Hpin _ Hitf) as (n0 & Hn0 & Hn0ev).
    simpl in Hn0. simplify_eq. congruence.
  - simpl in *.
    destruct (oldest_accessed s v vnode Ht Hv) as (t & Hold & _); [by eapply Hacc|].
    exists v, t, (evicted_lru l1 l2 (ite, v) s). split_and!; try done.
    + unfold evictable. by rewrite Hv.
    + by rewrite <-(oldest_last_access s log v).
    + intros f' t' Hev' Hlast Hne.
      rewrite <-(oldest_last_access s log f') in Hlast by done.
      destruct (Hin f' Hev') as (node' & it' & Hf' & Hevn' & Hit').
      rewrite Hl in Hit'. apply elem_of_app in Hit' as [Hin1|Hin2].
      * unfold lru_ordered in Hsorted. rewrite Hl in Hsorted.
        apply StronglySorted_app in Hsorted as (Hcross & _ & _).
        specialize (Hcross (it', f') (ite, v) Hin1). unfold newer in Hcross.
        simpl in Hcross. rewrite Hlast, Hold in Hcross. apply Hcross. set_solver.
      * apply elem_of_cons in Hin2 as [Heq|Hin2]; [congruence|].
        rewrite Forall_forall in Hpin. destruct (Hpin _ Hin2) as (n0 & Hn0 & Hn0ev).
        simpl in Hn0. simplify_eq. congruence.
Qed.

(** A run with history depth 1: frames 1, 2 and 3 are accessed, then frame
    1 again; all three are evictable. *)
Definition lru_ops : list op :=
  [OpRecordAccess 1 Unknown; OpRecordAccess 2 Unknown; OpRecordAccess 3 Unknown;
   OpRecordAccess 1 Unknown;
   OpSetEvictable 1 true; OpSetEvictable 2 true; OpSetEvictable 3 true].

Definition lru_state : LRUKReplacer :=
  state_of (run lru_ops (LRUKReplacer_new 7 1)).

Example lru_state_victim :
  ptrs (lru_list_ lru_state) = [1; 3; 2] ∧ victim (Evict lru_state) = Ok (Some 2).
Proof. by vm_compute. Qed.

Lemma depth_one_Evict_least_recent_witness :
  let log := logged lru_ops (LRUKReplacer_new 7 1) ∅ in
  ∃ v t s', Evict lru_state = Ok (Some v, s') ∧ evictable lru_state v = true ∧
    last_access log v = Some t ∧
    ∀ f' t', evictable lru_state f' = true → last_access log f' = Some t' →
      f' ≠ v → t < t'.
Proof.
  apply (depth_one_Evict_least_recent 7 lru_ops lru_state 1).
  - repeat constructor; unfold is_frame_id; lia.
  - by vm_compute.
  - by vm_compute.
  - by vm_compute.
Defined.

(** ** The number of tracked frames *)

(** Every tracked frame has passed the range check of [RecordAccess]. *)
Definition ranged (s : LRUKReplacer) : Prop :=
  ∀ f node, node_store_ s !! f = Some node →
    static_cast_size_t f <= replacer_size_ s.

Lemma ranged_exec (num_frames k : Z) (o : op) (s s' : LRUKReplacer) :
  inv num_frames k s → ranged s → exec o s = Ok s' → ranged s'.
Proof.
  intros Hinv Hr. pose proof Hinv as [Hwf _ _ _ _].
  destruct o as [f a|f b| |f]; simpl.
  - intros H. pose proof (RecordAccess_Ok_depth _ _ _ _ _ _ Hinv H) as Hk1.
    destruct (RecordAccess_Ok s s' f a Hwf Hk1 H) as [Hle _].
    destruct (RecordAccess_store s s' f a Hwf Hk1 H)
      as (node' & Hst & _ & _ & _ & _ & _ & _ & Hrs).
    intros f0 n0. rewrite Hst, Hrs.
    intros [[<- <-]|[Hne H0]]%lookup_insert_Some; eauto.
  - intros [= <-]. destruct (SetEvictable_fields f b s) as (_ & Hrs & _).
    intros f0 n0. rewrite SetEvictable_store, Hrs.
    destruct (node_store_ s !! f) as [node|] eqn:Hf; [|by apply Hr].
    intros [[<- <-]|[Hne H0]]%lookup_insert_Some; eauto.
  - intros H. apply bind_Ok in H as ([r s0] & Hev & [= <-]).
    destruct (Evict_Ok s s0 r Hwf Hev); try done;
      intros f0 n0; simpl; intros [_ Hlk]%lookup_delete_Some; eauto.
  - intros H. destruct (Remove_Ok s s' f Hwf H); try done;
      intros f0 n0; simpl; intros [_ Hlk]%lookup_delete_Some; eauto.
Qed.

Lemma ranged_run (num_frames k : Z) (ops : list op) (s s' : LRUKReplacer) :
  Forall valid_op ops → inv num_frames k s → ranged s → run ops s = Ok s' → ranged s'.
Proof.
  intros Hvalid. revert s. induction Hvalid as [|o ops Ho _ IH]; intros s Hinv Hr; simpl.
  - by intros [= <-].
  - intros H. apply bind_Ok in H as (s1 & Hs1 & H).
    apply (IH s1); [by eapply inv_exec|by eapply ranged_exec|done].
Qed.

(** X15: a replacer constructed with a capacity [num_frames] between 0 and
    [2^63] never tracks more than [num_frames + 1] frames, the identifiers
    [0] to [num_frames], and [Size()] never exceeds [num_frames + 1]. *)
Theorem tracked_frames_bounded (num_frames k : Z) (s : LRUKReplacer) :
  reachable num_frames k s → 0 <= num_frames < 2 ^ 63 →
  (∀ f node, node_store_ s !! f = Some node → 0 <= f <= num_frames) ∧
  Z.of_nat (size (node_store_ s)) <= num_frames + 1 ∧
  0 <= Size s <= num_frames + 1.
Proof.
  intros (ops & Hvalid & Hrun) Hrange.
  pose proof (inv_run num_frames k ops _ s Hvalid (inv_new num_frames k) Hrun)
    as Hinv.
  assert (ranged s) as Hr.
  { apply (ranged_run num_frames k ops (LRUKReplacer_new num_frames k));
      [done|apply inv_new| |done].
    intros f node. simpl. by rewrite lookup_empty. }
  pose proof Hinv as [_ _ Hc _ Hrs].
  assert (∀ f node, node_store_ s !! f = Some node → 0 <= f <= num_frames) as Hkeys.
  { intros f node Hf. pose proof (counted_keys s Hc f node Hf) as Hid.
    pose proof (Hr f node Hf) as Hle. rewrite Hrs in Hle.
    unfold is_frame_id in Hid. unfold static_cast_size_t, SizeT.wrap in Hle.
    rewrite modulus_eq in Hle.
    destruct (Z.neg_nonneg_cases f) as [Hneg|Hpos].
    - rewrite <-(Z_mod_plus_full f 1 18446744073709551616) in Hle.
      rewrite Z.mod_small in Hle by lia. lia.
    - rewrite Z.mod_small in Hle by lia. lia. }
  assert (Z.of_nat (size (node_store_ s)) <= num_frames + 1) as Hsize.
  { rewrite <-size_dom.
    assert (size (dom (node_store_ s)) ≤ Z.to_nat (num_frames + 1))%nat as Hle; [|lia].
    apply (size_bounded_gset _ 0). intros f [x Hx]%elem_of_dom.
    apply Hkeys in Hx. lia. }
  split_and!; try done.
  - unfold Size. rewrite (counted_size s Hc). lia.
  - unfold Size. rewrite (counted_size s Hc).
    pose proof (evictable_count_size (node_store_ s)). lia.
Qed.

Lemma tracked_frames_bounded_witness :
  (∀ f node, node_store_ example_state !! f = Some node → 0 <= f <= 7) ∧
  Z.of_nat (size (node_store_ example_state)) <= 7 + 1 ∧
  0 <= Size example_state <= 7 + 1.
Proof.
  apply (tracked_frames_bounded 7 2 example_state).
  - exists example_ops. split; [repeat constructor; unfold is_frame_id; lia|].
    by vm_compute.
  - lia.
Defined.

(** ** More on the edges *)

(** X16: [RecordAccess] with a negative frame identifier aborts, in every
    state of a replacer whose capacity is below [2^64 - 2^31]: the cast to
    [size_t] turns the identifier into a number of at least [2^64 - 2^31]. *)
Theorem RecordAccess_negative_fatal (s : LRUKReplacer) (frame_id : Z)
    (access_type : AccessType) :
  is_frame_id frame_id → frame_id < 0 → replacer_size_ s < 2 ^ 64 - 2 ^ 31 →
  RecordAccess frame_id access_type s = Fatal.
Proof.
  intros Hid Hneg Hcap. rewrite RecordAccess_touch. unfold BUSTUB_ASSERT.
  assert (static_cast_size_t frame_id = frame_id + 2 ^ 64) as Hcast.
  { unfold static_cast_size_t, SizeT.wrap. rewrite modulus_eq.
    rewrite <-(Z_mod_plus_full frame_id 1 18446744073709551616).
    unfold is_frame_id in Hid. rewrite Z.mod_small by lia. lia. }
  rewrite Hcast. unfold is_frame_id in Hid.
  by destruct (Z.leb_spec (frame_id + 2 ^ 64) (replacer_size_ s)); [lia|].
Qed.

Lemma RecordAccess_negative_fatal_witness :
  RecordAccess (-1) Unknown example_state = Fatal.
Proof.
  apply (RecordAccess_negative_fatal example_state (-1) Unknown).
  - unfold is_frame_id. lia.
  - lia.
  - by vm_compute.
Defined.

(** X17: [SetEvictable] never signals an error, never creates or destroys a
    record, and touches nothing but the flag of the frame and the counter,
    in every state.  On an untracked frame, and on a tracked frame that
    has the flag asked for already, it leaves the whole state as it is,
    [Size()] included.  On a tracked frame whose flag differs, the two
    lists, the iterator maps, the clock, the capacity, the history depth
    and the allocator of list elements are unchanged, every other record is
    unchanged, the record of the frame differs in its flag only, which is
    the flag asked for, and [Size()] is one more (modulo [2^64]) when the
    flag was set and one less when it was cleared. *)
Theorem SetEvictable_frame (f : Z) (b : bool) (s : LRUKReplacer) :
  let s' := SetEvictable f b s in
  (node_store_ s !! f = None → s' = s) ∧
  (∀ node, node_store_ s !! f = Some node → is_evictable node = b → s' = s) ∧
  (∀ node, node_store_ s !! f = Some node → is_evictable node ≠ b →
     node_store_ s' !! f =
       Some {| is_evictable := b; history := history node;
               fid := fid node; node_k_ := node_k_ node |} ∧
     Size s' = (if b then SizeT.incr (Size s) else SizeT.decr (Size s))) ∧
  (∀ p, p ≠ f → node_store_ s' !! p = node_store_ s !! p) ∧
  dom (node_store_ s') = dom (node_store_ s) ∧
  lru_list_ s' = lru_list_ s ∧ fifo_list_ s' = fifo_list_ s ∧
  fid_to_lru_iter_ s' = fid_to_lru_iter_ s ∧
  fid_to_fifo_iter_ s' = fid_to_fifo_iter_ s ∧
  current_timestamp_ s' = current_timestamp_ s ∧
  replacer_size_ s' = replacer_size_ s ∧ k_ s' = k_ s ∧
  next_iter_ s' = next_iter_ s.
Proof.
  intros s'. unfold s'.
  destruct (node_store_ s !! f) as [node|] eqn:Hf.
  - rewrite (SetEvictable_tracked f b s node Hf). simpl. split_and!; try done.
    + intros node' [= <-] Hev. subst b. rewrite set_is_evictable_same.
      rewrite insert_id by done. unfold size_after.
      destruct (is_evictable node); simpl; by destruct s.
    + intros node' [= <-] Hev. rewrite lookup_insert_eq. split; [done|].
      unfold Size, size_after. simpl. by destruct (is_evictable node), b.
    + intros p Hne. by rewrite lookup_insert_ne.
    + rewrite dom_insert_L. apply elem_of_dom_2 in Hf. set_solver.
  - assert (SetEvictable f b s = s) as -> by (unfold SetEvictable; by rewrite Hf).
    split_and!; try done.
Qed.

(** X18: when [Evict] returns a victim in a reachable state, the victim is
    the evictable frame nearest to the tail of [fifo_list_], or, when
    [fifo_list_] is empty, nearest to the tail of [lru_list_]: every frame
    between the victim and the tail is not evictable. *)
Theorem Evict_nearest_tail (num_frames k : Z) (s s' : LRUKReplacer) (v : Z) :
  reachable num_frames k s → Evict s = Ok (Some v, s') →
  ∃ l1 l2, evictable s v = true ∧ (v ∉ l2) ∧
    (∀ p, p ∈ l2 → evictable s p = false) ∧
    (ptrs (fifo_list_ s) = l1 ++ v :: l2 ∨
     (fifo_list_ s = [] ∧ ptrs (lru_list_ s) = l1 ++ v :: l2)).
Proof.
  intros [Hwf _ _ _ _]%reachable_inv Hev.
  assert (∀ l p, Forall (pinned (node_store_ s)) l → p ∈ ptrs l →
    evictable s p = false) as Hpinned.
  { intros l p Hpin [it Hin]%elem_of_ptrs. rewrite Forall_forall in Hpin.
    destruct (Hpin _ Hin) as (n0 & Hn0 & Hn0ev). simpl in Hn0.
    unfold evictable. by rewrite Hn0. }
  pose proof (Evict_Ok s s' (Some v) Hwf Hev) as Hspec.
  remember (Some v) as r eqn:Hr.
  destruct Hspec as [| l1 [it p] l2 node Hl Hn Hevn Hpin
                     | | l1 [it p] l2 node Hfifo Hl Hn Hevn Hpin];
    try discriminate; injection Hr as <-; simpl in *;
    exists (ptrs l1), (ptrs l2).
  - pose proof (wf_fifo_ptrs s Hwf) as Hnd. rewrite Hl, ptrs_middle in Hnd.
    apply NoDup_middle in Hnd as [Hnin _]. split_and!.
    + unfold evictable. by rewrite Hn.
    + set_solver.
    + intros q Hq. by apply (Hpinned l2).
    + left. by rewrite Hl, ptrs_middle.
  - pose proof (wf_lru_ptrs s Hwf) as Hnd. rewrite Hl, ptrs_middle in Hnd.
    apply NoDup_middle in Hnd as [Hnin _]. split_and!.
    + unfold evictable. by rewrite Hn.
    + set_solver.
    + intros q Hq. by apply (Hpinned l2).
    + right. by rewrite Hl, ptrs_middle.
Qed.

Lemma Evict_nearest_tail_witness :
  ∃ l1 l2, evictable example_state 2 = true ∧ (2 ∉ l2) ∧
    (∀ p, p ∈ l2 → evictable example_state p = false) ∧
    (ptrs (fifo_list_ example_state) = l1 ++ 2 :: l2 ∨
     (fifo_list_ example_state = [] ∧ ptrs (lru_list_ example_state) = l1 ++ 2 :: l2)).
Proof.
  apply (Evict_nearest_tail 7 2 example_state (after_Evict example_state) 2).
  - exists example_ops. split; [repeat constructor; unfold is_frame_id; lia|].
    by vm_compute.
  - by vm_compute.
Defined.

(** While the clock has not wrapped, the difference of the backward
    k-distance does not wrap either: the distance of a frame is the number
    of accesses the replacer has seen since the oldest access it keeps for
    the frame, and it is positive. *)
Lemma backward_k_distance_unwrapped (s : LRUKReplacer) (f t : Z) :
  timed s → current_timestamp_ s < SizeT.modulus →
  oldest (node_store_ s) f = Some t →
  backward_k_distance s f = Some (current_timestamp_ s - t) ∧
  0 <= t < current_timestamp_ s.
Proof.
  intros Ht Hwrap Hold. unfold backward_k_distance. rewrite Hold. simpl.
  assert (0 <= t < current_timestamp_ s) as Hpast.
  { unfold oldest, back in Hold.
    destruct (node_store_ s !! f) as [node|] eqn:Hf; [|done]. simpl in Hold.
    apply (timed_past s Ht f node); [done|]. by apply last_Some_elem_of. }
  split; [|done]. unfold SizeT.wrap. by rewrite Z.mod_small by lia.
Qed.

(** X19: in a state reached before the 64-bit logical clock wraps, whose
    [fifo_list_] is empty and whose [lru_list_] is ordered by oldest
    timestamp, the most stale frame at the tail: if some frame is evictable
    then [Evict] returns an evictable frame of the largest backward
    k-distance among the evictable frames.  In such a state every evictable
    frame has a backward k-distance, which is positive and at most the
    number of accesses of the run. *)
Theorem Evict_most_stale_when_ordered (num_frames k : Z) (ops : list op)
    (s : LRUKReplacer) (f : Z) :
  Forall valid_op ops → accesses ops < SizeT.modulus →
  run ops (LRUKReplacer_new num_frames k) = Ok s →
  fifo_list_ s = [] → stale_at_tail s → evictable s f = true →
  ∃ v d s', Evict s = Ok (Some v, s') ∧ evictable s v = true ∧
    backward_k_distance s v = Some d ∧ d <= accesses ops ∧
    ∀ f', evictable s f' = true →
      ∃ d', backward_k_distance s f' = Some d' ∧ 0 < d' <= d.
Proof.
  intros Hvalid Hwrap Hrun Hfifo Hsorted Hev.
  pose proof (inv_run num_frames k ops _ s Hvalid (inv_new num_frames k) Hrun) as Hinv.
  pose proof Hinv as [Hwf Hacc _ Hk _]. subst k.
  destruct (timed_run num_frames (k_ s) ops (LRUKReplacer_new num_frames (k_ s)) s)
    as [Ht Hclock]; [done|apply inv_new|apply timed_new|simpl; lia|done|].
  simpl in Hclock.
  assert (current_timestamp_ s < SizeT.modulus) as Hnow by lia.
  assert (∀ p, evictable s p = true → ∃ node it, node_store_ s !! p = Some node ∧
    is_evictable node = true ∧ (it, p) ∈ lru_list_ s) as Hin.
  { intros p Hp. unfold evictable in Hp.
    destruct (node_store_ s !! p) as [node|] eqn:Hn; [|done]. simpl in Hp.
    pose proof (wf_node s Hwf p node Hn) as [_ Hle].
    destruct (decide (history_size node < k_ s)) as [Hlt|].
    - pose proof (wf_short s Hwf p node Hn Hlt) as Hp'. rewrite Hfifo in Hp'.
      by apply elem_of_nil in Hp'.
    - pose proof (wf_full s Hwf p node Hn) as [it Hit]%elem_of_ptrs; [|lia].
      by exists node, it. }
  destruct (Hin f Hev) as (node & itf & Hf & Hevn & Hitf).
  destruct (Evict_defined s Hwf) as (r & s' & Hevict).
  destruct (Evict_Ok s s' r Hwf Hevict)
    as [Hne|l1 e l2 vnode Hl|_ Hpin|l1 [ite v] l2 vnode _ Hl Hv Hvev Hpin].
  - done.
  - rewrite Hfifo in Hl. by destruct l1.
  - rewrite Forall_forall in Hpin. destruct (Hpin _ Hitf) as (n0 & Hn0 & Hn0ev).
    simpl in Hn0. simplify_eq. congruence.
  - simpl in *. unfold stale_at_tail in Hsorted. rewrite Hl in Hsorted.
    apply StronglySorted_app in Hsorted as (Hcross & _ & _).
    destruct (oldest_accessed s v vnode Ht Hv) as (t & Hold & Hpast);
      [by eapply Hacc|].
    destruct (backward_k_distance_unwrapped s v t Ht Hnow Hold) as [Hd _].
    exists v, (current_timestamp_ s - t), (evicted_lru l1 l2 (ite, v) s).
    split_and!; try done.
    + unfold evictable. by rewrite Hv.
    + lia.
    + intros f' Hev'.
      destruct (Hin f' Hev') as (node' & it' & Hf' & Hevn' & Hit').
      destruct (oldest_accessed s f' node' Ht Hf') as (t' & Hold' & Hpast');
        [by eapply Hacc|].
      destruct (backward_k_distance_unwrapped s f' t' Ht Hnow Hold') as [Hd' _].
      exists (current_timestamp_ s - t'). split; [done|].
      destruct (decide (f' = v)) as [->|Hne];
        [rewrite Hold in Hold'; injection Hold' as <-; lia|].
      rewrite Hl in Hit'. apply elem_of_app in Hit' as [Hin1|Hin2].
      * destruct (Hcross (it', f') (ite, v) Hin1) as (t1 & t2 & H1 & H2 & Hle);
          [set_solver|]. simpl in *. simplify_eq. lia.
      * apply elem_of_cons in Hin2 as [Heq|Hin2]; [congruence|].
        rewrite Forall_forall in Hpin. destruct (Hpin _ Hin2) as (n0 & Hn0 & Hn0ev).
        simpl in Hn0. simplify_eq. congruence.
Qed.

(** Capacity 7, history depth 2: frames 1 and 2 are accessed twice each, in
    turn, and are evictable. *)
Definition two_ordered_ops : list op :=
  [OpRecordAccess 1 Unknown; OpRecordAccess 1 Unknown;
   OpRecordAccess 2 Unknown; OpRecordAccess 2 Unknown;
   OpSetEvictable 1 true; OpSetEvictable 2 true].

Definition two_ordered_evictable : LRUKReplacer :=
  state_of (run two_ordered_ops (LRUKReplacer_new 7 2)).

Example two_ordered_evictable_victim :
  ptrs (lru_list_ two_ordered_evictable) = [2; 1] ∧
  backward_k_distance two_ordered_evictable 1 = Some 4 ∧
  backward_k_distance two_ordered_evictable 2 = Some 2 ∧
  victim (Evict two_ordered_evictable) = Ok (Some 1).
Proof. by vm_compute. Qed.

Lemma Evict_most_stale_when_ordered_witness :
  ∃ v d s', Evict two_ordered_evictable = Ok (Some v, s') ∧
    evictable two_ordered_evictable v = true ∧
    backward_k_distance two_ordered_evictable v = Some d ∧
    d <= accesses two_ordered_ops ∧
    ∀ f', evictable two_ordered_evictable f' = true →
      ∃ d', backward_k_distance two_ordered_evictable f' = Some d' ∧ 0 < d' <= d.
Proof.
  apply (Evict_most_stale_when_ordered 7 2 two_ordered_ops two_ordered_evictable 1).
  - repeat constructor; unfold is_frame_id; lia.
  - by vm_compute.
  - by vm_compute.
  - by vm_compute.
  - unfold stale_at_tail.
    change (lru_list_ two_ordered_evictable) with [(3%nat, 2); (1%nat, 1)].
    repeat constructor. exists 2, 0. by vm_compute.
  - by vm_compute.
Defined.
